(** * The agent pipeline of ai-agent-devops-demo, embedded in Rocq

    The development follows the three JavaScript modules of [src/agent]:

    - [claude.js]    the model gateway: [isRetryableError], [AgentError],
                     [callClaude] with its retry loop, backoff and cost;
    - [knowledge.js] the knowledge store: [parseMarkdownChunks],
                     [loadKnowledge], [scoreChunk], [findRelevantChunks];
    - [index.js]     the orchestrator: [ask];

    and, of [src/server], the route that calls them:

    - [middleware.js] [createCors], [apiKeyMiddleware], [validateAskInput];
    - [routes.js]     the handler of [POST /api/ask] and its counters.

    JavaScript values are modelled as follows.  A string is the sequence of
    its code units, held in a [string]; the model covers ASCII text, so
    [toLowerCase] folds [A-Z] and white space is ASCII white space.  Integer
    numbers (statuses, attempts, delays, clock readings, scores) are in [Z]
    or [nat]; token counts and costs are binary64 floats, as every
    JavaScript number is.  An exception is a [Throw] completion.  The
    regular-expression engine belongs to the runtime and is an interface
    ([RegExpEngine]); a reference engine for a small pattern fragment is
    used in the closed examples. *)

From Stdlib Require Import ZArith List String Ascii Bool Arith Lia PrimFloat.
From Stdlib Require Import Sorting.Sorted Sorting.Permutation.
From stdpp Require Import base option gmap.
Import ListNotations.

Open Scope string_scope.
Open Scope Z_scope.

(** ** Runtime: strings *)

Module Js.

Definition code (c : ascii) : nat := nat_of_ascii c.

(** [\s], and what [trim] strips, on ASCII: TAB, LF, VT, FF, CR, SP. *)
Definition isWhiteSpace (c : ascii) : bool :=
  ((9 <=? code c) && (code c <=? 13) || (code c =? 32))%nat.

(** LF and CR: the characters [.] refuses and after which [^] matches
    under the [m] flag. *)
Definition isLineTerminator (c : ascii) : bool :=
  ((code c =? 10) || (code c =? 13))%nat.

Definition isUpper (c : ascii) : bool := ((65 <=? code c) && (code c <=? 90))%nat.
Definition isLowerAlnum (c : ascii) : bool :=
  ((97 <=? code c) && (code c <=? 122) || (48 <=? code c) && (code c <=? 57))%nat.

Definition lowerChar (c : ascii) : ascii :=
  if isUpper c then ascii_of_nat (code c + 32) else c.

Fixpoint toLowerCase (s : string) : string :=
  match s with
  | EmptyString => EmptyString
  | String c s' => String (lowerChar c) (toLowerCase s')
  end.

Definition chars (s : string) : list ascii := list_ascii_of_string s.
Definition str (l : list ascii) : string := string_of_list_ascii l.

(** [s.split(/\s+/)]: the pieces between maximal runs of white space.  A
    leading or trailing run leaves an empty first or last piece, and the
    empty string splits into one empty piece.  [inRun] says that the
    previous character was white space, [cur] is the piece being read. *)
Fixpoint splitWs (inRun : bool) (cur : string) (s : string) : list string :=
  match s with
  | EmptyString => [cur]
  | String c s' =>
      if isWhiteSpace c
      then if inRun then splitWs true EmptyString s'
           else cur :: splitWs true EmptyString s'
      else splitWs false (cur ++ String c EmptyString) s'
  end.

Definition split_whitespace (s : string) : list string := splitWs false EmptyString s.

(** [s.split('\n')] *)
Fixpoint splitLines (cur : string) (s : string) : list string :=
  match s with
  | EmptyString => [cur]
  | String c s' =>
      if (code c =? 10)%nat then cur :: splitLines EmptyString s'
      else splitLines (cur ++ String c EmptyString) s'
  end.

Definition split_newline (s : string) : list string := splitLines EmptyString s.

(** [parts.join(sep)] *)
Fixpoint join (sep : string) (parts : list string) : string :=
  match parts with
  | [] => EmptyString
  | [p] => p
  | p :: rest => p ++ sep ++ join sep rest
  end.

Fixpoint trimStart (s : string) : string :=
  match s with
  | EmptyString => EmptyString
  | String c s' => if isWhiteSpace c then trimStart s' else s
  end.

(** The string without its trailing white space: a character is kept when
    it is not white space or something kept follows it. *)
Fixpoint trimEnd (s : string) : string :=
  match s with
  | EmptyString => EmptyString
  | String c s' =>
      match trimEnd s' with
      | EmptyString => if isWhiteSpace c then EmptyString else String c EmptyString
      | rest => String c rest
      end
  end.

Definition trim (s : string) : string := trimEnd (trimStart s).

(** [s.endsWith(suffix)] *)
Definition endsWith (s suffix : string) : bool :=
  let n := String.length s in
  let k := String.length suffix in
  ((k <=? n)%nat && String.eqb (substring (n - k) k s) suffix)%bool.

(** [s.includes(sub)]: [sub] occurs in [s] as literal text. *)
Fixpoint includes (s sub : string) : bool :=
  String.prefix sub s ||
  match s with
  | EmptyString => false
  | String _ s' => includes s' sub
  end.

(** A string is truthy when it is not empty. *)
Definition truthy (s : string) : bool :=
  match s with EmptyString => false | _ => true end.

End Js.

(** ** Runtime: regular expressions

    [new RegExp(pattern, 'g')] either builds a regular expression or throws
    a [SyntaxError]; [s.match(re)] with a global [re] is [null] or the array
    of all matches.  The engine is the runtime's: the model takes it as an
    interface. *)

Class RegExpEngine := {
  RegExp : Type;
  RegExp_new : string -> option RegExp;
  String_match : string -> RegExp -> option (list string)
}.

(** ** Data model *)

(** A chunk of the knowledge base. *)
Record Chunk := {
  id : string;
  title : string;
  content : string;
  source : string
}.

(** [{ ...chunk, score }] *)
Record ScoredChunk := {
  sc_id : string;
  sc_title : string;
  sc_content : string;
  sc_source : string;
  score : nat
}.

(** An error thrown by the SDK client: an [Error] with a [message] and,
    for HTTP failures, a numeric [status]. *)
Record ApiError := {
  message : string;
  status : option Z
}.

(** The error with which the SDK client rejects a call that exceeded its
    [timeout] option: a connection error, which carries no HTTP status. *)
Definition APIConnectionTimeoutError : ApiError :=
  {| message := "Request timed out."; status := None |}.

(** The body of [anthropic.messages.create]'s request. *)
Record Request := {
  req_model : string;
  req_max_tokens : Z;
  req_system : string;
  req_messages : list (string * string)
}.

(** What [callClaude] reads of a response: [content[0].text], [model],
    [usage.input_tokens], [usage.output_tokens]. *)
Record Response := {
  content0_text : string;
  res_model : string;
  input_tokens : float;
  output_tokens : float
}.

Inductive Outcome :=
| Resolved (response : Response)
| Rejected (error : ApiError).

(** One awaited call of the backend: how long it took, in ms, and how it
    ended. *)
Record Attempt := {
  elapsed : Z;
  outcome : Outcome
}.

Record Tokens := {
  input : float;
  output : float
}.

Record ModelCallResult := {
  text : string;
  model : string;
  tokens : Tokens;
  cost_usd : float;
  latency_ms : Z
}.

(** [statusCode] of an [AgentError]: never assigned, [null], or a number. *)
Inductive StatusCode :=
| StatusUnset
| StatusNull
| StatusNumber (s : Z).

Record AgentError := {
  ae_name : string;
  ae_message : string;
  cause : option ApiError;
  statusCode : StatusCode
}.

Record AgentResult := {
  answer : string;
  trace_id : string;
  ar_latency_ms : Z;
  tokens_used : float;
  ar_cost_usd : float;
  knowledge_chunks : list string
}.

(** The argument of [recordTrace]. *)
Record TraceParams := {
  tp_traceId : string;
  tp_sessionId : option string;
  tp_input : string;
  tp_output : string;
  tp_model : string;
  tp_tokens : Tokens;
  tp_cost_usd : float;
  tp_latency_ms : Z;
  tp_knowledgeChunks : list string;
  tp_systemPrompt : string
}.

(** ** Exceptions, the world, and the monad of effects *)

Inductive Exn :=
| SyntaxError (pattern : string)
| FsError (file : string)
| TypeError
| AgentErr (e : AgentError).

Inductive Completion (A : Type) :=
| Normal (a : A)
| Throw (e : Exn).
Arguments Normal {A} a.
Arguments Throw {A} e.

(** A directory entry of the knowledge directory; reading it may fail. *)
Record DirEntry := {
  file : string;
  contents : option string
}.

(** What the program reads of its environment: the model name, the mocked
    or real [anthropic.messages.create] (its [n]-th invocation, counted from
    0, on a request), the knowledge directory ([None] when it does not
    exist) and the identifiers [uuidv4] hands out. *)
Record Env := {
  MODEL : string;
  backend : nat -> Request -> Attempt;
  knowledgeDir : option (list DirEntry);
  uuid : nat -> string
}.

(** What the program changes: the clock [Date.now()] reads, the number of
    backend invocations made, the delays slept (oldest first), the module
    variable [chunksCache], the calls of [recordTrace], and the number of
    identifiers drawn. *)
Record World := {
  clock : Z;
  calls : nat;
  slept : list Z;
  chunksCache : option (list Chunk);
  traces : list TraceParams;
  uuids : nat
}.

(** A computation over a state [S]: it ends normally or throws, and leaves
    a state either way. *)
Definition Eff (S A : Type) : Type := S -> Completion A * S.

Definition ret {S A} (a : A) : Eff S A := fun w => (Normal a, w).
Definition throw {S A} (e : Exn) : Eff S A := fun w => (Throw e, w).
Definition bind {S A B} (m : Eff S A) (k : A -> Eff S B) : Eff S B :=
  fun w =>
    match m w with
    | (Normal a, w') => k a w'
    | (Throw e, w') => (Throw e, w')
    end.

(** [try { m } catch (error) { handler }] *)
Definition try_catch {S A} (m : Eff S A) (handler : Exn -> Eff S A) : Eff S A :=
  fun w =>
    match m w with
    | (Normal a, w') => (Normal a, w')
    | (Throw e, w') => handler e w'
    end.

Definition lift {S A} (c : Completion A) : Eff S A := fun w => (c, w).

Definition M : Type -> Type := Eff World.

Declare Scope js_scope.
Delimit Scope js_scope with js.
Notation "x <- m ;; k" := (bind m (fun x => k))
  (at level 100, m at next level, right associativity) : js_scope.
Notation "m ;;; k" := (bind m (fun _ => k))
  (at level 100, right associativity) : js_scope.

(** [Date.now()] *)
Definition Date_now : M Z := fun w => (Normal (clock w), w).

(** [await sleep(ms)]: the timer fires after [ms] milliseconds. *)
Definition sleep (ms : Z) : M unit :=
  fun w =>
    (Normal tt,
     {| clock := clock w + ms; calls := calls w; slept := slept w ++ [ms];
        chunksCache := chunksCache w; traces := traces w; uuids := uuids w |}).

(** [await anthropic.messages.create(request)] *)
Definition messages_create (env : Env) (request : Request) : M Outcome :=
  fun w =>
    let a := backend env (calls w) request in
    (Normal (outcome a),
     {| clock := clock w + elapsed a; calls := S (calls w); slept := slept w;
        chunksCache := chunksCache w; traces := traces w; uuids := uuids w |}).

(** [uuidv4()] *)
Definition uuidv4 (env : Env) : M string :=
  fun w =>
    (Normal (uuid env (uuids w)),
     {| clock := clock w; calls := calls w; slept := slept w;
        chunksCache := chunksCache w; traces := traces w; uuids := S (uuids w) |}).

Definition set_chunksCache (c : option (list Chunk)) : M unit :=
  fun w =>
    (Normal tt,
     {| clock := clock w; calls := calls w; slept := slept w;
        chunksCache := c; traces := traces w; uuids := uuids w |}).

Definition get_chunksCache : M (option (list Chunk)) :=
  fun w => (Normal (chunksCache w), w).

(** ** claude.js *)

Module Claude.

Definition COST_PER_TOKEN : Tokens :=
  {| input := (3.0 / 1000000)%float; output := (15.0 / 1000000)%float |}.

Definition MAX_RETRIES : Z := 3.

(** [new AgentError(message, { cause })] *)
Definition new_AgentError (msg : string) (options_cause : option ApiError) : AgentError :=
  match options_cause with
  | Some c =>
      {| ae_name := "AgentError"; ae_message := msg; cause := Some c;
         statusCode :=
           match status c with
           | Some s => if s =? 0 then StatusNull else StatusNumber s
           | None => StatusNull
           end |}
  | None =>
      {| ae_name := "AgentError"; ae_message := msg; cause := None;
         statusCode := StatusUnset |}
  end.

Definition isRetryableError (error : ApiError) : bool :=
  let retryableStatuses := [429; 529] in
  let isServerError :=
    match status error with Some s => 500 <=? s | None => false end in
  match status error with
  | Some s => existsb (Z.eqb s) retryableStatuses
  | None => false
  end || isServerError.

(** Truthiness of [error.status]: [undefined] and [0] are falsy. *)
Definition status_truthy (error : ApiError) : bool :=
  match status error with
  | Some s => negb (s =? 0)
  | None => false
  end.

(** [Math.min(1000 * Math.pow(2, attempt - 1), 10_000)] *)
Definition backoffDelay (attempt : Z) : Z :=
  Z.min (1000 * 2 ^ (attempt - 1)) 10000.

(** The argument of [anthropic.messages.create]. *)
Definition requestOf (env : Env) (systemPrompt userMessage : string) : Request :=
  {| req_model := MODEL env; req_max_tokens := 1024;
     req_system := systemPrompt;
     req_messages := [("user", userMessage)] |}.

(** How the [for] loop of [callClaude] ends: with the [return] of a result,
    or past the loop with [lastError]. *)
Inductive LoopEnd :=
| Returned (result : ModelCallResult)
| Exited (lastError : option ApiError).

(** The loop [for (attempt = 1; attempt <= MAX_RETRIES; attempt++)], over the
    values [attempt] still has to take. *)
Fixpoint forAttempts (env : Env) (request : Request) (startTime : Z)
    (lastError : option ApiError) (attempts : list Z) : M LoopEnd :=
  match attempts with
  | [] => ret (Exited lastError)
  | attempt :: rest =>
      (outcome <- messages_create env request ;;
       match outcome with
       | Resolved response =>
           now <- Date_now ;;
           let latency_ms := now - startTime in
           let tokens :=
             {| input := input_tokens response; output := output_tokens response |} in
           let cost_usd :=
             (input tokens * input COST_PER_TOKEN +
              output tokens * output COST_PER_TOKEN)%float in
           ret (Returned {| text := content0_text response;
                            model := res_model response;
                            tokens := tokens;
                            cost_usd := cost_usd;
                            latency_ms := latency_ms |})
       | Rejected error =>
           let lastError := Some error in
           let isRetryable := status_truthy error && isRetryableError error in
           if negb isRetryable || (attempt =? MAX_RETRIES)
           then ret (Exited lastError)
           else
             let delay := backoffDelay attempt in
             (sleep delay ;;; forAttempts env request startTime lastError rest)
       end)%js
  end.

Definition attemptNumbers : list Z :=
  map Z.of_nat (seq 1 (Z.to_nat MAX_RETRIES)).

Definition callClaude (env : Env) (systemPrompt userMessage traceId : string)
    : M ModelCallResult :=
  (startTime <- Date_now ;;
   loopEnd <- forAttempts env (requestOf env systemPrompt userMessage)
     startTime None attemptNumbers ;;
   match loopEnd with
   | Returned result => ret result
   | Exited None => throw TypeError
   | Exited (Some lastError) =>
       throw (AgentErr (new_AgentError "Claude API call failed after retries"
                          (Some lastError)))
   end)%js.

(** The time the [n] backend invocations from the [first]-th on took. *)
Fixpoint elapsedFrom (env : Env) (request : Request) (first n : nat) : Z :=
  match n with
  | O => 0
  | S n' => elapsed (backend env first request) + elapsedFrom env request (S first) n'
  end.

Definition sumZ (l : list Z) : Z := fold_right Z.add 0 l.

End Claude.

(** ** knowledge.js *)

Module Knowledge.
Import Js.

Definition LF : string := String (ascii_of_nat 10) EmptyString.

(** [content.split(/^## /m)]: cut at every [## ] that starts a line.
    [skip] counts the characters of a separator still to be dropped,
    [atStart] says that a line starts here, [cur] is the piece being read. *)
Fixpoint splitSections (skip : nat) (atStart : bool) (cur : string) (s : string)
    : list string :=
  match s with
  | EmptyString => [cur]
  | String c s' =>
      match skip with
      | S k => splitSections k false cur s'
      | O =>
          if atStart && String.prefix "## " s
          then cur :: splitSections 2 false EmptyString s'
          else splitSections 0 (isLineTerminator c) (cur ++ String c EmptyString) s'
      end
  end.

(** The longest prefix without a line terminator: what [.+] takes. *)
Fixpoint takeLine (s : string) : string :=
  match s with
  | EmptyString => EmptyString
  | String c s' => if isLineTerminator c then EmptyString else String c (takeLine s')
  end.

(** [intro.match(/^# (.+)/m)]: group 1 of the first match, if any. *)
Fixpoint matchTitle (atStart : bool) (s : string) : option string :=
  match s with
  | EmptyString => None
  | String c s' =>
      let rest := takeLine (substring 2 (String.length s) s) in
      if atStart && String.prefix "# " s && truthy rest
      then Some rest
      else matchTitle (isLineTerminator c) s'
  end.

(** [t.replace(/[^a-z0-9]+/g, '-')] *)
Fixpoint replaceNonAlnumRuns (inRun : bool) (s : string) : string :=
  match s with
  | EmptyString => EmptyString
  | String c s' =>
      if isLowerAlnum c then String c (replaceNonAlnumRuns false s')
      else if inRun then replaceNonAlnumRuns true s'
      else String "-" (replaceNonAlnumRuns true s')
  end.

Definition sectionChunk (filename section : string) : list Chunk :=
  let lines := split_newline section in
  let title := trim (hd EmptyString lines) in
  let body := trim (join LF (tl lines)) in
  if truthy body then
    let slug := replaceNonAlnumRuns false (toLowerCase title) in
    [ {| id := filename ++ "#" ++ slug;
         title := title;
         content := "## " ++ title ++ LF ++ LF ++ body;
         source := filename |} ]
  else [].

Definition parseMarkdownChunks (content filename : string) : list Chunk :=
  let sections := splitSections 0 true EmptyString content in
  let intro := trim (hd EmptyString sections) in
  let introChunk :=
    if truthy intro then
      let title :=
        match matchTitle true intro with
        | Some t => t
        | None => filename
        end in
      [ {| id := filename ++ "#intro"; title := title; content := intro;
           source := filename |} ]
    else [] in
  introChunk ++ flat_map (sectionChunk filename) (tl sections).

(** [path.basename(file, '.md')] of a name that ends with [.md]. *)
Definition basename_md (file : string) : string :=
  substring 0 (String.length file - 3) file.

(** The loop over [files] of [loadKnowledge]. *)
Fixpoint readFiles (files : list DirEntry) (allChunks : list Chunk)
    : Completion (list Chunk) :=
  match files with
  | [] => Normal allChunks
  | f :: rest =>
      match contents f with
      | None => Throw (FsError (file f))
      | Some content =>
          let filename := basename_md (file f) in
          let chunks := parseMarkdownChunks content filename in
          readFiles rest (allChunks ++ chunks)
      end
  end.

Definition loadKnowledge (env : Env) : M (list Chunk) :=
  (cache <- get_chunksCache ;;
   match cache with
   | Some chunks => ret chunks
   | None =>
       match knowledgeDir env with
       | None => set_chunksCache (Some []) ;;; ret []
       | Some entries =>
           let files := List.filter (fun f => endsWith (file f) ".md") entries in
           allChunks <- lift (readFiles files []) ;;
           set_chunksCache (Some allChunks) ;;; ret allChunks
       end
   end)%js.

Definition resetCache : M unit := set_chunksCache None.

Section Scoring.
Context {engine : RegExpEngine}.

(** [(s.match(new RegExp(term, 'g')) || []).length] *)
Definition matchCount (s term : string) : Completion nat :=
  match RegExp_new term with
  | None => Throw (SyntaxError term)
  | Some re =>
      Normal (match String_match s re with
              | Some found => List.length found
              | None => O
              end)
  end.

Definition queryTerms (query : string) : list string :=
  List.filter (fun t => (2 <? String.length t)%nat)
    (split_whitespace (toLowerCase query)).

(** The loop over [queryTerms] of [scoreChunk], from the score so far. *)
Fixpoint scoreTerms (terms : list string) (chunkTitle chunkText : string)
    (score : nat) : Completion nat :=
  match terms with
  | [] => Normal score
  | term :: rest =>
      match matchCount (toLowerCase chunkTitle) term with
      | Throw e => Throw e
      | Normal titleMatches =>
          match matchCount chunkText term with
          | Throw e => Throw e
          | Normal bodyMatches =>
              scoreTerms rest chunkTitle chunkText
                (score + (titleMatches * 3 + bodyMatches))%nat
          end
      end
  end.

Definition chunkTextOf (chunkTitle chunkContent : string) : string :=
  toLowerCase (chunkTitle ++ " " ++ chunkContent).

Definition scoreChunk (query : string) (chunk : Chunk) : Completion nat :=
  scoreTerms (queryTerms query) (title chunk)
    (chunkTextOf (title chunk) (content chunk)) 0%nat.

(** [chunks.map((chunk) => ({ ...chunk, score: scoreChunk(query, chunk) }))] *)
Fixpoint mapScored (query : string) (chunks : list Chunk)
    : Completion (list ScoredChunk) :=
  match chunks with
  | [] => Normal []
  | chunk :: rest =>
      match scoreChunk query chunk with
      | Throw e => Throw e
      | Normal s =>
          match mapScored query rest with
          | Throw e => Throw e
          | Normal scored =>
              Normal ({| sc_id := id chunk; sc_title := title chunk;
                         sc_content := content chunk; sc_source := source chunk;
                         score := s |} :: scored)
          end
      end
  end.

(** What the statements about scores are written with: a term the
    constructor accepts, the number of its matches in a string, and the
    score a chunk gets for one term and for a list of terms. *)
Definition compiles (term : string) : Prop := RegExp_new term <> None.

(** The first term the constructor refuses, if any. *)
Definition firstRefused (terms : list string) : option string :=
  find (fun t => match RegExp_new t with Some _ => false | None => true end) terms.

Definition occurrences (term s : string) : nat :=
  match RegExp_new term with
  | Some re =>
      match String_match s re with
      | Some found => List.length found
      | None => O
      end
  | None => O
  end.

Definition termScore (chunk : Chunk) (term : string) : nat :=
  (3 * occurrences term (toLowerCase (title chunk)) +
   1 * occurrences term (toLowerCase (title chunk ++ " " ++ content chunk)))%nat.

Definition totalScore (terms : list string) (chunk : Chunk) : nat :=
  fold_right Nat.add O (map (termScore chunk) terms).

Definition withScore (chunk : Chunk) (s : nat) : ScoredChunk :=
  {| sc_id := id chunk; sc_title := title chunk; sc_content := content chunk;
     sc_source := source chunk; score := s |}.

End Scoring.

(** [Array.prototype.sort(compareFn)]: a stable sort; [x] goes before the
    first element it does not have to follow. *)
Fixpoint insertSorted {A} (compareFn : A -> A -> Z) (x : A) (l : list A) : list A :=
  match l with
  | [] => [x]
  | y :: rest =>
      if compareFn x y <=? 0 then x :: y :: rest
      else y :: insertSorted compareFn x rest
  end.

Fixpoint sort {A} (compareFn : A -> A -> Z) (l : list A) : list A :=
  match l with
  | [] => []
  | x :: rest => insertSorted compareFn x (sort compareFn rest)
  end.

(** [l.slice(0, finish)] for an integer [finish]: a negative one counts
    from the end. *)
Definition slice0 {A} (finish : Z) (l : list A) : list A :=
  let len := Z.of_nat (List.length l) in
  let final := if finish <? 0 then Z.max (len + finish) 0 else Z.min finish len in
  firstn (Z.to_nat final) l.

(** [(a, b) => b.score - a.score] *)
Definition byScoreDesc (a b : ScoredChunk) : Z :=
  Z.of_nat (score b) - Z.of_nat (score a).

(** The order of the result: non-increasing scores. *)
Definition scoreGe (a b : ScoredChunk) : Prop := (score b <= score a)%nat.

(** The chain [.filter((chunk) => chunk.score > 0).sort(...).slice(0, topK)]
    of [findRelevantChunks]. *)
Definition rank (topK : Z) (scored : list ScoredChunk) : list ScoredChunk :=
  slice0 topK
    (sort byScoreDesc (List.filter (fun chunk => (0 <? score chunk)%nat) scored)).

Definition findRelevantChunks {engine : RegExpEngine} (env : Env)
    (query : string) (topK : Z) : M (list ScoredChunk) :=
  (chunks <- loadKnowledge env ;;
   mapped <- lift (mapScored query chunks) ;;
   ret (rank topK mapped))%js.

End Knowledge.

(** ** A reference engine for a fragment of the pattern language

    The fragment: ordinary characters, [.], and the quantifiers [*], [+],
    [?], each greedy or (followed by [?]) lazy, applied to one character or
    to [.].  On it the engine follows ECMAScript: a quantifier with nothing
    to repeat is a [SyntaxError], matching backtracks in priority order, and
    a global match advances by one character after an empty match.  A
    pattern that uses any other syntax character ([^ $ \ ( ) [ ] { } |]) is
    outside the fragment: [parse] answers [Unsupported], [supported] is
    false, and the engine builds nothing for it.  The closed examples use
    supported patterns only, and no general statement depends on this
    engine. *)

Module RefEngine.
Import Js.

Inductive atom :=
| Lit (c : ascii)
| Dot.

Inductive quant :=
| One
| Star (greedy : bool)
| Plus (greedy : bool)
| Opt (greedy : bool).

Definition piece : Type := atom * quant.

Inductive parsed :=
| Pattern (ps : list piece)
| NothingToRepeat
| Unsupported.

Definition isQuantChar (c : ascii) : bool :=
  ((code c =? 42) || (code c =? 43) || (code c =? 63))%nat.

(** [^ $ \ ( ) [ ] { } |] *)
Definition outsideFragment (c : ascii) : bool :=
  existsb (Nat.eqb (code c)) [94; 36; 92; 40; 41; 91; 93; 123; 125; 124]%nat.

Definition quantOf (c : ascii) (greedy : bool) : quant :=
  if (code c =? 42)%nat then Star greedy
  else if (code c =? 43)%nat then Plus greedy
  else Opt greedy.

Definition atomOf (c : ascii) : atom :=
  if (code c =? 46)%nat then Dot else Lit c.

(** [pending] is the atom read last, when no quantifier has been applied to
    it yet; [quantified] is the last piece when it carries a greedy
    quantifier that a following [?] would make lazy. *)
Fixpoint parseFrom (acc : list piece) (pending : option atom)
    (quantified : option (atom * ascii)) (s : list ascii) : parsed :=
  let flush :=
    match pending, quantified with
    | Some a, _ => (acc ++ [(a, One)])%list
    | None, Some (a, q) => (acc ++ [(a, quantOf q true)])%list
    | None, None => acc
    end in
  match s with
  | [] => Pattern flush
  | c :: s' =>
      if outsideFragment c then Unsupported
      else if isQuantChar c then
        match pending, quantified with
        | Some a, _ => parseFrom acc None (Some (a, c)) s'
        | None, Some (a, q) =>
            if (code c =? 63)%nat
            then parseFrom (acc ++ [(a, quantOf q false)])%list None None s'
            else match parseFrom acc None None s' with
                 | Unsupported => Unsupported
                 | _ => NothingToRepeat
                 end
        | None, None =>
            match parseFrom acc None None s' with
            | Unsupported => Unsupported
            | _ => NothingToRepeat
            end
        end
      else parseFrom flush (Some (atomOf c)) None s'
  end.

Definition parse (pattern : string) : parsed :=
  parseFrom [] None None (chars pattern).

Definition supported (pattern : string) : bool :=
  match parse pattern with
  | Unsupported => false
  | _ => true
  end.

Definition atomMatches (a : atom) (c : ascii) : bool :=
  match a with
  | Lit x => Ascii.eqb x c
  | Dot => negb (isLineTerminator c)
  end.

(** How many leading characters of [s] the atom matches. *)
Fixpoint run (a : atom) (s : list ascii) : nat :=
  match s with
  | c :: s' => if atomMatches a c then S (run a s') else O
  | [] => O
  end.

(** The numbers of repetitions to try, in priority order, when [n]
    characters are available. *)
Definition candidates (q : quant) (n : nat) : list nat :=
  match q with
  | One => if (1 <=? n)%nat then [1%nat] else []
  | Star true => rev (seq 0 (S n))
  | Star false => seq 0 (S n)
  | Plus true => rev (seq 1 n)
  | Plus false => seq 1 n
  | Opt true => rev (seq 0 (S (Nat.min 1 n)))
  | Opt false => seq 0 (S (Nat.min 1 n))
  end.

Fixpoint firstSome {A} (f : nat -> option A) (ks : list nat) : option A :=
  match ks with
  | [] => None
  | k :: rest =>
      match f k with
      | Some r => Some r
      | None => firstSome f rest
      end
  end.

(** The match of the pieces at the start of [s]: the number of characters
    it takes, for the first way to match in priority order. *)
Fixpoint matchHere (ps : list piece) (s : list ascii) : option nat :=
  match ps with
  | [] => Some O
  | (a, q) :: ps' =>
      firstSome
        (fun k =>
           match matchHere ps' (skipn k s) with
           | Some r => Some (k + r)%nat
           | None => None
           end)
        (candidates q (run a s))
  end.

(** All matches from the current position on, as [match] with the [g] flag
    collects them.  [skip] counts the characters of the last match still to
    be passed. *)
Fixpoint matchAll (ps : list piece) (skip : nat) (s : list ascii) : list string :=
  match skip with
  | S k =>
      match s with
      | [] => []
      | _ :: s' => matchAll ps k s'
      end
  | O =>
      match matchHere ps s with
      | Some n =>
          str (firstn n s) ::
          match s with
          | [] => []
          | _ :: s' => matchAll ps (Nat.pred n) s'
          end
      | None =>
          match s with
          | [] => []
          | _ :: s' => matchAll ps O s'
          end
      end
  end.

Definition compile (pattern : string) : option (list piece) :=
  match parse pattern with
  | Pattern ps => Some ps
  | NothingToRepeat => None
  | Unsupported => None
  end.

Definition matchGlobal (s : string) (ps : list piece) : option (list string) :=
  match matchAll ps O (chars s) with
  | [] => None
  | found => Some found
  end.

(** A term of ordinary characters only: it stands for itself. *)
Definition ordinary (c : ascii) : bool :=
  negb (outsideFragment c) && negb (isQuantChar c) && negb (code c =? 46)%nat.

Definition literal (term : string) : bool := forallb ordinary (chars term).

Definition lit (c : ascii) : piece := (Lit c, One).

Fixpoint startsWith (cs s : list ascii) : bool :=
  match cs, s with
  | [], _ => true
  | c :: cs', x :: s' => Ascii.eqb c x && startsWith cs' s'
  | _ :: _, [] => false
  end.

(** The pieces match at some position of [s]. *)
Fixpoint matchesSomewhere (ps : list piece) (s : list ascii) : bool :=
  match matchHere ps s with
  | Some _ => true
  | None =>
      match s with
      | [] => false
      | _ :: s' => matchesSomewhere ps s'
      end
  end.

#[export] Instance engine : RegExpEngine := {
  RegExp := list piece;
  RegExp_new := compile;
  String_match := matchGlobal
}.

End RefEngine.

(** ** index.js *)

Module Agent.
Import Knowledge.

Definition QUOTE : string := String (ascii_of_nat 34) EmptyString.

Definition SYSTEM_PROMPT_TEMPLATE (contextChunks : list ScoredChunk) : string :=
  "You are a helpful support agent for TechCorp API.
You answer developer questions based strictly on the provided documentation.

DOCUMENTATION CONTEXT:
" ++ Js.join (LF ++ LF ++ "---" ++ LF ++ LF) (map sc_content contextChunks) ++ "

INSTRUCTIONS:
- Answer only questions related to TechCorp API
- If the answer is not in the documentation, say so clearly — do not invent information
- Keep answers concise and developer-friendly
- Include relevant code examples when helpful
- Cite the documentation section you used (e.g., " ++ QUOTE ++
  "According to the Authentication section..." ++ QUOTE ++ ")
- If asked in French, respond in French; otherwise respond in English".

(** [recordTrace(params)]: the call is recorded; it is not awaited and
    throws nothing into [ask]. *)
Definition recordTrace (params : TraceParams) : M unit :=
  fun w =>
    (Normal tt,
     {| clock := clock w; calls := calls w; slept := slept w;
        chunksCache := chunksCache w; traces := (traces w ++ [params])%list;
        uuids := uuids w |}).

Definition ask {engine : RegExpEngine} (env : Env)
    (question : string) (sessionId : option string) : M AgentResult :=
  (traceId <- uuidv4 env ;;
   startTime <- Date_now ;;
   relevantChunks <- findRelevantChunks env question 3 ;;
   let chunkIds := map sc_id relevantChunks in
   let systemPrompt := SYSTEM_PROMPT_TEMPLATE relevantChunks in
   claudeResult <-
     try_catch (Claude.callClaude env systemPrompt question traceId)
       (fun error => throw error) ;;
   now <- Date_now ;;
   let totalLatency := now - startTime in
   recordTrace
     {| tp_traceId := traceId;
        tp_sessionId := sessionId;
        tp_input := question;
        tp_output := text claudeResult;
        tp_model := model claudeResult;
        tp_tokens := tokens claudeResult;
        tp_cost_usd := cost_usd claudeResult;
        tp_latency_ms := totalLatency;
        tp_knowledgeChunks := chunkIds;
        tp_systemPrompt := systemPrompt |} ;;;
   ret {| answer := text claudeResult;
          trace_id := traceId;
          ar_latency_ms := totalLatency;
          tokens_used :=
            (input (tokens claudeResult) + output (tokens claudeResult))%float;
          ar_cost_usd := cost_usd claudeResult;
          knowledge_chunks := chunkIds |})%js.

End Agent.

(** ** knowledge.js with object identity

    The same functions over a store of objects: a chunk is an object at a
    location, with mutable fields and possibly a [score]; an array is an
    object holding locations; [chunksCache] refers to an array.  An array
    that is local to a function until it is returned is allocated with its
    final elements. *)

Module Objects.

Abbreviation loc := positive.

Record ChunkObject := {
  o_id : string;
  o_title : string;
  o_content : string;
  o_source : string;
  o_score : option nat
}.

Inductive object :=
| ChunkObj (fields : ChunkObject)
| ArrayObj (elems : list loc).

Record Store := {
  heap : gmap loc object;
  chunksCache : option loc
}.

(** A new object, at a location not in use. *)
Definition alloc (o : object) : Eff Store loc :=
  fun st =>
    let l := fresh (dom (heap st)) in
    (Normal l, {| heap := <[l := o]> (heap st); chunksCache := chunksCache st |}).

Definition readChunk (l : loc) : Eff Store ChunkObject :=
  fun st =>
    match heap st !! l with
    | Some (ChunkObj fields) => (Normal fields, st)
    | _ => (Throw TypeError, st)
    end.

Definition readArray (l : loc) : Eff Store (list loc) :=
  fun st =>
    match heap st !! l with
    | Some (ArrayObj elems) => (Normal elems, st)
    | _ => (Throw TypeError, st)
    end.

Definition set_chunksCache (c : option loc) : Eff Store unit :=
  fun st => (Normal tt, {| heap := heap st; chunksCache := c |}).

Definition get_chunksCache : Eff Store (option loc) :=
  fun st => (Normal (chunksCache st), st).

(** The object literal [{ id, title, content, source }]. *)
Definition ofChunk (c : Chunk) : ChunkObject :=
  {| o_id := id c; o_title := title c; o_content := content c;
     o_source := source c; o_score := None |}.

Definition toChunk (o : ChunkObject) : Chunk :=
  {| id := o_id o; title := o_title o; content := o_content o;
     source := o_source o |}.

Fixpoint allocAll (objs : list ChunkObject) : Eff Store (list loc) :=
  match objs with
  | [] => ret []
  | o :: rest =>
      (l <- alloc (ChunkObj o) ;;
       ls <- allocAll rest ;;
       ret (l :: ls))%js
  end.

Definition parseMarkdownChunks (content filename : string) : Eff Store loc :=
  (ls <- allocAll (map ofChunk (Knowledge.parseMarkdownChunks content filename)) ;;
   alloc (ArrayObj ls))%js.

Fixpoint readFiles (files : list DirEntry) (allChunks : list loc)
    : Eff Store (list loc) :=
  match files with
  | [] => ret allChunks
  | f :: rest =>
      match contents f with
      | None => throw (FsError (file f))
      | Some content =>
          (chunks <- parseMarkdownChunks content (Knowledge.basename_md (file f)) ;;
           elems <- readArray chunks ;;
           readFiles rest (allChunks ++ elems)%list)%js
      end
  end.

Definition loadKnowledge (env : Env) : Eff Store loc :=
  (cache <- get_chunksCache ;;
   match cache with
   | Some chunks => ret chunks
   | None =>
       match knowledgeDir env with
       | None =>
           empty <- alloc (ArrayObj []) ;;
           set_chunksCache (Some empty) ;;; ret empty
       | Some entries =>
           let files := List.filter (fun f => Js.endsWith (file f) ".md") entries in
           ls <- readFiles files [] ;;
           allChunks <- alloc (ArrayObj ls) ;;
           set_chunksCache (Some allChunks) ;;; ret allChunks
       end
   end)%js.

Definition resetCache : Eff Store unit := set_chunksCache None.

(** [chunks.map((chunk) => ({ ...chunk, score: scoreChunk(query, chunk) }))]:
    one new object per element. *)
Fixpoint mapScored {engine : RegExpEngine} (query : string) (elems : list loc)
    : Eff Store (list loc) :=
  match elems with
  | [] => ret []
  | l :: rest =>
      (chunk <- readChunk l ;;
       s <- lift (Knowledge.scoreChunk query (toChunk chunk)) ;;
       copy <- alloc (ChunkObj {| o_id := o_id chunk; o_title := o_title chunk;
                                  o_content := o_content chunk;
                                  o_source := o_source chunk;
                                  o_score := Some s |}) ;;
       copies <- mapScored query rest ;;
       ret (copy :: copies))%js
  end.

(** [chunk.score > 0]; an absent score is [undefined], and fails the test. *)
Definition scorePositive (o : ChunkObject) : bool :=
  match o_score o with
  | Some s => (0 <? s)%nat
  | None => false
  end.

Fixpoint filterPositive (elems : list loc) : Eff Store (list loc) :=
  match elems with
  | [] => ret []
  | l :: rest =>
      (chunk <- readChunk l ;;
       kept <- filterPositive rest ;;
       ret (if scorePositive chunk then l :: kept else kept))%js
  end.

(** [b.score - a.score] read through the heap; with an absent score the
    difference is [NaN], which [sort] takes for 0. *)
Definition compareLocs (h : gmap loc object) (a b : loc) : Z :=
  match h !! a, h !! b with
  | Some (ChunkObj oa), Some (ChunkObj ob) =>
      match o_score oa, o_score ob with
      | Some sa, Some sb => Z.of_nat sb - Z.of_nat sa
      | _, _ => 0
      end
  | _, _ => 0
  end.

(** [arr.sort(compareFn)] sorts the array in place and returns it. *)
Definition sortInPlace (arr : loc) : Eff Store loc :=
  fun st =>
    match heap st !! arr with
    | Some (ArrayObj elems) =>
        (Normal arr,
         {| heap := <[arr := ArrayObj (Knowledge.sort (compareLocs (heap st)) elems)]>
                      (heap st);
            chunksCache := chunksCache st |})
    | _ => (Throw TypeError, st)
    end.

Definition findRelevantChunks {engine : RegExpEngine} (env : Env)
    (query : string) (topK : Z) : Eff Store loc :=
  (chunks <- loadKnowledge env ;;
   elems <- readArray chunks ;;
   copies <- mapScored query elems ;;
   mapped <- alloc (ArrayObj copies) ;;
   scored <- readArray mapped ;;
   kept <- filterPositive scored ;;
   filtered <- alloc (ArrayObj kept) ;;
   sorted <- sortInPlace filtered ;;
   ranked <- readArray sorted ;;
   alloc (ArrayObj (Knowledge.slice0 topK ranked)))%js.

(** The chunk objects at the locations [ls], when each holds one. *)
Fixpoint derefChunks (h : gmap loc object) (ls : list loc)
    : option (list ChunkObject) :=
  match ls with
  | [] => Some []
  | l :: rest =>
      match h !! l, derefChunks h rest with
      | Some (ChunkObj fields), Some objs => Some (fields :: objs)
      | _, _ => None
      end
  end.

(** The chunk objects the cache refers to, when it is loaded. *)
Definition cachedChunks (st : Store) : option (list ChunkObject) :=
  match chunksCache st with
  | Some arr =>
      match heap st !! arr with
      | Some (ArrayObj elems) => derefChunks (heap st) elems
      | _ => None
      end
  | None => None
  end.

(** A run of queries, one after the other, whatever each returns or throws. *)
Fixpoint queries {engine : RegExpEngine} (env : Env) (qs : list (string * Z))
    (st : Store) : Store :=
  match qs with
  | [] => st
  | (query, topK) :: rest =>
      queries env rest (snd (findRelevantChunks env query topK st))
  end.

Definition initial : Store := {| heap := ∅; chunksCache := None |}.

(** The object a scored chunk is. *)
Definition scoredObject (sc : ScoredChunk) : ChunkObject :=
  {| o_id := sc_id sc; o_title := sc_title sc; o_content := sc_content sc;
     o_source := sc_source sc; o_score := Some (score sc) |}.

(** [st'] keeps every object of [st] as it is, and the cache reference. *)
Definition grows (st st' : Store) : Prop :=
  heap st ⊆ heap st' /\ chunksCache st' = chunksCache st.

(** The chunks the knowledge directory holds, as [loadKnowledge] parses
    them when nothing is cached. *)
Definition parsedCorpus (env : Env) : Completion (list Chunk) :=
  match knowledgeDir env with
  | None => Normal []
  | Some entries =>
      Knowledge.readFiles
        (List.filter (fun f => Js.endsWith (file f) ".md") entries) []
  end.

End Objects.

(** The store [st] holds the cache the world [w] holds: the same chunks,
    as objects without a score, or no cache. *)
Definition corresponds (w : World) (st : Objects.Store) : Prop :=
  match chunksCache w with
  | Some chunks => Objects.cachedChunks st = Some (map Objects.ofChunk chunks)
  | None => Objects.chunksCache st = None
  end.

(** ** Fixtures

    The values the closed examples run on.  The gateway ones are those of
    the repository's unit tests: the success response, the rate-limit error
    and the authentication error. *)

Module Fixtures.

Definition CLAUDE_SUCCESS_RESPONSE : Response :=
  {| content0_text := "To authenticate, use Bearer token in the Authorization header.";
     res_model := "claude-sonnet-4-5-20250929";
     input_tokens := 250%float;
     output_tokens := 75%float |}.

Definition millionTokens : Response :=
  {| content0_text := "ok";
     res_model := "claude-sonnet-4-5-20250929";
     input_tokens := 1000000%float;
     output_tokens := 1000000%float |}.

Definition rateLimitError : ApiError :=
  {| message := "Rate limited"; status := Some 429 |}.

Definition apiError : ApiError :=
  {| message := "Invalid API key"; status := Some 401 |}.

(** A backend that plays a script, one attempt per invocation, and then
    repeats [otherwise]: [mockRejectedValueOnce]/[mockResolvedValueOnce]
    chained before [mockResolvedValue]. *)
Definition scripted (script : list Attempt) (otherwise : Attempt)
    : nat -> Request -> Attempt :=
  fun n _ => nth n script otherwise.

Definition succeeds (ms : Z) (r : Response) : Attempt :=
  {| elapsed := ms; outcome := Resolved r |}.

Definition fails (ms : Z) (e : ApiError) : Attempt :=
  {| elapsed := ms; outcome := Rejected e |}.

Definition guide : string :=
"# API Guide
Welcome.

## Authentication
Use Bearer tokens.

## Rate Limits
Requests are limited per minute. See authentication for keys.
".

Definition envWith (b : nat -> Request -> Attempt) : Env :=
  {| MODEL := "claude-sonnet-4-5-20250929";
     backend := b;
     knowledgeDir := Some [ {| file := "guide.md"; contents := Some guide |} ];
     uuid := fun n => "trace-" ++ String (ascii_of_nat (48 + n)) EmptyString |}.

Definition failTwiceThenSucceed : Env :=
  envWith (scripted [fails 40 rateLimitError; fails 60 rateLimitError]
             (succeeds 200 CLAUDE_SUCCESS_RESPONSE)).

Definition failOnceThenSucceed : Env :=
  envWith (scripted [fails 100 rateLimitError]
             (succeeds 200 CLAUDE_SUCCESS_RESPONSE)).

Definition unauthorized : Env :=
  envWith (scripted [] (fails 30 apiError)).

Definition timesOutOnce : Env :=
  envWith (scripted [fails 30000 APIConnectionTimeoutError]
             (succeeds 200 CLAUDE_SUCCESS_RESPONSE)).

Definition costly : Env :=
  envWith (scripted [] (succeeds 200 millionTokens)).

Definition start : World :=
  {| clock := 0; calls := 0; slept := []; chunksCache := None;
     traces := []; uuids := 0 |}.

Definition noChunk : Chunk :=
  {| id := ""; title := ""; content := ""; source := "" |}.

(** The chunks of [guide], and the world once they are cached. *)
Definition guideChunks : list Chunk :=
  Eval vm_compute in Knowledge.parseMarkdownChunks guide "guide".

Definition loaded : World :=
  {| clock := 0; calls := 0; slept := []; chunksCache := Some guideChunks;
     traces := []; uuids := 0 |}.

End Fixtures.

(** ** What the further statements are written with *)

Module Retry.
Import Claude.

(** An error the loop of [callClaude] retries: it carries a status, and the
    status is 429, 529, or 500 and above. *)
Definition retryable (error : ApiError) : Prop :=
  exists s, status error = Some s /\ (s = 429 \/ s = 529 \/ 500 <= s).

(** The waits of a call that has made [k] retries. *)
Definition waits (k : nat) : list Z := firstn k [1000; 2000].

(** The message of the [AgentError] of [callClaude]. *)
Definition FAILED : string := "Claude API call failed after retries".

End Retry.

Module Corpus.
Import Js Knowledge.

(** The files [loadKnowledge] reads: the entries whose name ends with [.md]. *)
Definition markdownFiles (entries : list DirEntry) : list DirEntry :=
  List.filter (fun f => endsWith (file f) ".md") entries.

Definition unreadable (f : DirEntry) : bool :=
  match contents f with
  | None => true
  | Some _ => false
  end.

(** The chunks of one file, when it can be read. *)
Definition chunksOf (f : DirEntry) : list Chunk :=
  match contents f with
  | Some content => parseMarkdownChunks content (basename_md (file f))
  | None => []
  end.

(** The characters of a slug: [a-z], [0-9] and [-]. *)
Definition isDash (c : ascii) : bool := (code c =? 45)%nat.
Definition slugChar (c : ascii) : bool := isLowerAlnum c || isDash c.

(** No [-] follows a [-]; [afterDash] says that the previous character was
    one. *)
Fixpoint noDoubleDash (afterDash : bool) (s : string) : bool :=
  match s with
  | EmptyString => true
  | String c s' =>
      if isDash c then negb afterDash && noDoubleDash true s'
      else noDoubleDash false s'
  end.

(** A string of white space only. *)
Definition blank (s : string) : bool := forallb isWhiteSpace (chars s).

(** What every chunk of a file satisfies: it names the file, its content
    is not empty and carries no white space around it, and its id is the
    file name, [#], and a slug. *)
Definition wellFormed (filename : string) (c : Chunk) : Prop :=
  source c = filename /\
  content c <> "" /\
  trim (content c) = content c /\
  exists slug,
    id c = filename ++ "#" ++ slug /\
    forallb slugChar (chars slug) = true /\
    noDoubleDash false slug = true.

(** A character of a query term: no white space, no upper-case letter. *)
Definition termChar (c : ascii) : bool := negb (isWhiteSpace c) && negb (isUpper c).

(** A chunk with its title and content in lower case. *)
Definition lowered (chunk : Chunk) : Chunk :=
  {| id := id chunk; title := toLowerCase (title chunk);
     content := toLowerCase (content chunk); source := source chunk |}.

End Corpus.

(** ** middleware.js

    The middlewares of the route [POST /api/ask], as functions from the
    request to what they do with it, and the options [createCors] builds.
    Logging is left out, as everywhere. *)

Module Middleware.
Import Js.

(** A value of a parsed JSON body, or [undefined] for a property that is
    absent.  [JObject] stands for an object or an array. *)
Inductive JsValue :=
| JUndefined
| JNull
| JBool (b : bool)
| JNumber (x : float)
| JString (s : string)
| JObject.

(** The values [!v] is false for. *)
Definition truthyValue (v : JsValue) : bool :=
  match v with
  | JUndefined => false
  | JNull => false
  | JBool b => b
  | JNumber x => negb (PrimFloat.eqb x 0) && negb (PrimFloat.is_nan x)
  | JString s => truthy s
  | JObject => true
  end.

Definition typeof (v : JsValue) : string :=
  match v with
  | JUndefined => "undefined"
  | JNull => "object"
  | JBool _ => "boolean"
  | JNumber _ => "number"
  | JString _ => "string"
  | JObject => "object"
  end.

(** The string a value of type string is. *)
Definition asString (v : JsValue) : string :=
  match v with
  | JString s => s
  | _ => EmptyString
  end.

(** What the server reads of [process.env]; [None] is a variable that is
    not set. *)
Record ProcessEnv := {
  CORS_ORIGINS : option string;
  API_KEY_REQUIRED : option string;
  API_KEY : option string
}.

(** What the route reads of [req.body]: [question], and [session_id],
    which is a string when it is present. *)
Record Body := {
  question : JsValue;
  session_id : option string
}.

(** What the route reads of a request: the header [x-api-key] and the
    parsed body. *)
Record HttpRequest := {
  x_api_key : option string;
  body : option Body
}.

(** The argument of [res.json]: [{ error: { code, message } }], or the
    answer of [POST /api/ask]. *)
Inductive Json :=
| ErrorJson (code message : string)
| AnswerJson (answer trace_id : string) (latency_ms : Z) (tokens_used : float).

(** [res.status(http_status).json(json)] *)
Record HttpResponse := {
  http_status : Z;
  json : Json
}.

(** A middleware calls [next()], with the request as it leaves it, or
    sends a response. *)
Inductive Step :=
| Next (req : HttpRequest)
| Sent (res : HttpResponse).

(** [a || b] on a string that may be undefined. *)
Definition orDefault (a : option string) (b : string) : string :=
  match a with
  | Some s => if truthy s then s else b
  | None => b
  end.

(** [s.split(',')] *)
Fixpoint splitCommas (cur : string) (s : string) : list string :=
  match s with
  | EmptyString => [cur]
  | String c s' =>
      if (code c =? 44)%nat then cur :: splitCommas EmptyString s'
      else splitCommas (cur ++ String c EmptyString) s'
  end.

Definition split_comma (s : string) : list string := splitCommas EmptyString s.

(** The options [createCors] hands to [cors]. *)
Record CorsOptions := {
  origin : list string;
  methods : list string;
  allowedHeaders : list string;
  credentials : bool
}.

Definition createCors (env : ProcessEnv) : CorsOptions :=
  let origins :=
    List.filter truthy
      (map trim
         (split_comma (orDefault (CORS_ORIGINS env) "http://localhost:3000"))) in
  {| origin := origins;
     methods := ["GET"; "POST"];
     allowedHeaders := ["Content-Type"; "Authorization"; "X-API-Key"];
     credentials := true |}.

(** [a !== b] on strings that may be undefined. *)
Definition strictNe (a b : option string) : bool :=
  match a, b with
  | Some x, Some y => negb (String.eqb x y)
  | None, None => false
  | _, _ => true
  end.

Definition truthyOption (a : option string) : bool :=
  match a with
  | Some s => truthy s
  | None => false
  end.

Definition apiKeyMiddleware (env : ProcessEnv) (req : HttpRequest) : Step :=
  if strictNe (API_KEY_REQUIRED env) (Some "true") then Next req
  else
    let provided := x_api_key req in
    let expected := API_KEY env in
    if negb (truthyOption provided) || strictNe provided expected
    then Sent {| http_status := 401;
                 json := ErrorJson "UNAUTHORIZED"
                           "Missing or invalid X-API-Key header" |}
    else Next req.

Definition INVALID_REQUEST (message : string) : Step :=
  Sent {| http_status := 400; json := ErrorJson "INVALID_REQUEST" message |}.

Definition validateAskInput (req : HttpRequest) : Step :=
  (* [const { question } = req.body || {}] *)
  let b :=
    match body req with
    | Some b => b
    | None => {| question := JUndefined; session_id := None |}
    end in
  let question := question b in
  if negb (truthyValue question) ||
     negb (String.eqb (typeof question) "string") ||
     (String.length (trim (asString question)) =? 0)%nat
  then INVALID_REQUEST "question is required and must be a non-empty string"
  else if (2000 <? String.length (asString question))%nat
  then INVALID_REQUEST "question must be 2000 characters or fewer"
  else
    (* [req.body.question = question.trim()] *)
    Next {| x_api_key := x_api_key req;
            body := Some {| question := JString (trim (asString question));
                            session_id := session_id b |} |}.

End Middleware.

(** ** routes.js

    The route [POST /api/ask] and the counters it keeps. *)

Module Routes.
Import Middleware.

(** The counters of [metrics]. *)
Record Metrics := {
  requests_total : Z;
  errors_total : Z;
  total_latency_ms : Z
}.

(** The state of the server: its counters, and the world of the agent. *)
Record Server := {
  metrics : Metrics;
  world : World
}.

Definition resetMetrics (s : Server) : Server :=
  {| metrics := {| requests_total := 0; errors_total := 0; total_latency_ms := 0 |};
     world := world s |}.

Definition AGENT_UNAVAILABLE : HttpResponse :=
  {| http_status := 503;
     json := ErrorJson "AGENT_UNAVAILABLE"
               "The AI agent is temporarily unavailable. Please try again." |}.

Definition INTERNAL_ERROR : HttpResponse :=
  {| http_status := 500;
     json := ErrorJson "INTERNAL_ERROR" "An unexpected error occurred" |}.

(** The handler of [POST /api/ask].  It reads a body whose [question] is a
    string, which [validateAskInput] has seen to; of any other request the
    model says nothing ([None]). *)
Definition askHandler {engine : RegExpEngine} (env : Env) (req : HttpRequest)
    (s : Server) : option (HttpResponse * Server) :=
  match body req with
  | Some {| question := JString question; session_id := session_id |} =>
      let counted :=
        {| requests_total := requests_total (metrics s) + 1;
           errors_total := errors_total (metrics s);
           total_latency_ms := total_latency_ms (metrics s) |} in
      match Agent.ask env question session_id (world s) with
      | (Normal result, w) =>
          Some ({| http_status := 200;
                   json := AnswerJson (answer result) (trace_id result)
                             (ar_latency_ms result) (tokens_used result) |},
                {| metrics :=
                     {| requests_total := requests_total counted;
                        errors_total := errors_total counted;
                        total_latency_ms :=
                          total_latency_ms counted + ar_latency_ms result |};
                   world := w |})
      | (Throw error, w) =>
          let failed :=
            {| requests_total := requests_total counted;
               errors_total := errors_total counted + 1;
               total_latency_ms := total_latency_ms counted |} in
          Some (match error with
                | AgentErr _ => AGENT_UNAVAILABLE
                | _ => INTERNAL_ERROR
                end,
                {| metrics := failed; world := w |})
      end
  | _ => None
  end.

(** [router.post('/api/ask', apiKeyMiddleware, validateAskInput, handler)] *)
Definition postAsk {engine : RegExpEngine} (penv : ProcessEnv) (env : Env)
    (req : HttpRequest) (s : Server) : option (HttpResponse * Server) :=
  match apiKeyMiddleware penv req with
  | Sent res => Some (res, s)
  | Next req1 =>
      match validateAskInput req1 with
      | Sent res => Some (res, s)
      | Next req2 => askHandler env req2 s
      end
  end.

(** Requests served one after the other: the responses, oldest first, and
    the server they leave. *)
Fixpoint serve {engine : RegExpEngine} (penv : ProcessEnv) (env : Env)
    (reqs : list HttpRequest) (s : Server) : option (list HttpResponse * Server) :=
  match reqs with
  | [] => Some ([], s)
  | req :: rest =>
      match postAsk penv env req s with
      | Some (res, s1) =>
          match serve penv env rest s1 with
          | Some (ress, s2) => Some (res :: ress, s2)
          | None => None
          end
      | None => None
      end
  end.

(** A response of the handler, and one of its failures. *)
Definition handled (res : HttpResponse) : bool :=
  (http_status res =? 200) || (http_status res =? 500) || (http_status res =? 503).

Definition failed (res : HttpResponse) : bool :=
  (http_status res =? 500) || (http_status res =? 503).

Definition countIf {A} (p : A -> bool) (l : list A) : Z :=
  Z.of_nat (List.length (List.filter p l)).

End Routes.

(** ** Further fixtures *)

Module Scenarios.
Import Middleware Routes.

Definition overloadedError : ApiError :=
  {| message := "Overloaded"; status := Some 529 |}.

(** A backend that is overloaded at every attempt. *)
Definition overloaded : Env :=
  Fixtures.envWith (Fixtures.scripted [] (Fixtures.fails 10 overloadedError)).

(** A backend that is rate-limited at the first attempt, times out at the
    second, and would succeed at the third. *)
Definition timesOutOnSecond : Env :=
  Fixtures.envWith
    (Fixtures.scripted [Fixtures.fails 40 Fixtures.rateLimitError;
                        Fixtures.fails 30000 APIConnectionTimeoutError]
       (Fixtures.succeeds 200 Fixtures.CLAUDE_SUCCESS_RESPONSE)).

(** A knowledge directory with a file that is not markdown, and cannot be
    read, beside the guide. *)
Definition mixedDirectory : Env :=
  {| MODEL := "claude-sonnet-4-5-20250929";
     backend :=
       Fixtures.scripted [] (Fixtures.succeeds 200 Fixtures.CLAUDE_SUCCESS_RESPONSE);
     knowledgeDir :=
       Some [ {| file := "notes.txt"; contents := None |};
              {| file := "guide.md"; contents := Some Fixtures.guide |} ];
     uuid := fun n => "trace-" ++ String (ascii_of_nat (48 + n)) EmptyString |}.

(** No knowledge directory. *)
Definition noDirectory : Env :=
  {| MODEL := "claude-sonnet-4-5-20250929";
     backend :=
       Fixtures.scripted [] (Fixtures.succeeds 200 Fixtures.CLAUDE_SUCCESS_RESPONSE);
     knowledgeDir := None;
     uuid := fun n => "trace-" ++ String (ascii_of_nat (48 + n)) EmptyString |}.

(** The environment of the server tests: nothing set. *)
Definition unset : ProcessEnv :=
  {| CORS_ORIGINS := None; API_KEY_REQUIRED := None; API_KEY := None |}.

Definition asks (q : string) : HttpRequest :=
  {| x_api_key := None;
     body := Some {| question := JString q; session_id := None |} |}.

Definition idle : Server :=
  {| metrics := {| requests_total := 0; errors_total := 0; total_latency_ms := 0 |};
     world := Fixtures.start |}.

(** The chunk of the section [Authentication] of the guide. *)
Definition authenticationChunk : Chunk :=
  nth 1 Fixtures.guideChunks Fixtures.noChunk.

Definition blankDocument : string := "
  
".

End Scenarios.

(** * Properties *)

(** ** The model gateway *)

Module ClaudeFacts.
Import Claude.

Lemma retryable_status_truthy (e : ApiError) (s : Z) :
  status e = Some s -> (s = 429 \/ s = 529 \/ 500 <= s) ->
  status_truthy e && isRetryableError e = true.
Proof.
  intros Hs Hr. unfold status_truthy, isRetryableError. rewrite Hs. simpl.
  destruct Hr as [-> | [-> | Hge]]; try reflexivity.
  assert ((s =? 0) = false) as -> by lia.
  assert ((500 <=? s) = true) as -> by lia.
  simpl. now rewrite !orb_true_r.
Qed.

Lemma other_status_not_retryable (e : ApiError) :
  match status e with
  | Some s => s <> 429 /\ s <> 529 /\ s < 500
  | None => True
  end ->
  status_truthy e && isRetryableError e = false.
Proof.
  unfold status_truthy, isRetryableError.
  destruct (status e) as [s|]; [|reflexivity].
  intros (H1 & H2 & H3). simpl.
  assert ((s =? 429) = false) as -> by lia.
  assert ((s =? 529) = false) as -> by lia.
  assert ((500 <=? s) = false) as -> by lia.
  now rewrite andb_false_r.
Qed.

Lemma attemptNumbers_eq : attemptNumbers = [1; 2; 3].
Proof. reflexivity. Qed.

Lemma step_resolved env req st le a rest w response :
  outcome (backend env (calls w) req) = Resolved response ->
  forAttempts env req st le (a :: rest) w =
    (Normal (Returned
       {| text := content0_text response;
          model := res_model response;
          tokens := {| input := input_tokens response;
                       output := output_tokens response |};
          cost_usd := (input_tokens response * input COST_PER_TOKEN +
                       output_tokens response * output COST_PER_TOKEN)%float;
          latency_ms := clock w + elapsed (backend env (calls w) req) - st |}),
     snd (messages_create env req w)).
Proof.
  intros H. cbn [forAttempts]. unfold bind at 1.
  unfold messages_create at 1. cbv zeta. rewrite H. reflexivity.
Qed.

Lemma step_retry env req st le a rest w e :
  outcome (backend env (calls w) req) = Rejected e ->
  status_truthy e && isRetryableError e = true ->
  a <> MAX_RETRIES ->
  forAttempts env req st le (a :: rest) w =
    forAttempts env req st (Some e) rest
      (snd (sleep (backoffDelay a) (snd (messages_create env req w)))).
Proof.
  intros H Hr Ha. cbn [forAttempts]. unfold bind at 1.
  unfold messages_create at 1. cbv zeta. rewrite H, Hr.
  assert ((a =? MAX_RETRIES) = false) as -> by (apply Z.eqb_neq; exact Ha).
  reflexivity.
Qed.

Lemma step_abort env req st le a rest w e :
  outcome (backend env (calls w) req) = Rejected e ->
  status_truthy e && isRetryableError e = false \/ a = MAX_RETRIES ->
  forAttempts env req st le (a :: rest) w =
    (Normal (Exited (Some e)), snd (messages_create env req w)).
Proof.
  intros H Hr. cbn [forAttempts]. unfold bind at 1.
  unfold messages_create at 1. cbv zeta. rewrite H.
  destruct Hr as [-> | ->]; [reflexivity|].
  rewrite Z.eqb_refl, orb_true_r. reflexivity.
Qed.

(** A first attempt that fails with an error that is not retryable ends the
    call: one invocation, no wait, and an [AgentError] around that error. *)
Lemma callClaude_aborts env systemPrompt userMessage traceId w e :
  outcome (backend env (calls w) (requestOf env systemPrompt userMessage)) = Rejected e ->
  status_truthy e && isRetryableError e = false ->
  callClaude env systemPrompt userMessage traceId w =
    (Throw (AgentErr (new_AgentError "Claude API call failed after retries" (Some e))),
     snd (messages_create env (requestOf env systemPrompt userMessage) w)).
Proof.
  intros H Hr. unfold callClaude. rewrite attemptNumbers_eq.
  unfold bind at 1. unfold Date_now at 1. unfold bind at 1.
  rewrite (step_abort _ _ _ _ _ _ _ e H (or_introl Hr)). reflexivity.
Qed.

Lemma forAttempts_spec env req st attempts :
  forall le w res w',
  forAttempts env req st le attempts w = (res, w') ->
  traces w' = traces w /\ chunksCache w' = chunksCache w /\ uuids w' = uuids w /\
  exists (n : nat) (ds : list Z),
    calls w' = (calls w + n)%nat /\
    slept w' = (slept w ++ ds)%list /\
    clock w' = clock w + elapsedFrom env req (calls w) n + sumZ ds /\
    match res with
    | Normal (Returned r) =>
        exists (k : nat) (response : Response),
          n = S k /\ List.length ds = k /\
          outcome (backend env (calls w + k)%nat req) = Resolved response /\
          r = {| text := content0_text response;
                 model := res_model response;
                 tokens := {| input := input_tokens response;
                              output := output_tokens response |};
                 cost_usd := (input_tokens response * input COST_PER_TOKEN +
                              output_tokens response * output COST_PER_TOKEN)%float;
                 latency_ms := clock w' - st |}
    | Normal (Exited le') =>
        (attempts = [] /\ n = O /\ le' = le) \/
        exists (k : nat) (e : ApiError),
          n = S k /\ le' = Some e /\
          outcome (backend env (calls w + k)%nat req) = Rejected e
    | Throw _ => False
    end.
Proof.
  induction attempts as [|a rest IH]; intros le w res w' H.
  - cbn in H. inversion H; subst. repeat split; try reflexivity.
    exists O, []. split; [lia|]. split; [now rewrite app_nil_r|].
    split; [cbn; lia|]. now left.
  - destruct (outcome (backend env (calls w) req)) as [response|e] eqn:Ho.
    + rewrite (step_resolved _ _ _ _ _ _ _ _ Ho) in H. inversion H; subst; clear H.
      cbn [messages_create snd traces chunksCache uuids calls slept clock].
      repeat split; try reflexivity.
      exists 1%nat, []. split; [lia|]. split; [now rewrite app_nil_r|].
      split; [cbn; lia|].
      exists O, response. rewrite Nat.add_0_r. repeat split; assumption.
    + destruct (negb (status_truthy e && isRetryableError e) || (a =? MAX_RETRIES))
        eqn:Hb.
      * assert (status_truthy e && isRetryableError e = false \/ a = MAX_RETRIES) as Hc.
        { apply orb_true_iff in Hb as [Hb|Hb].
          - left. now apply negb_true_iff in Hb.
          - right. now apply Z.eqb_eq in Hb. }
        rewrite (step_abort _ _ _ _ _ _ _ _ Ho Hc) in H. inversion H; subst; clear H.
        cbn [messages_create snd traces chunksCache uuids calls slept clock].
        repeat split; try reflexivity.
        exists 1%nat, []. split; [lia|]. split; [now rewrite app_nil_r|].
        split; [cbn; lia|].
        right. exists O, e. rewrite Nat.add_0_r. repeat split; assumption.
      * apply orb_false_iff in Hb as [Hb1 Hb2].
        apply negb_false_iff in Hb1. apply Z.eqb_neq in Hb2.
        rewrite (step_retry _ _ _ _ _ _ _ _ Ho Hb1 Hb2) in H.
        apply IH in H.
        cbn [messages_create sleep snd traces chunksCache uuids calls slept clock] in H.
        destruct H as (Ht & Hc & Hu & n & ds & Hn & Hs & Hk & Hres).
        repeat split; try assumption.
        exists (S n), (backoffDelay a :: ds).
        split; [lia|]. split; [rewrite Hs, <- app_assoc; reflexivity|].
        split; [cbn [elapsedFrom sumZ fold_right]; fold (sumZ ds); lia|].
        destruct res as [[r|le']|]; [| |exact Hres].
        -- destruct Hres as (k & response & -> & Hl & Hr & ->).
           exists (S k), response. repeat split; [cbn; lia|].
           replace (calls w + S k)%nat with (S (calls w) + k)%nat by lia.
           exact Hr.
        -- destruct Hres as [(-> & -> & ->) | (k & e' & -> & -> & Hr)].
           ++ right. exists O, e. rewrite Nat.add_0_r. repeat split. exact Ho.
           ++ right. exists (S k), e'. repeat split.
              replace (calls w + S k)%nat with (S (calls w) + k)%nat by lia.
              exact Hr.
Qed.

Lemma callClaude_spec env systemPrompt userMessage traceId w res w' :
  callClaude env systemPrompt userMessage traceId w = (res, w') ->
  traces w' = traces w /\ chunksCache w' = chunksCache w /\ uuids w' = uuids w /\
  exists (k : nat) (ds : list Z),
    calls w' = S (calls w + k) /\
    slept w' = (slept w ++ ds)%list /\
    clock w' = clock w +
      elapsedFrom env (requestOf env systemPrompt userMessage) (calls w) (S k) +
      sumZ ds /\
    match res with
    | Normal r =>
        exists response : Response,
          List.length ds = k /\
          outcome (backend env (calls w + k)%nat
                     (requestOf env systemPrompt userMessage)) = Resolved response /\
          r = {| text := content0_text response;
                 model := res_model response;
                 tokens := {| input := input_tokens response;
                              output := output_tokens response |};
                 cost_usd := (input_tokens response * input COST_PER_TOKEN +
                              output_tokens response * output COST_PER_TOKEN)%float;
                 latency_ms := clock w' - clock w |}
    | Throw ex =>
        exists e : ApiError,
          outcome (backend env (calls w + k)%nat
                     (requestOf env systemPrompt userMessage)) = Rejected e /\
          ex = AgentErr (new_AgentError "Claude API call failed after retries" (Some e))
    end.
Proof.
  unfold callClaude. rewrite attemptNumbers_eq.
  unfold bind at 1. unfold Date_now at 1. unfold bind at 1.
  destruct (forAttempts env (requestOf env systemPrompt userMessage) (clock w) None
              [1; 2; 3] w) as [loopEnd w1] eqn:Hloop.
  apply forAttempts_spec in Hloop.
  destruct Hloop as (Ht & Hc & Hu & n & ds & Hn & Hs & Hk & Hres).
  destruct loopEnd as [[r|le']|ex]; [| |destruct Hres].
  - destruct Hres as (k & response & -> & Hl & Hr & ->).
    intros H. cbv [ret] in H. injection H as <- <-. repeat split; try assumption.
    exists k, ds. split; [lia|]. split; [assumption|]. split; [assumption|].
    exists response. repeat split; assumption.
  - destruct Hres as [(Hnil & _) | (k & e & -> & -> & Hr)]; [discriminate Hnil|].
    intros H. cbv [throw] in H. injection H as <- <-. repeat split; try assumption.
    exists k, ds. split; [lia|]. split; [assumption|]. split; [assumption|].
    exists e. split; [assumption|reflexivity].
Qed.

(** C1.  A backend that fails with a retryable status (429, 529, or 500 and
    above) on the first two attempts and succeeds on the third: [callClaude]
    returns the result of the third response, the backend has been invoked
    exactly 3 times, and the waits between the attempts are
    [min(1000 * 2^(attempt-1), 10000)] ms: 1000 after attempt 1, 2000 after
    attempt 2. *)
Theorem callClaude_retries_twice_then_returns
    env systemPrompt userMessage traceId w e1 e2 s1 s2 response :
  let request := requestOf env systemPrompt userMessage in
  outcome (backend env (calls w) request) = Rejected e1 ->
  outcome (backend env (S (calls w)) request) = Rejected e2 ->
  outcome (backend env (S (S (calls w))) request) = Resolved response ->
  status e1 = Some s1 -> (s1 = 429 \/ s1 = 529 \/ 500 <= s1) ->
  status e2 = Some s2 -> (s2 = 429 \/ s2 = 529 \/ 500 <= s2) ->
  exists result w',
    callClaude env systemPrompt userMessage traceId w = (Normal result, w') /\
    text result = content0_text response /\
    model result = res_model response /\
    tokens result = {| input := input_tokens response;
                       output := output_tokens response |} /\
    calls w' = (calls w + 3)%nat /\
    slept w' = (slept w ++ [backoffDelay 1; backoffDelay 2])%list /\
    backoffDelay 1 = 1000 /\ backoffDelay 2 = 2000 /\
    forall attempt, backoffDelay attempt = Z.min (1000 * 2 ^ (attempt - 1)) 10000.
Proof.
  intros request H1 H2 H3 Hs1 Hr1 Hs2 Hr2.
  pose proof (retryable_status_truthy _ _ Hs1 Hr1) as Hb1.
  pose proof (retryable_status_truthy _ _ Hs2 Hr2) as Hb2.
  unfold callClaude. rewrite attemptNumbers_eq.
  unfold bind at 1. unfold Date_now at 1. unfold bind at 1.
  fold request.
  rewrite (step_retry _ _ _ _ _ _ _ e1 H1 Hb1) by (unfold MAX_RETRIES; lia).
  rewrite (step_retry _ _ _ _ _ _ _ e2) by
    (first [exact H2 | exact Hb2 | unfold MAX_RETRIES; lia]).
  rewrite (step_resolved _ _ _ _ _ _ _ response) by exact H3.
  eexists _, _. split; [reflexivity|].
  cbn [text model tokens calls slept snd messages_create sleep].
  repeat split; try reflexivity.
  - lia.
  - rewrite <- !app_assoc. reflexivity.
Qed.

Lemma callClaude_retries_twice_then_returns_witness :
  exists result w',
    callClaude Fixtures.failTwiceThenSucceed "system" "user" "trace-retry"
      Fixtures.start = (Normal result, w') /\
    text result = content0_text Fixtures.CLAUDE_SUCCESS_RESPONSE /\
    model result = res_model Fixtures.CLAUDE_SUCCESS_RESPONSE /\
    tokens result = {| input := 250; output := 75 |} /\
    calls w' = 3%nat /\
    slept w' = [backoffDelay 1; backoffDelay 2] /\
    backoffDelay 1 = 1000 /\ backoffDelay 2 = 2000 /\
    forall attempt, backoffDelay attempt = Z.min (1000 * 2 ^ (attempt - 1)) 10000.
Proof.
  apply (callClaude_retries_twice_then_returns Fixtures.failTwiceThenSucceed
           "system" "user" "trace-retry" Fixtures.start
           Fixtures.rateLimitError Fixtures.rateLimitError 429 429
           Fixtures.CLAUDE_SUCCESS_RESPONSE);
    first [reflexivity | left; reflexivity].
Defined.

(** C2.  A backend whose first attempt fails with a status that is not
    retryable (not 429, not 529, below 500; 401 for one): [callClaude] throws
    after that single invocation, without waiting and without using the
    attempts left.  What it throws is an [AgentError] whose cause is the
    failing error and whose [statusCode] is that error's status ([null] for
    the falsy status 0). *)
Theorem callClaude_fails_fast_on_client_error
    env systemPrompt userMessage traceId w e s :
  outcome (backend env (calls w) (requestOf env systemPrompt userMessage)) = Rejected e ->
  status e = Some s -> s <> 429 -> s <> 529 -> s < 500 ->
  exists err w',
    callClaude env systemPrompt userMessage traceId w = (Throw (AgentErr err), w') /\
    calls w' = S (calls w) /\
    slept w' = slept w /\
    ae_name err = "AgentError" /\
    cause err = Some e /\
    statusCode err = (if s =? 0 then StatusNull else StatusNumber s).
Proof.
  intros Ho Hs H1 H2 H3.
  assert (status_truthy e && isRetryableError e = false) as Hb.
  { apply other_status_not_retryable. rewrite Hs. auto. }
  rewrite (callClaude_aborts _ _ _ _ _ _ Ho Hb).
  eexists _, _. split; [reflexivity|].
  cbn [snd messages_create calls slept new_AgentError ae_name cause statusCode].
  rewrite Hs. repeat split; reflexivity.
Qed.

Lemma callClaude_fails_fast_on_client_error_witness :
  exists err w',
    callClaude Fixtures.unauthorized "system" "user" "trace-err" Fixtures.start =
      (Throw (AgentErr err), w') /\
    calls w' = 1%nat /\
    slept w' = [] /\
    ae_name err = "AgentError" /\
    cause err = Some Fixtures.apiError /\
    statusCode err = StatusNumber 401.
Proof.
  apply (callClaude_fails_fast_on_client_error Fixtures.unauthorized
           "system" "user" "trace-err" Fixtures.start Fixtures.apiError 401);
    first [reflexivity | lia].
Defined.

(** C3, as the claim states it, fails: the first attempt times out, a second
    one would succeed, and [callClaude] classifies the timeout as not
    retryable and throws after that one invocation, without any wait. *)
Lemma timeout_is_not_retried :
  status_truthy APIConnectionTimeoutError &&
    isRetryableError APIConnectionTimeoutError = false /\
  outcome (backend Fixtures.timesOutOnce 1
             (requestOf Fixtures.timesOutOnce "system" "user")) =
    Resolved Fixtures.CLAUDE_SUCCESS_RESPONSE /\
  callClaude Fixtures.timesOutOnce "system" "user" "trace" Fixtures.start =
    (Throw (AgentErr
       {| ae_name := "AgentError";
          ae_message := "Claude API call failed after retries";
          cause := Some APIConnectionTimeoutError;
          statusCode := StatusNull |}),
     {| clock := 30000; calls := 1; slept := []; chunksCache := None;
        traces := []; uuids := 0 |}).
Proof. repeat split; reflexivity. Qed.

(** C3, amended.  An attempt of [callClaude], the first or one reached
    after retryable failures, that fails with an error that carries no
    status, as the SDK's timeout error does, is classified as not retryable:
    [callClaude] stops at that invocation, also while attempts remain,
    without a wait after it, and throws an [AgentError] whose cause is that
    error and whose [statusCode] is [null].  Here [k] is the number of
    attempts before it, each rejected with a retryable error. *)
Theorem callClaude_does_not_retry_without_status
    env systemPrompt userMessage traceId w (k : nat) e :
  let request := requestOf env systemPrompt userMessage in
  (k <= 2)%nat ->
  (forall i, (i < k)%nat ->
     exists e', outcome (backend env (calls w + i) request) = Rejected e' /\
                Retry.retryable e') ->
  outcome (backend env (calls w + k) request) = Rejected e ->
  status e = None ->
  status_truthy e && isRetryableError e = false /\
  exists err w',
    callClaude env systemPrompt userMessage traceId w = (Throw (AgentErr err), w') /\
    calls w' = S (calls w + k) /\
    slept w' = (slept w ++ Retry.waits k)%list /\
    cause err = Some e /\
    statusCode err = StatusNull.
Proof.
  intros request Hk Hfirst Ho Hs.
  assert (status_truthy e && isRetryableError e = false) as Hb.
  { apply other_status_not_retryable. now rewrite Hs. }
  split; [exact Hb|].
  assert (forall a rest le v,
            outcome (backend env (calls v) request) = Rejected e ->
            forAttempts env request (clock w) le (a :: rest) v =
              (Normal (Exited (Some e)), snd (messages_create env request v)))
    as Hstop.
  { intros a rest le v Hv. exact (step_abort _ _ _ _ _ _ _ _ Hv (or_introl Hb)). }
  assert (forall a rest le v,
            a <> MAX_RETRIES ->
            (exists e', outcome (backend env (calls v) request) = Rejected e' /\
                        Retry.retryable e') ->
            exists e',
              forAttempts env request (clock w) le (a :: rest) v =
                forAttempts env request (clock w) (Some e') rest
                  (snd (sleep (backoffDelay a) (snd (messages_create env request v)))))
    as Hretry.
  { intros a rest le v Ha (e' & Hv & s & Hst & Hr). exists e'.
    exact (step_retry _ _ _ _ _ _ _ _ Hv (retryable_status_truthy _ _ Hst Hr) Ha). }
  unfold callClaude. rewrite attemptNumbers_eq.
  unfold bind at 1. unfold Date_now at 1. unfold bind at 1. fold request.
  assert (new_AgentError "Claude API call failed after retries" (Some e) =
          {| ae_name := "AgentError";
             ae_message := "Claude API call failed after retries";
             cause := Some e; statusCode := StatusNull |}) as Herr.
  { unfold new_AgentError. now rewrite Hs. }
  destruct k as [|[|[|k]]]; [| | |lia].
  - rewrite Nat.add_0_r in Ho. rewrite (Hstop _ _ _ _ Ho).
    eexists _, _. split; [rewrite Herr; reflexivity|].
    cbn [snd messages_create calls slept cause statusCode Retry.waits firstn].
    rewrite Nat.add_0_r, app_nil_r. repeat split.
  - destruct (Hretry 1 [2; 3] None w) as (e0 & ->);
      [unfold MAX_RETRIES; lia| |].
    { specialize (Hfirst O ltac:(lia)). now rewrite Nat.add_0_r in Hfirst. }
    rewrite Hstop.
    + eexists _, _. split; [rewrite Herr; reflexivity|].
      cbn [snd messages_create sleep calls slept cause statusCode Retry.waits firstn].
      repeat split. now rewrite Nat.add_1_r.
    + cbn [snd messages_create sleep calls]. now rewrite Nat.add_1_r in Ho.
  - destruct (Hretry 1 [2; 3] None w) as (e0 & ->);
      [unfold MAX_RETRIES; lia| |].
    { specialize (Hfirst O ltac:(lia)). now rewrite Nat.add_0_r in Hfirst. }
    destruct (Hretry 2 [3] (Some e0)
                (snd (sleep (backoffDelay 1) (snd (messages_create env request w)))))
      as (e1 & ->); [unfold MAX_RETRIES; lia| |].
    { specialize (Hfirst 1%nat ltac:(lia)). rewrite Nat.add_1_r in Hfirst.
      exact Hfirst. }
    rewrite Hstop.
    + eexists _, _. split; [rewrite Herr; reflexivity|].
      cbn [snd messages_create sleep calls slept cause statusCode Retry.waits firstn].
      repeat split; [f_equal; lia|].
      rewrite <- !app_assoc. reflexivity.
    + cbn [snd messages_create sleep calls].
      replace (calls w + 2)%nat with (S (S (calls w))) in Ho by lia. exact Ho.
Qed.

Lemma callClaude_does_not_retry_without_status_witness :
  outcome (backend Scenarios.timesOutOnSecond 2
             (requestOf Scenarios.timesOutOnSecond "system" "user")) =
    Resolved Fixtures.CLAUDE_SUCCESS_RESPONSE /\
  status_truthy APIConnectionTimeoutError &&
    isRetryableError APIConnectionTimeoutError = false /\
  exists err w',
    callClaude Scenarios.timesOutOnSecond "system" "user" "trace" Fixtures.start =
      (Throw (AgentErr err), w') /\
    calls w' = 2%nat /\
    slept w' = [1000] /\
    cause err = Some APIConnectionTimeoutError /\
    statusCode err = StatusNull.
Proof.
  split; [reflexivity|].
  apply (callClaude_does_not_retry_without_status Scenarios.timesOutOnSecond
           "system" "user" "trace" Fixtures.start 1 APIConnectionTimeoutError).
  - lia.
  - intros i Hi. assert (i = O) as -> by lia.
    exists Fixtures.rateLimitError. split; [reflexivity|].
    exists 429. split; [reflexivity|now left].
  - reflexivity.
  - reflexivity.
Defined.

(** C6, as the claim states it, fails: the first attempt fails after 100 ms,
    the wait is 1000 ms, the second attempt succeeds after 200 ms, and
    [latency_ms] is 1300, not the 200 ms of the attempt that succeeded. *)
Lemma latency_includes_failed_attempts_and_waits :
  elapsed (backend Fixtures.failOnceThenSucceed 1
             (requestOf Fixtures.failOnceThenSucceed "system" "user")) = 200 /\
  outcome (backend Fixtures.failOnceThenSucceed 1
             (requestOf Fixtures.failOnceThenSucceed "system" "user")) =
    Resolved Fixtures.CLAUDE_SUCCESS_RESPONSE /\
  exists result w',
    callClaude Fixtures.failOnceThenSucceed "system" "user" "trace"
      Fixtures.start = (Normal result, w') /\
    calls w' = 2%nat /\
    latency_ms result = 1300.
Proof.
  split; [reflexivity|]. split; [reflexivity|].
  eexists _, _. split; [reflexivity|]. split; reflexivity.
Qed.

(** C6, amended.  For every successful [callClaude], [latency_ms] is the
    time from the entry into [callClaude] to the successful response: the
    durations of all the attempts made, the failed ones included, plus the
    backoff waits between them.  When the first attempt succeeds, this is
    that attempt's duration. *)
Theorem latency_ms_is_time_since_entry
    env systemPrompt userMessage traceId w result w' :
  callClaude env systemPrompt userMessage traceId w = (Normal result, w') ->
  latency_ms result = clock w' - clock w /\
  exists (failed : nat) (waits : list Z),
    calls w' = S (calls w + failed) /\
    slept w' = (slept w ++ waits)%list /\
    List.length waits = failed /\
    latency_ms result =
      elapsedFrom env (requestOf env systemPrompt userMessage) (calls w) (S failed) +
      sumZ waits /\
    (failed = O ->
     latency_ms result =
       elapsed (backend env (calls w) (requestOf env systemPrompt userMessage))).
Proof.
  intros H. apply callClaude_spec in H.
  destruct H as (_ & _ & _ & k & ds & Hn & Hs & Hk & response & Hl & Hr & ->).
  cbn [latency_ms]. split; [reflexivity|].
  exists k, ds. repeat split; try assumption.
  - lia.
  - intros ->. destruct ds; [|discriminate Hl].
    rewrite Hk. cbn. lia.
Qed.

Lemma latency_ms_is_time_since_entry_witness :
  exists result w',
    callClaude Fixtures.failOnceThenSucceed "system" "user" "trace"
      Fixtures.start = (Normal result, w') /\
    latency_ms result = clock w' - 0 /\
    latency_ms result = (100 + 200) + 1000.
Proof.
  eexists _, _. split; [reflexivity|].
  destruct (latency_ms_is_time_since_entry Fixtures.failOnceThenSucceed
              "system" "user" "trace" Fixtures.start _ _ eq_refl)
    as (Hlat & _).
  split; [exact Hlat|reflexivity].
Defined.

(** C7.  For every successful [callClaude], [cost_usd] is
    [tokens.input * COST_PER_TOKEN.input + tokens.output * COST_PER_TOKEN.output]
    in the binary64 arithmetic of JavaScript numbers, with the prices
    3 / 1,000,000 and 15 / 1,000,000 and the token counts of the successful
    response; nothing else is added or rounded.  For 1,000,000 input and
    1,000,000 output tokens the cost is 18. *)
Theorem cost_usd_is_linear_in_tokens
    env systemPrompt userMessage traceId w result w' :
  callClaude env systemPrompt userMessage traceId w = (Normal result, w') ->
  cost_usd result =
    (input (tokens result) * (3 / 1000000) +
     output (tokens result) * (15 / 1000000))%float /\
  input COST_PER_TOKEN = (3 / 1000000)%float /\
  output COST_PER_TOKEN = (15 / 1000000)%float /\
  (exists response : Response,
     outcome (backend env (Nat.pred (calls w'))
                (requestOf env systemPrompt userMessage)) = Resolved response /\
     input (tokens result) = input_tokens response /\
     output (tokens result) = output_tokens response) /\
  (input (tokens result) = 1000000%float ->
   output (tokens result) = 1000000%float ->
   cost_usd result = 18%float).
Proof.
  intros H. apply callClaude_spec in H.
  destruct H as (_ & _ & _ & k & ds & Hn & Hs & Hk & response & Hl & Hr & ->).
  cbn [cost_usd tokens input output COST_PER_TOKEN].
  repeat split.
  - exists response. rewrite Hn. cbn [Nat.pred]. repeat split. exact Hr.
  - intros -> ->. reflexivity.
Qed.

Lemma cost_usd_is_linear_in_tokens_witness :
  exists result w',
    callClaude Fixtures.costly "system" "user" "trace-cost" Fixtures.start =
      (Normal result, w') /\
    input (tokens result) = 1000000%float /\
    output (tokens result) = 1000000%float /\
    cost_usd result = 18%float.
Proof.
  eexists _, _. split; [reflexivity|]. split; [reflexivity|]. split; [reflexivity|].
  apply (cost_usd_is_linear_in_tokens Fixtures.costly "system" "user" "trace-cost"
           Fixtures.start _ _ eq_refl); reflexivity.
Defined.

End ClaudeFacts.

(** ** The knowledge store *)

Module KnowledgeFacts.
Import Js Knowledge.

Lemma loadKnowledge_cached env (w : World) (chunks : list Chunk) :
  chunksCache w = Some chunks -> loadKnowledge env w = (Normal chunks, w).
Proof.
  intros H. unfold loadKnowledge, bind, get_chunksCache. now rewrite H.
Qed.

Lemma loadKnowledge_uncached env (w : World) :
  chunksCache w = None ->
  loadKnowledge env w =
    match Objects.parsedCorpus env with
    | Normal chunks => (Normal chunks, snd (set_chunksCache (Some chunks) w))
    | Throw e => (Throw e, w)
    end.
Proof.
  intros H. unfold loadKnowledge, Objects.parsedCorpus.
  unfold bind at 1. unfold get_chunksCache at 1. rewrite H.
  destruct (knowledgeDir env) as [entries|]; [|reflexivity].
  cbv zeta. unfold bind, lift.
  destruct (readFiles _ []); reflexivity.
Qed.

Section Sorting.
Context {A : Type} (compareFn : A -> A -> Z).

Lemma insertSorted_perm (x : A) (l : list A) :
  Permutation (insertSorted compareFn x l) (x :: l).
Proof.
  induction l as [|y l IH]; cbn; [reflexivity|].
  destruct (compareFn x y <=? 0); [reflexivity|].
  rewrite IH. apply perm_swap.
Qed.

Lemma sort_perm (l : list A) : Permutation (sort compareFn l) l.
Proof.
  induction l as [|x l IH]; cbn; [reflexivity|].
  rewrite insertSorted_perm. now constructor.
Qed.

End Sorting.

Lemma insertSorted_sorted (x : ScoredChunk) (l : list ScoredChunk) :
  Sorted scoreGe l -> Sorted scoreGe (insertSorted byScoreDesc x l).
Proof.
  induction l as [|y l IH]; intros Hs; cbn.
  - repeat constructor.
  - destruct (byScoreDesc x y <=? 0) eqn:Hc.
    + constructor; [assumption|]. constructor. unfold scoreGe, byScoreDesc in *. lia.
    + inversion Hs as [|? ? Hl Hhd]; subst. constructor; [now apply IH|].
      destruct l as [|z l]; cbn.
      * constructor. unfold scoreGe, byScoreDesc in *. lia.
      * destruct (byScoreDesc x z <=? 0).
        -- constructor. unfold scoreGe, byScoreDesc in *. lia.
        -- inversion Hhd; subst. now constructor.
Qed.

Lemma sort_sorted (l : list ScoredChunk) : Sorted scoreGe (sort byScoreDesc l).
Proof.
  induction l as [|x l IH]; cbn; [constructor|]. now apply insertSorted_sorted.
Qed.

(** The sort is stable: the chunks of one score keep their order. *)
Lemma insertSorted_stable (s : nat) (x : ScoredChunk) (l : list ScoredChunk) :
  List.filter (fun c => (score c =? s)%nat) (insertSorted byScoreDesc x l) =
  List.filter (fun c => (score c =? s)%nat) (x :: l).
Proof.
  induction l as [|y l IH]; [reflexivity|].
  cbn [insertSorted]. destruct (byScoreDesc x y <=? 0) eqn:Hc; [reflexivity|].
  cbn [List.filter] in *. rewrite IH.
  destruct (score x =? s)%nat eqn:Hx; [|reflexivity].
  assert ((score y =? s)%nat = false) as ->; [|reflexivity].
  apply Nat.eqb_eq in Hx. apply Nat.eqb_neq. unfold byScoreDesc in Hc. lia.
Qed.

Lemma sort_stable (s : nat) (l : list ScoredChunk) :
  List.filter (fun c => (score c =? s)%nat) (sort byScoreDesc l) =
  List.filter (fun c => (score c =? s)%nat) l.
Proof.
  induction l as [|x l IH]; [reflexivity|].
  cbn [sort]. rewrite insertSorted_stable. cbn [List.filter]. now rewrite IH.
Qed.

Lemma Sorted_firstn {A} (R : A -> A -> Prop) (n : nat) (l : list A) :
  Sorted R l -> Sorted R (firstn n l).
Proof.
  revert l. induction n as [|n IH]; intros l Hs; [constructor|].
  destruct l as [|x l]; [constructor|]. cbn.
  inversion Hs as [|? ? Hl Hhd]; subst. constructor; [now apply IH|].
  destruct l as [|y l]; [destruct n; constructor|].
  destruct n; cbn; [constructor|]. inversion Hhd; subst. now constructor.
Qed.

Lemma slice0_nonneg {A} (k : Z) (l : list A) :
  0 <= k -> slice0 k l = firstn (Z.to_nat k) l.
Proof.
  intros Hk. unfold slice0.
  assert ((k <? 0) = false) as -> by lia.
  destruct (Z.le_ge_cases k (Z.of_nat (List.length l))) as [Hle|Hge].
  - now rewrite Z.min_l.
  - rewrite Z.min_r by assumption. rewrite Nat2Z.id.
    rewrite !firstn_all2; [reflexivity| lia | lia].
Qed.

Section ScoringFacts.
Context {engine : RegExpEngine}.

Lemma matchCount_compiles (s term : string) :
  compiles term -> matchCount s term = Normal (occurrences term s).
Proof.
  unfold compiles, matchCount, occurrences.
  destruct (RegExp_new term); [reflexivity|congruence].
Qed.

Lemma matchCount_throws (s term : string) :
  RegExp_new term = None -> matchCount s term = Throw (SyntaxError term).
Proof. unfold matchCount. now intros ->. Qed.

Lemma scoreTerms_compiles (terms : list string) (chunkTitle chunkText : string) :
  Forall compiles terms ->
  forall acc,
  scoreTerms terms chunkTitle chunkText acc =
    Normal (acc + fold_right Nat.add O
              (map (fun t => 3 * occurrences t (toLowerCase chunkTitle) +
                             1 * occurrences t chunkText) terms))%nat.
Proof.
  induction 1 as [|t terms Ht _ IH]; intros acc; cbn [scoreTerms map fold_right].
  - f_equal. lia.
  - rewrite !matchCount_compiles by assumption. rewrite IH. f_equal. lia.
Qed.

Lemma scoreTerms_throws (terms : list string) (chunkTitle chunkText : string) :
  Exists (fun t => RegExp_new t = None) terms ->
  forall acc,
  exists t, In t terms /\ RegExp_new t = None /\
    scoreTerms terms chunkTitle chunkText acc = Throw (SyntaxError t).
Proof.
  induction terms as [|t terms IH]; intros Hex acc; [inversion Hex|].
  destruct (RegExp_new t) eqn:Ht.
  - inversion Hex as [? ? Hbad|? ? Hrest]; subst; [congruence|].
    cbn [scoreTerms]. rewrite !matchCount_compiles by (unfold compiles; congruence).
    destruct (IH Hrest (acc + (occurrences t (toLowerCase chunkTitle) * 3 +
                               occurrences t chunkText))%nat) as (t' & Hin & Hn & Hthrow).
    exists t'. repeat split; [now right|assumption|assumption].
  - exists t. repeat split; [now left|assumption|].
    cbn [scoreTerms]. now rewrite matchCount_throws.
Qed.

Lemma scoreChunk_compiles (query : string) (chunk : Chunk) :
  Forall compiles (queryTerms query) ->
  scoreChunk query chunk = Normal (totalScore (queryTerms query) chunk).
Proof.
  intros H. unfold scoreChunk. rewrite scoreTerms_compiles by assumption.
  reflexivity.
Qed.

Lemma mapScored_compiles (query : string) (chunks : list Chunk) :
  Forall compiles (queryTerms query) ->
  mapScored query chunks =
    Normal (map (fun c => withScore c (totalScore (queryTerms query) c)) chunks).
Proof.
  intros H. induction chunks as [|c chunks IH]; [reflexivity|].
  cbn [mapScored map]. rewrite scoreChunk_compiles by assumption. now rewrite IH.
Qed.

Lemma mapScored_throws (query : string) (chunks : list Chunk) :
  chunks <> [] ->
  Exists (fun t => RegExp_new t = None) (queryTerms query) ->
  exists t, In t (queryTerms query) /\ RegExp_new t = None /\
    mapScored query chunks = Throw (SyntaxError t).
Proof.
  intros Hne Hex. destruct chunks as [|c chunks]; [congruence|].
  destruct (scoreTerms_throws _ (title c) (chunkTextOf (title c) (content c)) Hex O)
    as (t & Hin & Hn & Hthrow).
  exists t. repeat split; try assumption.
  cbn [mapScored]. unfold scoreChunk. now rewrite Hthrow.
Qed.

Lemma findRelevantChunks_unfold env query topK w :
  findRelevantChunks env query topK w =
    match loadKnowledge env w with
    | (Normal chunks, w1) =>
        match mapScored query chunks with
        | Normal mapped => (Normal (rank topK mapped), w1)
        | Throw e => (Throw e, w1)
        end
    | (Throw e, w1) => (Throw e, w1)
    end.
Proof.
  unfold findRelevantChunks, bind, lift, ret.
  destruct (loadKnowledge env w) as [[chunks|e] w1]; [|reflexivity].
  destruct (mapScored query chunks); reflexivity.
Qed.

Lemma totalScore_zero (terms : list string) (chunk : Chunk) :
  (forall t, In t terms ->
     occurrences t (toLowerCase (title chunk)) = O /\
     occurrences t (toLowerCase (title chunk ++ " " ++ content chunk)) = O) ->
  totalScore terms chunk = O.
Proof.
  unfold totalScore. induction terms as [|t terms IH]; intros H; [reflexivity|].
  cbn [map fold_right]. rewrite IH by (intros; apply H; now right).
  unfold termScore. destruct (H t (or_introl eq_refl)) as [-> ->]. reflexivity.
Qed.

Lemma In_firstn {A} (n : nat) (l : list A) (x : A) : In x (firstn n l) -> In x l.
Proof.
  intros H. rewrite <- (firstn_skipn n l). apply in_or_app. now left.
Qed.

Lemma filter_positive_nil (l : list ScoredChunk) :
  Forall (fun sc => score sc = O) l ->
  List.filter (fun sc => (0 <? score sc)%nat) l = [].
Proof.
  induction 1 as [|sc l Hsc _ IH]; [reflexivity|].
  cbn [List.filter]. now rewrite Hsc, IH.
Qed.

Lemma mapScored_no_match (query : string) (chunks : list Chunk) :
  (forall c t, In c chunks -> In t (queryTerms query) ->
     occurrences t (toLowerCase (title c)) = O /\
     occurrences t (toLowerCase (title c ++ " " ++ content c)) = O) ->
  List.filter (fun sc => (0 <? score sc)%nat)
    (map (fun c => withScore c (totalScore (queryTerms query) c)) chunks) = [].
Proof.
  intros Hnone. apply filter_positive_nil. apply List.Forall_forall. intros sc Hin.
  apply in_map_iff in Hin as (c & <- & Hc). cbn [score withScore].
  apply totalScore_zero. intros t Ht. now apply Hnone.
Qed.

(** What [findRelevantChunks] does where no term is refused.  On a loaded
    corpus, for a query whose terms of length > 2
    are all patterns the constructor accepts (or on an empty corpus), and
    for [topK >= 0], [findRelevantChunks] returns: only chunks of the corpus
    with their scores, each score > 0; sorted by non-increasing score;
    chunks of equal score in the order of the corpus; the first [topK] of
    them at most.  A query none of whose terms matches, as a pattern, the
    lower-cased title or title-and-content of any chunk yields the empty
    sequence. *)
Theorem findRelevantChunks_ranks_positive_scores
    env query topK w chunks w1 :
  0 <= topK ->
  loadKnowledge env w = (Normal chunks, w1) ->
  Forall compiles (queryTerms query) \/ chunks = [] ->
  let scored := map (fun c => withScore c (totalScore (queryTerms query) c)) chunks in
  let positive := List.filter (fun sc => (0 <? score sc)%nat) scored in
  exists result ranked,
    findRelevantChunks env query topK w = (Normal result, w1) /\
    Forall (fun sc => (0 < score sc)%nat /\ In sc scored) result /\
    Sorted scoreGe result /\
    result = firstn (Z.to_nat topK) ranked /\
    Permutation ranked positive /\
    (forall s, List.filter (fun sc => (score sc =? s)%nat) ranked =
               List.filter (fun sc => (score sc =? s)%nat) positive) /\
    Z.of_nat (List.length result) <= topK /\
    ((forall c t, In c chunks -> In t (queryTerms query) ->
        occurrences t (toLowerCase (title c)) = O /\
        occurrences t (toLowerCase (title c ++ " " ++ content c)) = O) ->
     result = []).
Proof.
  intros Hk Hload Hterms scored positive.
  assert (mapScored query chunks = Normal scored) as Hmap.
  { destruct Hterms as [Hc | ->]; [now apply mapScored_compiles|reflexivity]. }
  exists (firstn (Z.to_nat topK) (sort byScoreDesc positive)), (sort byScoreDesc positive).
  split.
  { rewrite findRelevantChunks_unfold, Hload, Hmap. unfold rank.
    now rewrite slice0_nonneg. }
  split.
  { apply List.Forall_forall. intros sc Hin. apply In_firstn in Hin.
    apply (Permutation_in _ (sort_perm byScoreDesc positive)) in Hin.
    apply filter_In in Hin as [Hin Hpos]. split; [|assumption].
    apply Nat.ltb_lt. exact Hpos. }
  split; [apply Sorted_firstn, sort_sorted|].
  split; [reflexivity|].
  split; [apply sort_perm|].
  split; [intros s; apply sort_stable|].
  split.
  { pose proof (firstn_le_length (Z.to_nat topK) (sort byScoreDesc positive)). lia. }
  intros Hnone.
  assert (positive = []) as ->; [|now destruct (Z.to_nat topK)].
  now apply (mapScored_no_match query chunks).
Qed.

Lemma scoreTerms_total (terms : list string) (chunkTitle chunkText : string) :
  forall acc,
  scoreTerms terms chunkTitle chunkText acc =
    match firstRefused terms with
    | Some t => Throw (SyntaxError t)
    | None =>
        Normal (acc + fold_right Nat.add O
                  (map (fun t => 3 * occurrences t (toLowerCase chunkTitle) +
                                 1 * occurrences t chunkText) terms))%nat
    end.
Proof.
  unfold firstRefused.
  induction terms as [|t terms IH]; intros acc; cbn [scoreTerms find map fold_right].
  - f_equal. lia.
  - destruct (RegExp_new t) eqn:Ht.
    + rewrite !matchCount_compiles by (unfold compiles; congruence). rewrite IH.
      destruct (find _ terms); [reflexivity|]. f_equal. lia.
    + now rewrite matchCount_throws.
Qed.

Lemma totalScore_le (terms : list string) (chunk other : Chunk) :
  (forall t, In t terms ->
     (occurrences t (toLowerCase (title other)) <=
      occurrences t (toLowerCase (title chunk)))%nat /\
     (occurrences t (toLowerCase (title other ++ " " ++ content other)) <=
      occurrences t (toLowerCase (title chunk ++ " " ++ content chunk)))%nat) ->
  (totalScore terms other <= totalScore terms chunk)%nat.
Proof.
  unfold totalScore. induction terms as [|t terms IH]; intros Hcmp; [reflexivity|].
  cbn [map fold_right]. destruct (Hcmp t (or_introl eq_refl)) as [H1 H2].
  assert (fold_right Nat.add O (map (termScore other) terms) <=
          fold_right Nat.add O (map (termScore chunk) terms))%nat as Hrest
    by (apply IH; intros; apply Hcmp; now right).
  unfold termScore in *. lia.
Qed.

Lemma totalScore_title_bonus (terms : list string) (chunk other : Chunk) :
  (forall t, In t terms ->
     occurrences t (toLowerCase (title other)) = O /\
     occurrences t (toLowerCase (title other ++ " " ++ content other)) =
     occurrences t (toLowerCase (title chunk ++ " " ++ content chunk))) ->
  totalScore terms chunk =
    (totalScore terms other +
     3 * fold_right Nat.add O
           (map (fun t => occurrences t (toLowerCase (title chunk))) terms))%nat.
Proof.
  unfold totalScore. induction terms as [|t terms IH]; intros Hcmp; [reflexivity|].
  cbn [map fold_right]. destruct (Hcmp t (or_introl eq_refl)) as [H1 H2].
  assert (fold_right Nat.add O (map (termScore chunk) terms) =
          fold_right Nat.add O (map (termScore other) terms) +
          3 * fold_right Nat.add O
                (map (fun t => occurrences t (toLowerCase (title chunk))) terms))%nat
    as Hrest by (apply IH; intros; apply Hcmp; now right).
  unfold termScore in *. rewrite H1, H2. lia.
Qed.

Lemma scoreChunk_total (query : string) (chunk : Chunk) :
  scoreChunk query chunk =
    match firstRefused (queryTerms query) with
    | Some t => Throw (SyntaxError t)
    | None => Normal (totalScore (queryTerms query) chunk)
    end.
Proof.
  unfold scoreChunk. rewrite scoreTerms_total.
  destruct (firstRefused (queryTerms query)); reflexivity.
Qed.

(** What [scoreChunk] computes, term by term.  For every chunk and query,
    [scoreChunk] adds up, over the
    lower-cased query terms of length > 2, 3 times the number of occurrences
    of the term in the lower-cased title plus 1 time the number of its
    occurrences in the lower-cased title, space and content (and throws
    when the constructor refuses a term).  So a chunk scores at least as
    much as any chunk in which no term occurs more often, in the title or
    in the combined text; and against a chunk with the same occurrences in
    the combined text and none in the title, it scores exactly 3 more per
    occurrence in its title. *)
Theorem scoreChunk_weights_title_three_times (query : string) (chunk : Chunk) :
  queryTerms query =
    List.filter (fun t => (2 <? String.length t)%nat)
      (split_whitespace (toLowerCase query)) /\
  scoreChunk query chunk =
    match firstRefused (queryTerms query) with
    | Some t => Throw (SyntaxError t)
    | None =>
        Normal (fold_right Nat.add O
                  (map (fun t =>
                          3 * occurrences t (toLowerCase (title chunk)) +
                          1 * occurrences t
                                (toLowerCase (title chunk ++ " " ++ content chunk)))%nat
                     (queryTerms query)))
    end /\
  (forall (other : Chunk) (s s' : nat),
     scoreChunk query chunk = Normal s ->
     scoreChunk query other = Normal s' ->
     (forall t, In t (queryTerms query) ->
        (occurrences t (toLowerCase (title other)) <=
         occurrences t (toLowerCase (title chunk)))%nat /\
        (occurrences t (toLowerCase (title other ++ " " ++ content other)) <=
         occurrences t (toLowerCase (title chunk ++ " " ++ content chunk)))%nat) ->
     (s' <= s)%nat) /\
  (forall (other : Chunk) (s s' : nat),
     scoreChunk query chunk = Normal s ->
     scoreChunk query other = Normal s' ->
     (forall t, In t (queryTerms query) ->
        occurrences t (toLowerCase (title other)) = O /\
        occurrences t (toLowerCase (title other ++ " " ++ content other)) =
        occurrences t (toLowerCase (title chunk ++ " " ++ content chunk))) ->
     s = (s' + 3 * fold_right Nat.add O
                     (map (fun t => occurrences t (toLowerCase (title chunk)))
                        (queryTerms query)))%nat).
Proof.
  split; [reflexivity|]. split; [apply scoreChunk_total|].
  split; intros other s s'; rewrite !scoreChunk_total;
    destruct (firstRefused (queryTerms query)); try discriminate;
    intros Hs Hs' Hcmp; injection Hs as <-; injection Hs' as <-.
  - now apply totalScore_le.
  - now apply totalScore_title_bonus.
Qed.


End ScoringFacts.

Lemma compiles_forallb {engine : RegExpEngine} (terms : list string) :
  forallb (fun t => match RegExp_new t with Some _ => true | None => false end)
    terms = true ->
  Forall compiles terms.
Proof.
  intros H. apply List.Forall_forall. intros t Hin.
  rewrite forallb_forall in H. specialize (H t Hin). unfold compiles.
  destruct (RegExp_new t); [discriminate|discriminate H].
Qed.

Lemma guide_loads :
  loadKnowledge Fixtures.unauthorized Fixtures.start =
    (Normal Fixtures.guideChunks, Fixtures.loaded).
Proof. vm_compute. reflexivity. Qed.

(** C4, as the claim states it, fails on the reference engine and the
    [guide] corpus.  A query with the term [c++], which is no pattern
    (nothing to repeat), returns no sequence: it throws.  The query [...]
    shares no vocabulary with any chunk (the text [...] occurs in none of
    them), and yet all three chunks come back. *)
Lemma findRelevantChunks_not_for_every_query :
  RefEngine.parse "c++" = RefEngine.NothingToRepeat /\
  fst (findRelevantChunks (engine := RefEngine.engine) Fixtures.unauthorized
         "Is there a C++ client?" 3 Fixtures.start) = Throw (SyntaxError "c++") /\
  queryTerms "..." = ["..."] /\
  RefEngine.supported "..." = true /\
  loadKnowledge Fixtures.unauthorized Fixtures.start =
    (Normal Fixtures.guideChunks, Fixtures.loaded) /\
  forallb (fun c => negb (includes (toLowerCase (title c ++ " " ++ content c)) "..."))
    Fixtures.guideChunks = true /\
  exists result,
    findRelevantChunks (engine := RefEngine.engine) Fixtures.unauthorized
      "..." 3 Fixtures.start = (Normal result, Fixtures.loaded) /\
    map sc_id result = ["guide#rate-limits"; "guide#authentication"; "guide#intro"].
Proof.
  do 6 (split; [vm_compute; reflexivity|]).
  eexists. split; vm_compute; reflexivity.
Qed.

(** C5, as the claim states it, fails on the reference engine and the
    chunk of the section [Authentication] of the [guide] corpus.  The query
    [authentication] scores 5: 3 times its one occurrence in the title plus
    its two occurrences in title and content.  With the term [c++] added,
    which occurs nowhere in the chunk, the score is not 5: [scoreChunk]
    returns no score, it throws.  The term [...] occurs nowhere in the
    chunk either, and the query [...] scores 28, not 0. *)
Lemma scoreChunk_not_for_every_query :
  title Scenarios.authenticationChunk = "Authentication" /\
  scoreChunk (engine := RefEngine.engine) "authentication"
    Scenarios.authenticationChunk = Normal 5%nat /\
  queryTerms "c++ authentication" = ["c++"; "authentication"] /\
  includes
    (toLowerCase (title Scenarios.authenticationChunk ++ " " ++
                  content Scenarios.authenticationChunk)) "c++" = false /\
  scoreChunk (engine := RefEngine.engine) "c++ authentication"
    Scenarios.authenticationChunk = Throw (SyntaxError "c++") /\
  queryTerms "..." = ["..."] /\
  includes
    (toLowerCase (title Scenarios.authenticationChunk ++ " " ++
                  content Scenarios.authenticationChunk)) "..." = false /\
  scoreChunk (engine := RefEngine.engine) "..."
    Scenarios.authenticationChunk = Normal 28%nat.
Proof. repeat split; vm_compute; reflexivity. Qed.

Lemma findRelevantChunks_ranks_positive_scores_witness :
  exists result,
    findRelevantChunks (engine := RefEngine.engine) Fixtures.unauthorized
      "How do I authenticate with the API?" 2 Fixtures.start =
      (Normal result, Fixtures.loaded) /\
    Forall (fun sc => (0 < score sc)%nat) result /\
    Sorted scoreGe result /\
    Z.of_nat (List.length result) <= 2 /\
    map sc_id result = ["guide#intro"; "guide#authentication"].
Proof.
  assert (Forall (compiles (engine := RefEngine.engine))
            (queryTerms "How do I authenticate with the API?")) as Hterms
    by (apply compiles_forallb; vm_compute; reflexivity).
  destruct (findRelevantChunks_ranks_positive_scores (engine := RefEngine.engine)
              Fixtures.unauthorized "How do I authenticate with the API?" 2
              Fixtures.start Fixtures.guideChunks Fixtures.loaded
              ltac:(lia) guide_loads (or_introl Hterms))
    as (result & ranked & Hfind & Hpos & Hsorted & _ & _ & _ & Hlen & _).
  exists result. split; [exact Hfind|].
  split; [eapply List.Forall_impl; [|exact Hpos]; intros sc [Hsc _]; exact Hsc|].
  split; [exact Hsorted|]. split; [exact Hlen|].
  vm_compute in Hfind. injection Hfind as <-. reflexivity.
Defined.

Lemma scoreChunk_weights_title_three_times_witness :
  scoreChunk (engine := RefEngine.engine) "authentication"
    (nth 1 Fixtures.guideChunks Fixtures.noChunk) = Normal 5%nat /\
  scoreChunk (engine := RefEngine.engine) "authentication"
    (nth 2 Fixtures.guideChunks Fixtures.noChunk) = Normal 1%nat /\
  (1 <= 5)%nat.
Proof.
  assert (scoreChunk (engine := RefEngine.engine) "authentication"
            (nth 1 Fixtures.guideChunks Fixtures.noChunk) = Normal 5%nat) as Htitle
    by (vm_compute; reflexivity).
  assert (scoreChunk (engine := RefEngine.engine) "authentication"
            (nth 2 Fixtures.guideChunks Fixtures.noChunk) = Normal 1%nat) as Hbody
    by (vm_compute; reflexivity).
  split; [exact Htitle|]. split; [exact Hbody|].
  destruct (scoreChunk_weights_title_three_times (engine := RefEngine.engine)
              "authentication" (nth 1 Fixtures.guideChunks Fixtures.noChunk))
    as (_ & _ & Hge & _).
  apply (Hge (nth 2 Fixtures.guideChunks Fixtures.noChunk) 5%nat 1%nat Htitle Hbody).
  intros t Hin. vm_compute in Hin. destruct Hin as [<- | []].
  split; vm_compute; lia.
Defined.


End KnowledgeFacts.

(** ** The reference engine on literal terms *)

Module RefEngineFacts.
Import Js RefEngine Knowledge.

Lemma parseFrom_literal (cs : list ascii) :
  forall acc pending,
  forallb ordinary cs = true ->
  parseFrom acc pending None cs =
    Pattern (acc ++ match pending with Some a => [(a, One)] | None => [] end ++
             map lit cs)%list.
Proof.
  induction cs as [|c cs IH]; intros acc pending Hcs.
  - cbn. destruct pending; now rewrite ?app_nil_r.
  - cbn [forallb] in Hcs. apply andb_true_iff in Hcs as [Hc Hcs].
    unfold ordinary in Hc. apply andb_true_iff in Hc as [Hc Hdot].
    apply andb_true_iff in Hc as [Hout Hq].
    apply negb_true_iff in Hout, Hq, Hdot.
    cbn [parseFrom]. rewrite Hout, Hq. rewrite IH by exact Hcs.
    unfold atomOf. rewrite Hdot. f_equal. cbn [map]. unfold lit at 2.
    destruct pending; cbn; now rewrite <- ?app_assoc.
Qed.

Lemma compile_literal (term : string) :
  literal term = true -> compile term = Some (map lit (chars term)).
Proof.
  intros H. unfold compile, parse. now rewrite (parseFrom_literal _ [] None H).
Qed.

Lemma matchHere_literal (cs : list ascii) :
  forall s,
  matchHere (map lit cs) s =
    if startsWith cs s then Some (List.length cs) else None.
Proof.
  induction cs as [|c cs IH]; intros s; [now destruct s|].
  cbn [map lit matchHere]. destruct s as [|x s]; [reflexivity|].
  cbn [run atomMatches startsWith]. destruct (Ascii.eqb c x); [|reflexivity].
  cbn [candidates Nat.leb firstSome skipn andb]. rewrite skipn_O, IH.
  now destruct (startsWith cs s).
Qed.

Lemma matchAll_nil (ps : list piece) (s : list ascii) :
  matchAll ps O s = [] <-> matchesSomewhere ps s = false.
Proof.
  induction s as [|x s IH]; cbn [matchAll matchesSomewhere].
  - destruct (matchHere ps []); split; congruence.
  - destruct (matchHere ps (x :: s)); [split; congruence|exact IH].
Qed.

Lemma prefix_startsWith (t s : string) :
  String.prefix t s = startsWith (chars t) (chars s).
Proof.
  revert s. induction t as [|c t IH]; intros s; [now destruct s|].
  destruct s as [|x s]; [reflexivity|]. cbn.
  destruct (ascii_dec c x) as [->|Hne].
  - rewrite Ascii.eqb_refl. apply IH.
  - apply Ascii.eqb_neq in Hne. now rewrite Hne.
Qed.

Lemma includes_matchesSomewhere (s term : string) :
  includes s term = matchesSomewhere (map lit (chars term)) (chars s).
Proof.
  induction s as [|x s IH]; cbn [includes matchesSomewhere chars list_ascii_of_string].
  - rewrite matchHere_literal, prefix_startsWith. cbn [chars list_ascii_of_string].
    destruct (startsWith (chars term) []); reflexivity.
  - rewrite matchHere_literal, prefix_startsWith. cbn [chars list_ascii_of_string].
    fold (chars s). destruct (startsWith (chars term) (x :: chars s)); [reflexivity|].
    exact IH.
Qed.

(** A literal term occurs, as a pattern, exactly where it occurs as text. *)
Lemma occurrences_literal (term s : string) :
  literal term = true ->
  (occurrences (engine := engine) term s = O <-> includes s term = false).
Proof.
  intros Hlit. unfold occurrences. cbn [RegExp_new String_match engine].
  rewrite (compile_literal _ Hlit). unfold matchGlobal.
  rewrite includes_matchesSomewhere, <- matchAll_nil.
  destruct (matchAll (map lit (chars term)) O (chars s)); split;
    cbn; congruence.
Qed.

Lemma toLowerCase_app (a b : string) :
  toLowerCase (a ++ b) = toLowerCase a ++ toLowerCase b.
Proof.
  induction a as [|c a IH]; [reflexivity|].
  change (String c a ++ b) with (String c (a ++ b)).
  cbn [toLowerCase]. rewrite IH. reflexivity.
Qed.

Lemma prefix_app (t a b : string) :
  String.prefix t a = true -> String.prefix t (a ++ b) = true.
Proof.
  revert a. induction t as [|c t IH]; intros a;
    [intros _; now destruct (a ++ b)|].
  destruct a as [|x a]; [discriminate|].
  change (String x a ++ b) with (String x (a ++ b)). cbn [String.prefix].
  destruct (ascii_dec c x); [apply IH|discriminate].
Qed.

Lemma includes_app (a b t : string) :
  includes a t = true -> includes (a ++ b) t = true.
Proof.
  induction a as [|x a IH].
  - cbn [includes]. rewrite orb_false_r. intros H. destruct t; [|discriminate H].
    now destruct b.
  - change (String x a ++ b) with (String x (a ++ b)). cbn [includes].
    intros H. apply orb_true_iff in H as [H|H].
    + change (String x (a ++ b)) with (String x a ++ b).
      now rewrite (prefix_app _ _ _ H).
    + rewrite (IH H). apply orb_true_r.
Qed.

(** On the reference engine, a query of literal terms none of which occurs,
    as text, in the lower-cased title and content of any chunk yields the
    empty sequence. *)
Theorem no_shared_vocabulary_yields_nothing env query topK w chunks w1 :
  0 <= topK ->
  loadKnowledge env w = (Normal chunks, w1) ->
  Forall (fun t => literal t = true) (queryTerms query) ->
  (forall c t, In c chunks -> In t (queryTerms query) ->
     includes (toLowerCase (title c ++ " " ++ content c)) t = false) ->
  findRelevantChunks (engine := engine) env query topK w = (Normal [], w1).
Proof.
  intros Hk Hload Hlit Hnone.
  assert (Forall (compiles (engine := engine)) (queryTerms query)) as Hterms.
  { eapply List.Forall_impl; [|exact Hlit]. intros t Ht. unfold compiles.
    cbn [RegExp_new engine]. now rewrite (compile_literal _ Ht). }
  rewrite KnowledgeFacts.findRelevantChunks_unfold, Hload.
  rewrite (KnowledgeFacts.mapScored_compiles _ _ Hterms). unfold rank.
  rewrite (KnowledgeFacts.mapScored_no_match query chunks);
    [now rewrite KnowledgeFacts.slice0_nonneg; [destruct (Z.to_nat topK)|]|].
  intros c t Hc Ht. rewrite List.Forall_forall in Hlit.
  specialize (Hnone c t Hc Ht). specialize (Hlit t Ht).
  split; apply (occurrences_literal _ _ Hlit); [|exact Hnone].
  destruct (includes (toLowerCase (title c)) t) eqn:Hin; [|reflexivity].
  rewrite toLowerCase_app in Hnone.
  now rewrite (includes_app _ _ _ Hin) in Hnone.
Qed.

End RefEngineFacts.

(** ** The orchestrator *)

Module AgentFacts.
Import Knowledge Agent.

Section Orchestrator.
Context {engine : RegExpEngine}.

Lemma loadKnowledge_traces env w res w' :
  loadKnowledge env w = (res, w') -> traces w' = traces w.
Proof.
  unfold loadKnowledge, bind, get_chunksCache, set_chunksCache, lift, ret.
  destruct (chunksCache w) as [cached|].
  - intros H. now injection H as <- <-.
  - destruct (knowledgeDir env) as [entries|].
    + destruct (readFiles _ _); intros H; now injection H as <- <-.
    + intros H. now injection H as <- <-.
Qed.

Lemma findRelevantChunks_traces env query topK w res w' :
  findRelevantChunks env query topK w = (res, w') -> traces w' = traces w.
Proof.
  rewrite KnowledgeFacts.findRelevantChunks_unfold.
  destruct (loadKnowledge env w) as [[chunks|e] w1] eqn:Hload;
    apply loadKnowledge_traces in Hload.
  - destruct (mapScored query chunks); intros H; injection H as <- <-; exact Hload.
  - intros H. injection H as <- <-. exact Hload.
Qed.

Lemma ask_unfold env question sessionId w :
  ask env question sessionId w =
    let traceId := uuid env (uuids w) in
    match findRelevantChunks env question 3 (snd (uuidv4 env w)) with
    | (Throw e, w1) => (Throw e, w1)
    | (Normal relevantChunks, w1) =>
        let systemPrompt := SYSTEM_PROMPT_TEMPLATE relevantChunks in
        match Claude.callClaude env systemPrompt question traceId w1 with
        | (Throw e, w2) => (Throw e, w2)
        | (Normal claudeResult, w2) =>
            let params :=
              {| tp_traceId := traceId;
                 tp_sessionId := sessionId;
                 tp_input := question;
                 tp_output := text claudeResult;
                 tp_model := model claudeResult;
                 tp_tokens := tokens claudeResult;
                 tp_cost_usd := cost_usd claudeResult;
                 tp_latency_ms := clock w2 - clock w;
                 tp_knowledgeChunks := map sc_id relevantChunks;
                 tp_systemPrompt := systemPrompt |} in
            (Normal
               {| answer := text claudeResult;
                  trace_id := traceId;
                  ar_latency_ms := clock w2 - clock w;
                  tokens_used :=
                    (input (tokens claudeResult) + output (tokens claudeResult))%float;
                  ar_cost_usd := cost_usd claudeResult;
                  knowledge_chunks := map sc_id relevantChunks |},
             snd (recordTrace params w2))
        end
    end.
Proof.
  unfold ask. unfold bind at 1. unfold uuidv4 at 1. unfold bind at 1.
  unfold Date_now at 1. unfold bind at 1. cbn [snd uuidv4 clock].
  destruct (findRelevantChunks env question 3 _) as [[chunks|e] w1]; [|reflexivity].
  unfold bind at 1. unfold try_catch.
  destruct (Claude.callClaude env _ question _ w1) as [[r|e] w2]; reflexivity.
Qed.

(** C8.  When the call of the model gateway inside [ask] throws an
    [AgentError], [ask] throws that same error, returns no [AgentResult],
    and [recordTrace] has not been called.  In general [recordTrace] is
    called only when [ask] completes, once, with the result's trace id and
    answer. *)
Theorem ask_propagates_AgentError_unchanged
    env question sessionId w relevantChunks w1 e w2 :
  findRelevantChunks env question 3 (snd (uuidv4 env w)) = (Normal relevantChunks, w1) ->
  Claude.callClaude env (SYSTEM_PROMPT_TEMPLATE relevantChunks) question
    (uuid env (uuids w)) w1 = (Throw (AgentErr e), w2) ->
  ask env question sessionId w = (Throw (AgentErr e), w2) /\
  traces w2 = traces w /\
  forall question' sessionId' v res v',
    ask env question' sessionId' v = (res, v') ->
    match res with
    | Throw _ => traces v' = traces v
    | Normal result =>
        exists params,
          traces v' = (traces v ++ [params])%list /\
          tp_traceId params = trace_id result /\
          tp_output params = answer result
    end.
Proof.
  intros Hfind Hcall. split; [|split].
  - rewrite ask_unfold. cbv zeta. now rewrite Hfind, Hcall.
  - apply findRelevantChunks_traces in Hfind.
    apply ClaudeFacts.callClaude_spec in Hcall as (Ht & _).
    rewrite Ht, Hfind. reflexivity.
  - clear. intros question sessionId v res v'. rewrite ask_unfold. cbv zeta.
    destruct (findRelevantChunks env question 3 _) as [[chunks|e] v1] eqn:Hfind;
      apply findRelevantChunks_traces in Hfind; cbn [snd uuidv4 traces] in Hfind.
    + destruct (Claude.callClaude env _ question _ v1) as [[r|e] v2] eqn:Hcall;
        apply ClaudeFacts.callClaude_spec in Hcall as (Ht & _);
        intros H; injection H as <- <-.
      * eexists. cbn [recordTrace snd traces]. rewrite Ht, Hfind.
        repeat split.
      * now rewrite Ht, Hfind.
    + intros H. injection H as <- <-. exact Hfind.
Qed.

End Orchestrator.

Lemma ask_propagates_AgentError_unchanged_witness :
  exists e w2,
    ask (engine := RefEngine.engine) Fixtures.unauthorized "test" None
      Fixtures.start = (Throw (AgentErr e), w2) /\
    traces w2 = [] /\
    cause e = Some Fixtures.apiError.
Proof.
  edestruct (ask_propagates_AgentError_unchanged (engine := RefEngine.engine)
               Fixtures.unauthorized "test" None Fixtures.start)
    as (Hask & Htraces & _);
    [vm_compute; reflexivity | vm_compute; reflexivity |].
  eexists _, _. split; [exact Hask|]. split; [exact Htraces|reflexivity].
Defined.

End AgentFacts.

(** ** The knowledge store, with object identity *)

Module ObjectsFacts.
Import Objects.

Lemma grows_refl (st : Store) : grows st st.
Proof. split; reflexivity. Qed.

Lemma grows_trans (a b c : Store) : grows a b -> grows b c -> grows a c.
Proof.
  intros [H1 H2] [H3 H4]. split; [etransitivity; eassumption|congruence].
Qed.

Lemma bind_inv {S A B} (m : Eff S A) (k : A -> Eff S B) (st : S) res st' :
  bind m k st = (res, st') ->
  (exists a st1, m st = (Normal a, st1) /\ k a st1 = (res, st')) \/
  (exists e, m st = (Throw e, st') /\ res = Throw e).
Proof.
  unfold bind. destruct (m st) as [[a|e] st1]; intros H.
  - left. eauto.
  - right. injection H as <- <-. eauto.
Qed.

Lemma fresh_unused (st : Store) : heap st !! fresh (dom (heap st)) = None.
Proof. apply not_elem_of_dom. apply is_fresh. Qed.

Lemma alloc_spec (o : object) (st : Store) :
  exists l st',
    alloc o st = (Normal l, st') /\
    grows st st' /\
    heap st !! l = None /\
    heap st' !! l = Some o.
Proof.
  eexists _, _. split; [reflexivity|]. cbn [heap chunksCache].
  split; [split; [|reflexivity]|split].
  - apply insert_subseteq, fresh_unused.
  - apply fresh_unused.
  - apply lookup_insert_eq.
Qed.

Lemma alloc_inv (o : object) (st : Store) res st' :
  alloc o st = (res, st') ->
  exists l, res = Normal l /\ grows st st' /\
            heap st !! l = None /\ heap st' !! l = Some o.
Proof.
  destruct (alloc_spec o st) as (l & st1 & Ha & Hg & Hn & Hl).
  rewrite Ha. intros H. injection H as <- <-. eauto.
Qed.

Lemma readChunk_inv (l : loc) (st : Store) res st' :
  readChunk l st = (res, st') ->
  st' = st /\
  match res with
  | Normal fields => heap st !! l = Some (ChunkObj fields)
  | Throw _ => True
  end.
Proof.
  unfold readChunk. destruct (heap st !! l) as [[fields|elems]|];
    intros H; injection H as <- <-; auto.
Qed.

Lemma readArray_inv (l : loc) (st : Store) res st' :
  readArray l st = (res, st') ->
  st' = st /\
  match res with
  | Normal elems => heap st !! l = Some (ArrayObj elems)
  | Throw _ => True
  end.
Proof.
  unfold readArray. destruct (heap st !! l) as [[fields|elems]|];
    intros H; injection H as <- <-; auto.
Qed.

Lemma derefChunks_weaken (h h' : gmap loc object) (ls : list loc) objs :
  h ⊆ h' -> derefChunks h ls = Some objs -> derefChunks h' ls = Some objs.
Proof.
  intros Hsub. revert objs. induction ls as [|l ls IH]; intros objs; [auto|].
  cbn [derefChunks].
  destruct (h !! l) as [[fields|elems]|] eqn:Hl; try discriminate.
  destruct (derefChunks h ls) as [rest|]; [|discriminate].
  intros H. rewrite (lookup_weaken _ _ _ _ Hl Hsub), (IH rest eq_refl). exact H.
Qed.

Lemma derefChunks_app (h : gmap loc object) (ls1 ls2 : list loc) objs1 objs2 :
  derefChunks h ls1 = Some objs1 -> derefChunks h ls2 = Some objs2 ->
  derefChunks h (ls1 ++ ls2)%list = Some (objs1 ++ objs2)%list.
Proof.
  revert objs1. induction ls1 as [|l ls1 IH]; intros objs1 H1 H2.
  - injection H1 as <-. exact H2.
  - cbn [derefChunks app] in *.
    destruct (h !! l) as [[fields|elems]|]; try discriminate.
    destruct (derefChunks h ls1) as [rest|]; [|discriminate].
    injection H1 as <-. now rewrite (IH rest eq_refl H2).
Qed.

Lemma lookup_None_weaken (h h' : gmap loc object) (l : loc) :
  h ⊆ h' -> h' !! l = None -> h !! l = None.
Proof.
  intros Hsub Hn. destruct (h !! l) as [o|] eqn:Hl; [|reflexivity].
  rewrite (lookup_weaken _ _ _ _ Hl Hsub) in Hn. discriminate.
Qed.

Lemma allocAll_spec (objs : list ChunkObject) :
  forall st, exists ls st',
    allocAll objs st = (Normal ls, st') /\
    grows st st' /\
    derefChunks (heap st') ls = Some objs.
Proof.
  induction objs as [|o objs IH]; intros st.
  - exists [], st. repeat split; reflexivity.
  - destruct (alloc_spec (ChunkObj o) st) as (l & st1 & Ha & Hg & _ & Hl).
    destruct (IH st1) as (ls & st2 & Hall & Hg2 & Hd).
    exists (l :: ls), st2. split; [|split].
    + cbn [allocAll]. unfold bind. rewrite Ha, Hall. reflexivity.
    + eapply grows_trans; eassumption.
    + cbn [derefChunks]. rewrite (lookup_weaken _ _ _ _ Hl (proj1 Hg2)), Hd.
      reflexivity.
Qed.

Lemma parseMarkdownChunks_spec (content filename : string) (st : Store) :
  exists arr ls st',
    parseMarkdownChunks content filename st = (Normal arr, st') /\
    grows st st' /\
    heap st' !! arr = Some (ArrayObj ls) /\
    derefChunks (heap st') ls =
      Some (map ofChunk (Knowledge.parseMarkdownChunks content filename)).
Proof.
  destruct (allocAll_spec
              (map ofChunk (Knowledge.parseMarkdownChunks content filename)) st)
    as (ls & st1 & Hall & Hg & Hd).
  destruct (alloc_spec (ArrayObj ls) st1) as (arr & st2 & Ha & Hg2 & _ & Hl).
  exists arr, ls, st2. split; [|split; [|split]].
  - unfold parseMarkdownChunks, bind. rewrite Hall, Ha. reflexivity.
  - eapply grows_trans; eassumption.
  - exact Hl.
  - eapply derefChunks_weaken; [apply Hg2|exact Hd].
Qed.

Lemma readFiles_spec (files : list DirEntry) :
  forall acc accChunks st,
  derefChunks (heap st) acc = Some (map ofChunk accChunks) ->
  match Knowledge.readFiles files accChunks with
  | Normal chunks =>
      exists ls st',
        readFiles files acc st = (Normal ls, st') /\
        grows st st' /\
        derefChunks (heap st') ls = Some (map ofChunk chunks)
  | Throw e =>
      exists st', readFiles files acc st = (Throw e, st') /\ grows st st'
  end.
Proof.
  induction files as [|f files IH]; intros acc accChunks st Hacc.
  - cbn. exists acc, st. repeat split; [reflexivity|exact Hacc].
  - cbn [Knowledge.readFiles readFiles].
    destruct (contents f) as [content|].
    + destruct (parseMarkdownChunks_spec content (Knowledge.basename_md (file f)) st)
        as (arr & ls & st1 & Hp & Hg & Hl & Hd).
      assert (derefChunks (heap st1) (acc ++ ls)%list =
              Some (map ofChunk
                      (accChunks ++
                       Knowledge.parseMarkdownChunks content
                         (Knowledge.basename_md (file f)))%list)) as Hacc1.
      { rewrite map_app. apply derefChunks_app; [|exact Hd].
        eapply derefChunks_weaken; [apply Hg|exact Hacc]. }
      specialize (IH _ _ _ Hacc1).
      assert (forall k : list loc -> Eff Store (list loc),
                bind (parseMarkdownChunks content (Knowledge.basename_md (file f)))
                  (fun chunks => bind (readArray chunks) k) st = k ls st1) as Hstep.
      { intros k. unfold bind at 1. rewrite Hp. unfold bind, readArray.
        now rewrite Hl. }
      rewrite Hstep.
      destruct (Knowledge.readFiles files _) as [chunks|e].
      * destruct IH as (ls' & st2 & Hr & Hg2 & Hd2).
        exists ls', st2. split; [exact Hr|]. split; [|exact Hd2].
        eapply grows_trans; eassumption.
      * destruct IH as (st2 & Hr & Hg2).
        exists st2. split; [exact Hr|]. eapply grows_trans; eassumption.
    + exists st. split; [reflexivity|apply grows_refl].
Qed.

Lemma loadKnowledge_returns_cache env (st : Store) (arr : loc) :
  chunksCache st = Some arr -> loadKnowledge env st = (Normal arr, st).
Proof.
  intros H. unfold loadKnowledge, bind, get_chunksCache. now rewrite H.
Qed.

Lemma loadKnowledge_spec env (st : Store) :
  chunksCache st = None ->
  match parsedCorpus env with
  | Normal chunks =>
      exists arr st',
        loadKnowledge env st = (Normal arr, st') /\
        heap st ⊆ heap st' /\
        chunksCache st' = Some arr /\
        cachedChunks st' = Some (map ofChunk chunks)
  | Throw e =>
      exists st', loadKnowledge env st = (Throw e, st') /\ grows st st'
  end.
Proof.
  intros Hnone. unfold parsedCorpus.
  assert (forall k : option loc -> Eff Store loc,
            bind get_chunksCache k st = k None st) as Hget
    by (intros k; unfold bind, get_chunksCache; now rewrite Hnone).
  unfold loadKnowledge. rewrite Hget. clear Hget.
  destruct (knowledgeDir env) as [entries|].
  - pose proof (readFiles_spec
                  (List.filter (fun f => Js.endsWith (file f) ".md") entries)
                  [] [] st eq_refl) as Hr.
    destruct (Knowledge.readFiles _ []) as [chunks|e].
    + destruct Hr as (ls & st1 & Hr & Hg & Hd).
      destruct (alloc_spec (ArrayObj ls) st1) as (arr & st2 & Ha & Hg2 & _ & Hl).
      exists arr, {| heap := heap st2; chunksCache := Some arr |}.
      split; [|split; [|split]].
      * cbv zeta. unfold bind. rewrite Hr, Ha. reflexivity.
      * cbn [heap]. etransitivity; [apply Hg|apply Hg2].
      * reflexivity.
      * unfold cachedChunks. cbn [heap chunksCache]. rewrite Hl.
        eapply derefChunks_weaken; [apply Hg2|exact Hd].
    + destruct Hr as (st1 & Hr & Hg). exists st1. split; [|exact Hg].
      cbv zeta. unfold bind. rewrite Hr. reflexivity.
  - destruct (alloc_spec (ArrayObj []) st) as (arr & st2 & Ha & Hg2 & _ & Hl).
    exists arr, {| heap := heap st2; chunksCache := Some arr |}.
    split; [|split; [|split]].
    + unfold bind. rewrite Ha. reflexivity.
    + apply Hg2.
    + reflexivity.
    + unfold cachedChunks. cbn [heap chunksCache]. now rewrite Hl.
Qed.

Lemma cachedChunks_grows (st st' : Store) objs :
  grows st st' -> cachedChunks st = Some objs -> cachedChunks st' = Some objs.
Proof.
  intros [Hsub Hc]. unfold cachedChunks. rewrite Hc.
  destruct (chunksCache st) as [arr|]; [|discriminate].
  destruct (heap st !! arr) as [[fields|elems]|] eqn:Ha; try discriminate.
  rewrite (lookup_weaken _ _ _ _ Ha Hsub). now apply derefChunks_weaken.
Qed.

Ltac inv_bind H :=
  let a := fresh "a" in
  let st1 := fresh "st" in
  let e := fresh "e" in
  let H1 := fresh "Hm" in
  apply bind_inv in H as [(a & st1 & H1 & H) | (e & H1 & ->)].

Section Queries.
Context {engine : RegExpEngine}.

Lemma mapScored_inv (query : string) (elems : list loc) :
  forall st res st',
  mapScored query elems st = (res, st') ->
  grows st st' /\
  match res with
  | Normal copies => Forall (fun l => heap st !! l = None) copies
  | Throw _ => True
  end.
Proof.
  induction elems as [|l elems IH]; intros st res st' H.
  - injection H as <- <-. split; [apply grows_refl|constructor].
  - cbn [mapScored] in H.
    inv_bind H; [|apply readChunk_inv in Hm as [-> _]; split; [apply grows_refl|exact I]].
    apply readChunk_inv in Hm as [-> _].
    inv_bind H; [|injection Hm as _ <-; split; [apply grows_refl|exact I]].
    injection Hm as _ <-.
    inv_bind H; [|apply alloc_inv in Hm as (? & ? & _); discriminate].
    apply alloc_inv in Hm as (copy & Hcopy & Hg & Hnone & _).
    injection Hcopy as <-.
    inv_bind H.
    + apply IH in Hm as [Hg' Hfresh]. injection H as <- <-.
      split; [eapply grows_trans; eassumption|].
      constructor; [assumption|].
      eapply List.Forall_impl; [|exact Hfresh].
      intros x Hx. eapply lookup_None_weaken; [apply Hg|exact Hx].
    + apply IH in Hm as [Hg' _]. split; [eapply grows_trans; eassumption|exact I].
Qed.

Lemma filterPositive_inv (elems : list loc) :
  forall st res st',
  filterPositive elems st = (res, st') ->
  st' = st /\
  match res with
  | Normal kept => forall l, In l kept -> In l elems
  | Throw _ => True
  end.
Proof.
  induction elems as [|l elems IH]; intros st res st' H.
  - injection H as <- <-. split; [reflexivity|]. intros l [].
  - cbn [filterPositive] in H.
    inv_bind H; [|apply readChunk_inv in Hm as [-> _]; split; [reflexivity|exact I]].
    apply readChunk_inv in Hm as [-> _].
    inv_bind H.
    + apply IH in Hm as [-> Hkept]. injection H as <- <-.
      split; [reflexivity|]. intros x Hx.
      destruct (scorePositive a); [destruct Hx as [<-|Hx]|]; cbn; auto.
    + apply IH in Hm as [-> _]. split; [reflexivity|exact I].
Qed.

Lemma sortInPlace_inv (arr : loc) (st : Store) res st' :
  sortInPlace arr st = (res, st') ->
  match res with
  | Normal sorted =>
      sorted = arr /\
      exists elems,
        heap st !! arr = Some (ArrayObj elems) /\
        st' = {| heap := <[arr := ArrayObj (Knowledge.sort (compareLocs (heap st)) elems)]>
                           (heap st);
                 chunksCache := chunksCache st |}
  | Throw _ => st' = st
  end.
Proof.
  unfold sortInPlace. destruct (heap st !! arr) as [[fields|elems]|];
    intros H; injection H as <- <-; eauto.
Qed.

Lemma In_slice0 {A} (k : Z) (l : list A) (x : A) :
  In x (Knowledge.slice0 k l) -> In x l.
Proof. unfold Knowledge.slice0. apply KnowledgeFacts.In_firstn. Qed.

(** What [findRelevantChunks] does after [loadKnowledge]: every object
    that existed then is kept as it is, the cache reference too, and the
    array it returns and the elements of that array are new. *)
Lemma findRelevantChunks_inv env query topK st res st' :
  findRelevantChunks env query topK st = (res, st') ->
  exists r1 st1,
    loadKnowledge env st = (r1, st1) /\
    grows st1 st' /\
    match res with
    | Normal ranked =>
        heap st1 !! ranked = None /\
        exists elems,
          heap st' !! ranked = Some (ArrayObj elems) /\
          Forall (fun l => heap st1 !! l = None) elems
    | Throw _ => True
    end.
Proof.
  intros H. unfold findRelevantChunks in H.
  inv_bind H; [|eexists _, _; split; [exact Hm|split; [apply grows_refl|exact I]]].
  rename a into chunks, st0 into st1, Hm into Hload.
  exists (Normal chunks), st1. split; [exact Hload|].
  inv_bind H; [|apply readArray_inv in Hm as [-> _]; split; [apply grows_refl|exact I]].
  apply readArray_inv in Hm as [-> _]. rename a into elems.
  inv_bind H; [|apply mapScored_inv in Hm as [Hg _]; split; [exact Hg|exact I]].
  apply mapScored_inv in Hm as [Hg2 Hfresh]. rename a into copies, st0 into st2.
  inv_bind H; [|apply alloc_inv in Hm as (? & ? & _); discriminate].
  apply alloc_inv in Hm as (mapped & Hmapped & Hg3 & _ & Hlm).
  injection Hmapped as <-. rename st0 into st3.
  assert (grows st1 st3) as Hg13 by (eapply grows_trans; eassumption).
  inv_bind H; [|apply readArray_inv in Hm as [-> _]; split; [exact Hg13|exact I]].
  apply readArray_inv in Hm as [-> Hscored]. rewrite Hlm in Hscored.
  injection Hscored as <-.
  inv_bind H; [|apply filterPositive_inv in Hm as [-> _]; split; [exact Hg13|exact I]].
  apply filterPositive_inv in Hm as [-> Hkept]. rename a0 into kept.
  inv_bind H; [|apply alloc_inv in Hm as (? & ? & _); discriminate].
  apply alloc_inv in Hm as (filtered & Hfiltered & Hg4 & Hnf & Hlf).
  injection Hfiltered as <-. rename st0 into st4.
  assert (grows st1 st4) as Hg14 by (eapply grows_trans; eassumption).
  assert (heap st1 !! a0 = None) as Hnf1
    by (eapply lookup_None_weaken; [apply Hg13|exact Hnf]).
  inv_bind H; [|apply sortInPlace_inv in Hm as ->; split; [exact Hg14|exact I]].
  apply sortInPlace_inv in Hm as (-> & elems' & Hle & ->).
  rewrite Hlf in Hle. injection Hle as <-.
  set (st5 := {| heap := _; chunksCache := _ |}) in *.
  assert (grows st1 st5) as Hg15.
  { destruct Hg14 as [Hsub Hc]. split; [|exact Hc].
    subst st5. cbn [heap]. now apply insert_subseteq_r. }
  inv_bind H; [|apply readArray_inv in Hm as [-> _]; split; [exact Hg15|exact I]].
  apply readArray_inv in Hm as [-> Hranked].
  subst st5. cbn [heap] in Hranked. rewrite lookup_insert_eq in Hranked.
  injection Hranked as <-.
  set (st5 := {| heap := _; chunksCache := _ |}) in *.
  apply alloc_inv in H as (ranked & -> & Hg6 & Hn6 & Hl6).
  split; [eapply grows_trans; eassumption|].
  split; [eapply lookup_None_weaken; [apply Hg15|exact Hn6]|].
  eexists. split; [exact Hl6|].
  apply List.Forall_forall. intros x Hx.
  apply In_slice0 in Hx.
  apply (Permutation_in _ (KnowledgeFacts.sort_perm _ _)) in Hx.
  apply Hkept in Hx.
  rewrite List.Forall_forall in Hfresh. apply Hfresh in Hx.
  eapply lookup_None_weaken; [|exact Hx]. reflexivity.
Qed.

Lemma findRelevantChunks_loaded env query topK st arr res st' :
  chunksCache st = Some arr ->
  findRelevantChunks env query topK st = (res, st') ->
  grows st st' /\
  match res with
  | Normal ranked =>
      heap st !! ranked = None /\
      exists elems,
        heap st' !! ranked = Some (ArrayObj elems) /\
        Forall (fun l => heap st !! l = None) elems
  | Throw _ => True
  end.
Proof.
  intros Hc H. apply findRelevantChunks_inv in H as (r1 & st1 & Hload & Hg & Hres).
  rewrite (loadKnowledge_returns_cache env st arr Hc) in Hload.
  injection Hload as _ <-. split; assumption.
Qed.

Lemma queries_keep env (qs : list (string * Z)) :
  forall st arr objs,
  chunksCache st = Some arr ->
  cachedChunks st = Some objs ->
  chunksCache (queries env qs st) = Some arr /\
  heap st ⊆ heap (queries env qs st) /\
  cachedChunks (queries env qs st) = Some objs.
Proof.
  induction qs as [|[query topK] qs IH]; intros st arr objs Hc Hobjs.
  - repeat split; [assumption|reflexivity|assumption].
  - cbn [queries].
    destruct (findRelevantChunks env query topK st) as [res st'] eqn:Hq.
    apply (findRelevantChunks_loaded _ _ _ _ arr) in Hq as [Hg _]; [|exact Hc].
    cbn [snd].
    assert (chunksCache st' = Some arr) as Hc' by (destruct Hg; congruence).
    pose proof (cachedChunks_grows _ _ _ Hg Hobjs) as Hobjs'.
    destruct (IH st' arr objs Hc' Hobjs') as (H1 & H2 & H3).
    repeat split; [assumption| |assumption].
    etransitivity; [apply Hg|exact H2].
Qed.

(** C10.  A call of [findRelevantChunks] leaves the cache as
    [loadKnowledge] returns it: [chunksCache] refers to the same array, and
    every object that existed then, the cached array and the cached chunk
    objects among them, is unchanged; on a loaded cache that is the state
    before the call.  The array the call returns and the scored chunks in it
    are new objects.  So after [loadKnowledge] and any number of queries the
    cached chunks are the objects [loadKnowledge] made of the parsed corpus:
    same [id], [title], [content] and [source], and no [score] field. *)
Theorem findRelevantChunks_leaves_cache_unchanged env :
  (forall query topK st res st',
     findRelevantChunks env query topK st = (res, st') ->
     exists r1 st1,
       loadKnowledge env st = (r1, st1) /\
       chunksCache st' = chunksCache st1 /\
       heap st1 ⊆ heap st' /\
       (forall objs, cachedChunks st1 = Some objs -> cachedChunks st' = Some objs)) /\
  (forall query topK st arr res st',
     chunksCache st = Some arr ->
     findRelevantChunks env query topK st = (res, st') ->
     chunksCache st' = Some arr /\
     heap st ⊆ heap st' /\
     (forall objs, cachedChunks st = Some objs -> cachedChunks st' = Some objs) /\
     (forall ranked, res = Normal ranked ->
        heap st !! ranked = None /\
        exists elems,
          heap st' !! ranked = Some (ArrayObj elems) /\
          Forall (fun l => heap st !! l = None) elems)) /\
  (forall st0 arr st1 qs,
     chunksCache st0 = None ->
     loadKnowledge env st0 = (Normal arr, st1) ->
     exists chunks,
       parsedCorpus env = Normal chunks /\
       cachedChunks st1 = Some (map ofChunk chunks) /\
       chunksCache (queries env qs st1) = Some arr /\
       heap st1 ⊆ heap (queries env qs st1) /\
       cachedChunks (queries env qs st1) = Some (map ofChunk chunks) /\
       Forall (fun o => o_score o = None) (map ofChunk chunks)).
Proof.
  split; [|split].
  - intros query topK st res st' Hq.
    apply findRelevantChunks_inv in Hq as (r1 & st1 & Hload & Hg & _).
    exists r1, st1. split; [exact Hload|]. split; [apply Hg|]. split; [apply Hg|].
    intros objs. now apply cachedChunks_grows.
  - intros query topK st arr res st' Hc Hq.
    apply (findRelevantChunks_loaded _ _ _ _ arr) in Hq as [Hg Hres]; [|exact Hc].
    split; [destruct Hg; congruence|]. split; [apply Hg|].
    split; [intros objs; now apply cachedChunks_grows|].
    intros ranked ->. exact Hres.
  - intros st0 arr st1 qs Hnone Hload.
    pose proof (loadKnowledge_spec env st0 Hnone) as Hspec.
    destruct (parsedCorpus env) as [chunks|e].
    + destruct Hspec as (arr' & st' & Hload' & _ & Hc & Hobjs).
      rewrite Hload in Hload'. injection Hload' as <- <-.
      exists chunks. split; [reflexivity|]. split; [exact Hobjs|].
      destruct (queries_keep env qs st1 arr _ Hc Hobjs) as (H1 & H2 & H3).
      repeat split; try assumption.
      apply List.Forall_forall. intros o Ho.
      apply in_map_iff in Ho as (c & <- & _). reflexivity.
    + destruct Hspec as (st' & Hload' & _). rewrite Hload in Hload'. discriminate.
Qed.

(** *** The store model refines the value model *)

Lemma toChunk_ofChunk (c : Chunk) : toChunk (ofChunk c) = c.
Proof. now destruct c. Qed.

Lemma derefChunks_cons_inv (h : gmap loc object) (ls : list loc) o objs :
  derefChunks h ls = Some (o :: objs) ->
  exists l rest,
    ls = l :: rest /\ h !! l = Some (ChunkObj o) /\ derefChunks h rest = Some objs.
Proof.
  destruct ls as [|l rest]; [discriminate|]. cbn [derefChunks].
  destruct (h !! l) as [[fields|elems]|] eqn:Hl; try discriminate.
  destruct (derefChunks h rest) as [objs'|] eqn:Hr; [|discriminate].
  intros H. injection H as <- <-. exists l, rest. auto.
Qed.

Lemma derefChunks_nil_inv (h : gmap loc object) (ls : list loc) :
  derefChunks h ls = Some [] -> ls = [].
Proof.
  destruct ls as [|l rest]; [reflexivity|]. cbn [derefChunks].
  destruct (h !! l) as [[fields|elems]|]; try discriminate.
  destruct (derefChunks h rest); discriminate.
Qed.

Lemma bind_normal {S A B} (m : Eff S A) (k : A -> Eff S B) (st st1 : S) (a : A) :
  m st = (Normal a, st1) -> bind m k st = k a st1.
Proof. unfold bind. now intros ->. Qed.

Lemma bind_throw {S A B} (m : Eff S A) (k : A -> Eff S B) (st st1 : S) (e : Exn) :
  m st = (Throw e, st1) -> bind m k st = (Throw e, st1).
Proof. unfold bind. now intros ->. Qed.

Lemma bind_lift {S A B} (c : Completion A) (k : A -> Eff S B) (st : S) :
  bind (lift c) k st =
    match c with
    | Normal a => k a st
    | Throw e => (Throw e, st)
    end.
Proof. unfold bind, lift. now destruct c. Qed.

Lemma mapScored_refines (query : string) (chunks : list Chunk) :
  forall elems st,
  derefChunks (heap st) elems = Some (map ofChunk chunks) ->
  match Knowledge.mapScored query chunks with
  | Normal scored =>
      exists copies st',
        mapScored query elems st = (Normal copies, st') /\
        grows st st' /\
        derefChunks (heap st') copies = Some (map scoredObject scored)
  | Throw e =>
      exists st', mapScored query elems st = (Throw e, st') /\ grows st st'
  end.
Proof.
  induction chunks as [|c chunks IH]; intros elems st Hd.
  - apply derefChunks_nil_inv in Hd as ->. cbn.
    exists [], st. repeat split; reflexivity.
  - cbn [map] in Hd. apply derefChunks_cons_inv in Hd as (l & rest & -> & Hl & Hrest).
    assert (readChunk l st = (Normal (ofChunk c), st)) as Hread
      by (unfold readChunk; now rewrite Hl).
    cbn [Knowledge.mapScored mapScored].
    destruct (Knowledge.scoreChunk query c) as [s|e] eqn:Hs.
    2:{ exists st. split; [|apply grows_refl].
        rewrite (bind_normal _ _ _ _ _ Hread), bind_lift, toChunk_ofChunk, Hs.
        reflexivity. }
    destruct (alloc_spec
                (ChunkObj {| o_id := o_id (ofChunk c); o_title := o_title (ofChunk c);
                             o_content := o_content (ofChunk c);
                             o_source := o_source (ofChunk c);
                             o_score := Some s |}) st)
      as (copy & st1 & Ha & Hg & _ & Hcopy).
    assert (derefChunks (heap st1) rest = Some (map ofChunk chunks)) as Hrest1
      by (eapply derefChunks_weaken; [apply Hg|exact Hrest]).
    specialize (IH rest st1 Hrest1).
    destruct (Knowledge.mapScored query chunks) as [scored|e].
    + destruct IH as (copies & st2 & Hm & Hg2 & Hd2).
      exists (copy :: copies), st2. split; [|split].
      * rewrite (bind_normal _ _ _ _ _ Hread), bind_lift, toChunk_ofChunk, Hs.
        rewrite (bind_normal _ _ _ _ _ Ha), (bind_normal _ _ _ _ _ Hm). reflexivity.
      * eapply grows_trans; eassumption.
      * cbn [derefChunks map]. rewrite (lookup_weaken _ _ _ _ Hcopy (proj1 Hg2)), Hd2.
        reflexivity.
    + destruct IH as (st2 & Hm & Hg2).
      exists st2. split; [|eapply grows_trans; eassumption].
      rewrite (bind_normal _ _ _ _ _ Hread), bind_lift, toChunk_ofChunk, Hs.
      rewrite (bind_normal _ _ _ _ _ Ha), (bind_throw _ _ _ _ _ Hm). reflexivity.
Qed.

Lemma filterPositive_refines (scored : list ScoredChunk) :
  forall elems st,
  derefChunks (heap st) elems = Some (map scoredObject scored) ->
  exists kept,
    filterPositive elems st = (Normal kept, st) /\
    derefChunks (heap st) kept =
      Some (map scoredObject (List.filter (fun c => (0 <? score c)%nat) scored)).
Proof.
  induction scored as [|sc scored IH]; intros elems st Hd.
  - apply derefChunks_nil_inv in Hd as ->. exists []. split; reflexivity.
  - cbn [map] in Hd. apply derefChunks_cons_inv in Hd as (l & rest & -> & Hl & Hrest).
    destruct (IH rest st Hrest) as (kept & Hf & Hk).
    cbn [filterPositive]. unfold bind at 1. unfold readChunk at 1. rewrite Hl.
    unfold bind at 1. rewrite Hf. unfold ret.
    unfold scorePositive. cbn [scoredObject o_score List.filter].
    destruct (0 <? score sc)%nat.
    + exists (l :: kept). split; [reflexivity|].
      cbn [derefChunks map]. now rewrite Hl, Hk.
    + exists kept. split; [reflexivity|exact Hk].
Qed.

Lemma insertSorted_refines (h : gmap loc object) (l : loc) (sc : ScoredChunk) :
  h !! l = Some (ChunkObj (scoredObject sc)) ->
  forall scored ls,
  derefChunks h ls = Some (map scoredObject scored) ->
  derefChunks h (Knowledge.insertSorted (compareLocs h) l ls) =
    Some (map scoredObject (Knowledge.insertSorted Knowledge.byScoreDesc sc scored)).
Proof.
  intros Hl. induction scored as [|y scored IH]; intros ls Hd.
  - apply derefChunks_nil_inv in Hd as ->. cbn. now rewrite Hl.
  - cbn [map] in Hd. apply derefChunks_cons_inv in Hd as (ly & rest & -> & Hy & Hrest).
    cbn [Knowledge.insertSorted].
    assert (compareLocs h l ly = Knowledge.byScoreDesc sc y) as ->
      by (unfold compareLocs; now rewrite Hl, Hy).
    destruct (Knowledge.byScoreDesc sc y <=? 0).
    + cbn [derefChunks map]. now rewrite Hl, Hy, Hrest.
    + cbn [derefChunks map]. now rewrite Hy, (IH rest Hrest).
Qed.

Lemma sort_refines (h : gmap loc object) (scored : list ScoredChunk) :
  forall ls,
  derefChunks h ls = Some (map scoredObject scored) ->
  derefChunks h (Knowledge.sort (compareLocs h) ls) =
    Some (map scoredObject (Knowledge.sort Knowledge.byScoreDesc scored)).
Proof.
  induction scored as [|sc scored IH]; intros ls Hd.
  - now apply derefChunks_nil_inv in Hd as ->.
  - cbn [map] in Hd. apply derefChunks_cons_inv in Hd as (l & rest & -> & Hl & Hrest).
    cbn [Knowledge.sort]. apply insertSorted_refines; [exact Hl|now apply IH].
Qed.

Lemma derefChunks_length (h : gmap loc object) (ls : list loc) objs :
  derefChunks h ls = Some objs -> List.length ls = List.length objs.
Proof.
  revert objs. induction ls as [|l ls IH]; intros objs.
  - intros H. now injection H as <-.
  - cbn [derefChunks]. destruct (h !! l) as [[fields|elems]|]; try discriminate.
    destruct (derefChunks h ls) as [rest|]; [|discriminate].
    intros H. injection H as <-. cbn. now rewrite (IH rest eq_refl).
Qed.

Lemma derefChunks_firstn (h : gmap loc object) (n : nat) :
  forall ls objs,
  derefChunks h ls = Some objs ->
  derefChunks h (firstn n ls) = Some (firstn n objs).
Proof.
  induction n as [|n IH]; intros ls objs Hd; [reflexivity|].
  destruct ls as [|l ls].
  - injection Hd as <-. reflexivity.
  - cbn [derefChunks] in Hd.
    destruct (h !! l) as [[fields|elems]|] eqn:Hl; try discriminate.
    destruct (derefChunks h ls) as [rest|] eqn:Hrest; [|discriminate].
    injection Hd as <-. cbn [firstn derefChunks]. now rewrite Hl, (IH ls rest Hrest).
Qed.

Lemma slice0_refines (h : gmap loc object) (k : Z) (ls : list loc)
    (scored : list ScoredChunk) :
  derefChunks h ls = Some (map scoredObject scored) ->
  derefChunks h (Knowledge.slice0 k ls) =
    Some (map scoredObject (Knowledge.slice0 k scored)).
Proof.
  intros Hd. unfold Knowledge.slice0.
  rewrite (derefChunks_length _ _ _ Hd), length_map.
  rewrite <- firstn_map. now apply derefChunks_firstn.
Qed.

End Queries.

(** The cache of the [guide] corpus after two queries, one of which
    throws. *)
Example cache_after_two_queries :
  cachedChunks
    (queries (engine := RefEngine.engine) Fixtures.unauthorized
       [("...", 3); ("Is there a C++ client?", 2)]
       (snd (loadKnowledge Fixtures.unauthorized initial))) =
  Some (map ofChunk Fixtures.guideChunks).
Proof. vm_compute. reflexivity. Qed.

End ObjectsFacts.

(** ** The two models of the knowledge store agree *)

Module RefinementFacts.
Import ObjectsFacts.

Lemma derefChunks_insert_array (h : gmap positive Objects.object) (a : positive)
    (old new : list positive) (ls : list positive) objs :
  h !! a = Some (Objects.ArrayObj old) ->
  Objects.derefChunks h ls = Some objs ->
  Objects.derefChunks (<[a := Objects.ArrayObj new]> h) ls = Some objs.
Proof.
  intros Ha. revert objs. induction ls as [|l ls IH]; intros objs; [auto|].
  cbn [Objects.derefChunks].
  destruct (h !! l) as [[fields|elems]|] eqn:Hl; try discriminate.
  destruct (Objects.derefChunks h ls) as [rest|]; [|discriminate].
  intros H. assert (a <> l) as Hne by congruence.
  rewrite lookup_insert_ne by exact Hne. rewrite Hl, (IH rest eq_refl). exact H.
Qed.

Lemma cachedChunks_inv (st : Objects.Store) objs :
  Objects.cachedChunks st = Some objs ->
  exists arr elems,
    Objects.chunksCache st = Some arr /\
    Objects.heap st !! arr = Some (Objects.ArrayObj elems) /\
    Objects.derefChunks (Objects.heap st) elems = Some objs.
Proof.
  unfold Objects.cachedChunks.
  destruct (Objects.chunksCache st) as [arr|]; [|discriminate].
  destruct (Objects.heap st !! arr) as [[fields|elems]|] eqn:Ha; try discriminate.
  intros H. exists arr, elems. auto.
Qed.

Section Refinement.
Context {engine : RegExpEngine}.

(** [loadKnowledge] on corresponding states: the same chunks, as objects. *)
Lemma loadKnowledge_refines env (w : World) (st : Objects.Store) :
  corresponds w st ->
  match Knowledge.loadKnowledge env w with
  | (Normal chunks, w1) =>
      exists arr elems st1,
        Objects.loadKnowledge env st = (Normal arr, st1) /\
        chunksCache w1 = Some chunks /\
        Objects.chunksCache st1 = Some arr /\
        Objects.heap st1 !! arr = Some (Objects.ArrayObj elems) /\
        Objects.derefChunks (Objects.heap st1) elems =
          Some (map Objects.ofChunk chunks)
  | (Throw e, w1) =>
      exists st1,
        Objects.loadKnowledge env st = (Throw e, st1) /\ corresponds w1 st1
  end.
Proof.
  unfold corresponds. intros Hc.
  destruct (chunksCache w) as [chunks|] eqn:Hw.
  - rewrite (KnowledgeFacts.loadKnowledge_cached env w chunks Hw).
    apply cachedChunks_inv in Hc as (arr & elems & Hcache & Ha & Hd).
    exists arr, elems, st. repeat split; try assumption.
    now apply loadKnowledge_returns_cache.
  - rewrite (KnowledgeFacts.loadKnowledge_uncached env w Hw).
    pose proof (loadKnowledge_spec env st Hc) as Hspec.
    destruct (Objects.parsedCorpus env) as [chunks|e].
    + destruct Hspec as (arr & st1 & Hload & _ & Hcache & Hobjs).
      apply cachedChunks_inv in Hobjs as (arr' & elems & Hcache' & Ha & Hd).
      rewrite Hcache in Hcache'. injection Hcache' as <-.
      exists arr, elems, st1. repeat split; assumption.
    + destruct Hspec as (st1 & Hload & Hg). exists st1. split; [exact Hload|].
      rewrite Hw. destruct Hg as [_ Hg]. congruence.
Qed.

(** The store model refines the value model.  On corresponding states the
    two [findRelevantChunks] throw the same exception or return the same
    sequence of scored chunks, the store model as a new array of objects,
    and they leave corresponding states. *)
Theorem findRelevantChunks_refines env query topK (w : World) (st : Objects.Store) :
  corresponds w st ->
  match Knowledge.findRelevantChunks env query topK w,
        Objects.findRelevantChunks env query topK st with
  | (Normal result, w'), (res, st') =>
      corresponds w' st' /\
      exists arr elems,
        res = Normal arr /\
        Objects.heap st' !! arr = Some (Objects.ArrayObj elems) /\
        Objects.derefChunks (Objects.heap st') elems =
          Some (map Objects.scoredObject result)
  | (Throw e, w'), (res, st') => corresponds w' st' /\ res = Throw e
  end.
Proof.
  intros Hc. pose proof (loadKnowledge_refines env w st Hc) as Hload.
  rewrite KnowledgeFacts.findRelevantChunks_unfold.
  destruct (Objects.findRelevantChunks env query topK st) as [res st'] eqn:Hfind.
  pose proof (findRelevantChunks_inv _ _ _ _ _ _ Hfind) as (r1 & st1' & Hl1 & Hgrow & _).
  unfold Objects.findRelevantChunks in Hfind.
  destruct (Knowledge.loadKnowledge env w) as [[chunks|e] w1].
  2:{ destruct Hload as (st1 & Hl & Hc1).
      rewrite (bind_throw _ _ _ _ _ Hl) in Hfind. injection Hfind as <- <-.
      split; [exact Hc1|reflexivity]. }
  destruct Hload as (arr & elems & st1 & Hl & Hw1 & Hcache & Ha & Hd).
  rewrite Hl in Hl1. injection Hl1 as <- <-.
  assert (corresponds w1 st') as Hc'.
  { unfold corresponds. rewrite Hw1.
    apply (cachedChunks_grows st1 st' _ Hgrow).
    unfold Objects.cachedChunks. now rewrite Hcache, Ha. }
  rewrite (bind_normal _ _ _ _ _ Hl) in Hfind.
  assert (Objects.readArray arr st1 = (Normal elems, st1)) as Hra
    by (unfold Objects.readArray; now rewrite Ha).
  rewrite (bind_normal _ _ _ _ _ Hra) in Hfind.
  pose proof (mapScored_refines query chunks elems st1 Hd) as Hmap.
  destruct (Knowledge.mapScored query chunks) as [scored|e].
  2:{ destruct Hmap as (st2 & Hm & _).
      rewrite (bind_throw _ _ _ _ _ Hm) in Hfind. injection Hfind as <- <-.
      split; [exact Hc'|reflexivity]. }
  destruct Hmap as (copies & st2 & Hm & Hg2 & Hd2).
  rewrite (bind_normal _ _ _ _ _ Hm) in Hfind.
  destruct (alloc_spec (Objects.ArrayObj copies) st2)
    as (mapped & st3 & Ham & Hg3 & _ & Hlm).
  rewrite (bind_normal _ _ _ _ _ Ham) in Hfind.
  assert (Objects.readArray mapped st3 = (Normal copies, st3)) as Hrm
    by (unfold Objects.readArray; now rewrite Hlm).
  rewrite (bind_normal _ _ _ _ _ Hrm) in Hfind.
  assert (Objects.derefChunks (Objects.heap st3) copies =
          Some (map Objects.scoredObject scored)) as Hd3
    by (eapply derefChunks_weaken; [apply Hg3|exact Hd2]).
  destruct (filterPositive_refines scored copies st3 Hd3) as (kept & Hf & Hk).
  rewrite (bind_normal _ _ _ _ _ Hf) in Hfind.
  destruct (alloc_spec (Objects.ArrayObj kept) st3)
    as (filtered & st4 & Haf & Hg4 & _ & Hlf).
  rewrite (bind_normal _ _ _ _ _ Haf) in Hfind.
  assert (Objects.derefChunks (Objects.heap st4) kept =
          Some (map Objects.scoredObject
                  (List.filter (fun c => (0 <? score c)%nat) scored))) as Hk4
    by (eapply derefChunks_weaken; [apply Hg4|exact Hk]).
  pose proof (sort_refines (Objects.heap st4) _ kept Hk4) as Hsorted.
  set (sortedLocs := Knowledge.sort (Objects.compareLocs (Objects.heap st4)) kept) in *.
  set (st5 := {| Objects.heap :=
                   <[filtered := Objects.ArrayObj sortedLocs]> (Objects.heap st4);
                 Objects.chunksCache := Objects.chunksCache st4 |}).
  assert (Objects.sortInPlace filtered st4 = (Normal filtered, st5)) as Hsort
    by (unfold Objects.sortInPlace; now rewrite Hlf).
  rewrite (bind_normal _ _ _ _ _ Hsort) in Hfind.
  assert (Objects.readArray filtered st5 = (Normal sortedLocs, st5)) as Hrs
    by (unfold Objects.readArray, st5; cbn [Objects.heap];
        now rewrite lookup_insert_eq).
  rewrite (bind_normal _ _ _ _ _ Hrs) in Hfind.
  destruct (alloc_spec (Objects.ArrayObj (Knowledge.slice0 topK sortedLocs)) st5)
    as (ranked & st6 & Har & Hg6 & _ & Hlr).
  rewrite Har in Hfind. injection Hfind as <- <-.
  split; [exact Hc'|].
  exists ranked, (Knowledge.slice0 topK sortedLocs).
  split; [reflexivity|]. split; [exact Hlr|].
  unfold Knowledge.rank. eapply derefChunks_weaken; [apply Hg6|].
  apply slice0_refines. unfold st5. cbn [Objects.heap].
  eapply derefChunks_insert_array; [exact Hlf|exact Hsorted].
Qed.

End Refinement.

End RefinementFacts.

(** ** Strings *)

Module JsFacts.
Import Js.

Lemma append_nil_r (s : string) : s ++ "" = s.
Proof.
  induction s as [|c s IH]; [reflexivity|].
  change (String c s ++ "") with (String c (s ++ "")). now rewrite IH.
Qed.

Lemma append_cons (c : ascii) (a b : string) : String c a ++ b = String c (a ++ b).
Proof. reflexivity. Qed.

Lemma append_assoc (a b c : string) : (a ++ b) ++ c = a ++ (b ++ c).
Proof.
  induction a as [|x a IH]; [reflexivity|].
  rewrite !append_cons. now rewrite IH.
Qed.

Lemma trimStart_blank (s : string) :
  forallb isWhiteSpace (chars s) = true -> trimStart s = "".
Proof.
  induction s as [|c s IH]; [reflexivity|].
  cbn [chars list_ascii_of_string forallb trimStart].
  intros H. apply andb_true_iff in H as [Hc Hs]. rewrite Hc. now apply IH.
Qed.

Lemma trim_blank (s : string) :
  forallb isWhiteSpace (chars s) = true -> trim s = "".
Proof. intros H. unfold trim. now rewrite trimStart_blank. Qed.

Lemma trimEnd_idem (s : string) : trimEnd (trimEnd s) = trimEnd s.
Proof.
  induction s as [|c s IH]; [reflexivity|].
  cbn [trimEnd]. destruct (trimEnd s) as [|x rest] eqn:Hs.
  - destruct (isWhiteSpace c) eqn:Hc; [reflexivity|].
    cbn [trimEnd]. now rewrite Hc.
  - cbn [trimEnd]. cbn [trimEnd] in IH. now rewrite IH.
Qed.

(** What [trimEnd] keeps of a string that starts with a character other
    than white space starts with that character. *)
Lemma trimEnd_head (c : ascii) (s : string) :
  isWhiteSpace c = false -> exists r, trimEnd (String c s) = String c r.
Proof.
  intros Hc. cbn [trimEnd]. destruct (trimEnd s); rewrite ?Hc; eauto.
Qed.

Lemma trimStart_head (s : string) :
  trimStart s = "" \/
  exists c r, trimStart s = String c r /\ isWhiteSpace c = false.
Proof.
  induction s as [|c s IH]; [now left|].
  cbn [trimStart]. destruct (isWhiteSpace c) eqn:Hc; [exact IH|].
  right. eauto.
Qed.

Lemma trimStart_trim (s : string) : trimStart (trim s) = trim s.
Proof.
  unfold trim. destruct (trimStart_head s) as [-> | (c & r & -> & Hc)];
    [reflexivity|].
  destruct (trimEnd_head c r Hc) as (r' & ->). cbn [trimStart]. now rewrite Hc.
Qed.

Lemma trim_idem (s : string) : trim (trim s) = trim s.
Proof.
  unfold trim at 1. rewrite trimStart_trim. unfold trim. apply trimEnd_idem.
Qed.

Lemma trimEnd_trim (s : string) : trimEnd (trim s) = trim s.
Proof. unfold trim. apply trimEnd_idem. Qed.

Lemma trimEnd_append (a b : string) :
  trimEnd b <> "" -> trimEnd (a ++ b) = a ++ trimEnd b.
Proof.
  intros Hb. induction a as [|c a IH]; [reflexivity|].
  rewrite !append_cons. cbn [trimEnd]. rewrite IH.
  destruct (a ++ trimEnd b) eqn:Hab; [|reflexivity].
  destruct a; [|discriminate]. now destruct Hb.
Qed.

(** A string [trimEnd] keeps whole is kept whole after any prefix. *)
Lemma trimEnd_kept (a b : string) :
  trimEnd b = b -> b <> "" -> trimEnd (a ++ b) = a ++ b /\ a ++ b <> "".
Proof.
  intros Hb Hne. split.
  - rewrite trimEnd_append; rewrite Hb; [reflexivity|exact Hne].
  - destruct a; [exact Hne|discriminate].
Qed.

Lemma trimStart_length (s : string) :
  (String.length (trimStart s) <= String.length s)%nat.
Proof.
  induction s as [|c s IH]; [reflexivity|].
  cbn [trimStart]. destruct (isWhiteSpace c); cbn [String.length]; lia.
Qed.

Lemma trimEnd_length (s : string) :
  (String.length (trimEnd s) <= String.length s)%nat.
Proof.
  induction s as [|c s IH]; [reflexivity|].
  cbn [trimEnd]. destruct (trimEnd s) as [|x rest].
  - destruct (isWhiteSpace c); cbn [String.length]; lia.
  - cbn [String.length] in *. lia.
Qed.

Lemma trim_length (s : string) : (String.length (trim s) <= String.length s)%nat.
Proof.
  unfold trim. pose proof (trimEnd_length (trimStart s)).
  pose proof (trimStart_length s). lia.
Qed.

Lemma lowerChar_idem (c : ascii) : lowerChar (lowerChar c) = lowerChar c.
Proof. destruct c as [[] [] [] [] [] [] [] []]; reflexivity. Qed.

Lemma lowerChar_not_upper (c : ascii) : isUpper (lowerChar c) = false.
Proof. destruct c as [[] [] [] [] [] [] [] []]; reflexivity. Qed.

Lemma lowerChar_whiteSpace (c : ascii) :
  isWhiteSpace (lowerChar c) = isWhiteSpace c.
Proof. destruct c as [[] [] [] [] [] [] [] []]; reflexivity. Qed.

Lemma toLowerCase_idem (s : string) : toLowerCase (toLowerCase s) = toLowerCase s.
Proof.
  induction s as [|c s IH]; [reflexivity|].
  cbn [toLowerCase]. now rewrite lowerChar_idem, IH.
Qed.

Lemma toLowerCase_length (s : string) :
  String.length (toLowerCase s) = String.length s.
Proof.
  induction s as [|c s IH]; [reflexivity|]. cbn [toLowerCase String.length].
  now rewrite IH.
Qed.

(** Lower-casing commutes with splitting at white space. *)
Lemma splitWs_toLowerCase (s : string) :
  forall inRun cur,
  splitWs inRun (toLowerCase cur) (toLowerCase s) =
    map toLowerCase (splitWs inRun cur s).
Proof.
  induction s as [|c s IH]; intros inRun cur; [reflexivity|].
  cbn [toLowerCase splitWs]. rewrite lowerChar_whiteSpace.
  destruct (isWhiteSpace c).
  - destruct inRun; cbn [map]; now rewrite <- (IH true "").
  - rewrite <- IH. now rewrite RefEngineFacts.toLowerCase_app.
Qed.

Lemma split_whitespace_toLowerCase (s : string) :
  split_whitespace (toLowerCase s) = map toLowerCase (split_whitespace s).
Proof. exact (splitWs_toLowerCase s false ""). Qed.

Lemma forallb_chars_append (p : ascii -> bool) (a b : string) :
  forallb p (chars (a ++ b)) = forallb p (chars a) && forallb p (chars b).
Proof.
  induction a as [|c a IH]; [reflexivity|].
  rewrite append_cons. cbn [chars list_ascii_of_string forallb].
  fold (chars (a ++ b)). fold (chars a). now rewrite IH, andb_assoc.
Qed.

(** The pieces of a split at white space keep a property of the characters
    that are not white space. *)
Lemma splitWs_pieces (p : ascii -> bool) (s : string) :
  (forall c, In c (chars s) -> isWhiteSpace c = false -> p c = true) ->
  forall inRun cur,
  forallb p (chars cur) = true ->
  Forall (fun t => forallb p (chars t) = true) (splitWs inRun cur s).
Proof.
  induction s as [|c s IH]; intros Hs inRun cur Hcur.
  - repeat constructor. exact Hcur.
  - cbn [splitWs].
    assert (forall c0, In c0 (chars s) -> isWhiteSpace c0 = false -> p c0 = true)
      as Hs'.
    { intros c0 Hin. apply Hs. now right. }
    destruct (isWhiteSpace c) eqn:Hc.
    + destruct inRun; [now apply IH|]. constructor; [exact Hcur|now apply IH].
    + apply IH; [exact Hs'|]. rewrite forallb_chars_append, Hcur.
      cbn. rewrite andb_true_r. apply Hs; [now left|exact Hc].
Qed.

Lemma toLowerCase_chars (s : string) (c : ascii) :
  In c (chars (toLowerCase s)) -> isUpper c = false.
Proof.
  induction s as [|x s IH]; [intros []|].
  cbn [toLowerCase chars list_ascii_of_string In]. intros [<- | H].
  - apply lowerChar_not_upper.
  - now apply IH.
Qed.

Lemma prefix_refl (s : string) : String.prefix s s = true.
Proof.
  induction s as [|c s IH]; [reflexivity|]. cbn [String.prefix].
  destruct (ascii_dec c c); [exact IH|congruence].
Qed.

Lemma includes_refl (s : string) : includes s s = true.
Proof. destruct s; cbn [includes]; now rewrite prefix_refl. Qed.

Lemma includes_after (a b t : string) :
  includes b t = true -> includes (a ++ b) t = true.
Proof.
  intros H. induction a as [|x a IH]; [exact H|].
  rewrite append_cons. cbn [includes]. rewrite IH. apply orb_true_r.
Qed.

Lemma join_includes (sep : string) (parts : list string) (p : string) :
  In p parts -> includes (join sep parts) p = true.
Proof.
  induction parts as [|x parts IH]; [intros []|].
  intros [-> | Hin].
  - destruct parts as [|y parts]; cbn [join]; [apply includes_refl|].
    apply RefEngineFacts.includes_app, includes_refl.
  - destruct parts as [|y parts]; [destruct Hin|]. cbn [join].
    apply includes_after, includes_after, IH, Hin.
Qed.

Lemma substring_split (s : string) :
  forall m, (m <= String.length s)%nat ->
  substring 0 m s ++ substring m (String.length s - m) s = s.
Proof.
  induction s as [|c s IH]; intros m Hm.
  - destruct m; reflexivity.
  - destruct m as [|m].
    + cbn [substring String.length Nat.sub]. change ("" ++ ?x) with x.
      f_equal. clear. induction s as [|x s IH]; [reflexivity|].
      cbn [substring String.length]. now rewrite IH.
    + cbn [String.length] in Hm. cbn [substring String.length Nat.sub].
      rewrite append_cons. f_equal. apply IH. lia.
Qed.

End JsFacts.

(** ** The model gateway, attempt by attempt *)

Module RetryFacts.
Import Claude Retry ClaudeFacts.

Lemma retryable_true (error : ApiError) :
  retryable error -> status_truthy error && isRetryableError error = true.
Proof. intros (s & Hs & Hr). exact (retryable_status_truthy _ _ Hs Hr). Qed.

Lemma not_retryable_false (error : ApiError) :
  ~ retryable error -> status_truthy error && isRetryableError error = false.
Proof.
  intros Hn. apply other_status_not_retryable.
  destruct (status error) as [s|] eqn:Hs; [|exact I].
  repeat split.
  - intros ->. apply Hn. exists 429. split; [exact Hs|now left].
  - intros ->. apply Hn. exists 529. split; [exact Hs|right; now left].
  - destruct (Z_lt_le_dec s 500) as [H|H]; [exact H|].
    destruct Hn. exists s. split; [exact Hs|right; now right].
Qed.

Lemma retryable_dec (error : ApiError) : retryable error \/ ~ retryable error.
Proof.
  unfold retryable. destruct (status error) as [s|].
  - destruct (Z.eq_dec s 429) as [->|H1]; [left; eauto|].
    destruct (Z.eq_dec s 529) as [->|H2]; [left; eauto 6|].
    destruct (Z_lt_le_dec s 500) as [H3|H3]; [|left; eauto 6].
    right. intros (s' & Hs & Hr). injection Hs as <-. lia.
  - right. intros (s' & Hs & _). discriminate Hs.
Qed.

(** X1.  The classification of a failed attempt, [error.status &&
    isRetryableError(error)]: an error is retried exactly when it carries a
    status that is 429, 529, or 500 and above.  An error without a status,
    or with any other status, is not. *)
Theorem isRetryable_iff (error : ApiError) :
  status_truthy error && isRetryableError error = true <-> retryable error.
Proof.
  split.
  - intros Hb. destruct (retryable_dec error) as [Hr | Hn]; [exact Hr|].
    rewrite (not_retryable_false _ Hn) in Hb. discriminate Hb.
  - apply retryable_true.
Qed.

(** Every run of [callClaude]: the attempts before the last were rejected
    with retryable errors, and the last resolved, or was rejected for good. *)
Lemma callClaude_cases env systemPrompt userMessage traceId w :
  let request := requestOf env systemPrompt userMessage in
  match callClaude env systemPrompt userMessage traceId w with
  | (res, w') =>
      exists k : nat,
        (k <= 2)%nat /\
        calls w' = S (calls w + k) /\
        slept w' = (slept w ++ waits k)%list /\
        (forall i, (i < k)%nat ->
           exists e, outcome (backend env (calls w + i) request) = Rejected e /\
                     retryable e) /\
        match res with
        | Normal result =>
            exists response,
              outcome (backend env (calls w + k) request) = Resolved response /\
              text result = content0_text response /\
              model result = res_model response /\
              tokens result = {| input := input_tokens response;
                                 output := output_tokens response |}
        | Throw ex =>
            exists e,
              outcome (backend env (calls w + k) request) = Rejected e /\
              (k = 2%nat \/ ~ retryable e) /\
              ex = AgentErr (new_AgentError FAILED (Some e))
        end
  end.
Proof.
  intros request. unfold callClaude. rewrite attemptNumbers_eq.
  unfold bind at 1. unfold Date_now at 1. unfold bind at 1. fold request.
  destruct (outcome (backend env (calls w) request)) as [r0|e0] eqn:H0.
  { rewrite (step_resolved _ _ _ _ _ _ _ _ H0). exists O.
    cbn [snd messages_create calls slept waits firstn].
    rewrite Nat.add_0_r, app_nil_r. repeat split; [lia|intros i Hi; lia|].
    exists r0. repeat split. exact H0. }
  destruct (retryable_dec e0) as [R0|R0].
  2:{ rewrite (step_abort _ _ _ _ _ _ _ _ H0 (or_introl (not_retryable_false _ R0))).
      exists O. cbn [snd messages_create calls slept waits firstn].
      rewrite Nat.add_0_r, app_nil_r. repeat split; [lia|intros i Hi; lia|].
      exists e0. repeat split; [exact H0|now right]. }
  rewrite (step_retry _ _ _ _ _ _ _ _ H0 (retryable_true _ R0))
    by (unfold MAX_RETRIES; lia).
  set (w1 := snd (sleep (backoffDelay 1) (snd (messages_create env request w)))).
  assert (calls w1 = S (calls w)) as Hc1 by reflexivity.
  assert (slept w1 = (slept w ++ [1000])%list) as Hs1 by reflexivity.
  clearbody w1.
  destruct (outcome (backend env (calls w1) request)) as [r1|e1] eqn:H1.
  { rewrite (step_resolved _ _ _ _ _ _ _ _ H1). exists 1%nat.
    cbn [snd messages_create calls slept waits firstn].
    rewrite Hc1, Hs1 in *. repeat split; [lia|lia| |].
    - intros i Hi. assert (i = O) as -> by lia. rewrite Nat.add_0_r. eauto.
    - exists r1. rewrite Nat.add_1_r. repeat split. exact H1. }
  destruct (retryable_dec e1) as [R1|R1].
  2:{ rewrite (step_abort _ _ _ _ _ _ _ _ H1 (or_introl (not_retryable_false _ R1))).
      exists 1%nat. cbn [snd messages_create calls slept waits firstn].
      rewrite Hc1, Hs1 in *. repeat split; [lia|lia| |].
      - intros i Hi. assert (i = O) as -> by lia. rewrite Nat.add_0_r. eauto.
      - exists e1. rewrite Nat.add_1_r. repeat split; [exact H1|now right]. }
  rewrite (step_retry _ _ _ _ _ _ _ _ H1 (retryable_true _ R1))
    by (unfold MAX_RETRIES; lia).
  set (w2 := snd (sleep (backoffDelay 2) (snd (messages_create env request w1)))).
  assert (calls w2 = S (S (calls w))) as Hc2 by (cbn; now rewrite Hc1).
  assert (slept w2 = (slept w ++ [1000; 2000])%list) as Hs2.
  { cbn. rewrite Hs1, <- app_assoc. reflexivity. }
  clearbody w2.
  assert (forall i, (i < 2)%nat ->
            exists e, outcome (backend env (calls w + i) request) = Rejected e /\
                      retryable e) as Hfirst.
  { intros i Hi. destruct i as [|[|i]]; [| |lia].
    - rewrite Nat.add_0_r. eauto.
    - rewrite Nat.add_1_r. rewrite Hc1 in H1. eauto. }
  destruct (outcome (backend env (calls w2) request)) as [r2|e2] eqn:H2.
  { rewrite (step_resolved _ _ _ _ _ _ _ _ H2). exists 2%nat.
    cbn [snd messages_create calls slept waits firstn].
    rewrite Hc2, Hs2 in *. repeat split; [lia|lia|exact Hfirst|].
    exists r2. replace (calls w + 2)%nat with (S (S (calls w))) by lia.
    repeat split. exact H2. }
  rewrite (step_abort _ _ _ _ _ _ _ _ H2 (or_intror eq_refl)).
  exists 2%nat. cbn [snd messages_create calls slept waits firstn].
  rewrite Hc2, Hs2 in *. repeat split; [lia|lia|exact Hfirst|].
  exists e2. replace (calls w + 2)%nat with (S (S (calls w))) by lia.
  repeat split; [exact H2|now left].
Qed.

(** X2.  What [callClaude] never does.  Whatever the backend answers, a
    call invokes it at least once and at most three times, waits 1000 ms
    after the first failed attempt and 2000 ms after the second and never
    after the last, so one wait less than invocations; and it throws
    nothing but an [AgentError], with the fixed message, a cause, and a
    [statusCode] that is set. *)
Theorem callClaude_bounded_effort env systemPrompt userMessage traceId w :
  match callClaude env systemPrompt userMessage traceId w with
  | (res, w') =>
      (calls w < calls w' <= calls w + 3)%nat /\
      (exists ds,
         slept w' = (slept w ++ ds)%list /\
         (ds = [] \/ ds = [1000] \/ ds = [1000; 2000]) /\
         S (List.length ds) = (calls w' - calls w)%nat) /\
      match res with
      | Normal _ => True
      | Throw ex =>
          exists e,
            ex = AgentErr e /\ ae_name e = "AgentError" /\
            ae_message e = FAILED /\ cause e <> None /\
            statusCode e <> StatusUnset
      end
  end.
Proof.
  pose proof (callClaude_cases env systemPrompt userMessage traceId w) as H.
  cbv zeta in H.
  destruct (callClaude env systemPrompt userMessage traceId w) as [res w'].
  destruct H as (k & Hk & Hc & Hs & _ & Hres).
  split; [lia|]. split.
  - exists (waits k). split; [exact Hs|]. rewrite Hc.
    destruct k as [|[|[|k]]]; [| | |lia]; cbn [waits firstn List.length];
      (split; [tauto|lia]).
  - destruct res as [r|ex]; [exact I|].
    destruct Hres as (e & _ & _ & ->).
    eexists. split; [reflexivity|]. cbn.
    repeat split; try discriminate.
    destruct (status e) as [s|]; [destruct (s =? 0)|]; discriminate.
Qed.

(** X3.  [callClaude] returns the first success.  When the first [k]
    attempts, [k] at most 2, are rejected with retryable errors and the
    next resolves, the call returns the text, model and token counts of
    that response, after [k + 1] invocations and the first [k] of the waits
    1000, 2000. *)
Theorem callClaude_returns_first_success
    env systemPrompt userMessage traceId w (k : nat) response :
  let request := requestOf env systemPrompt userMessage in
  (k <= 2)%nat ->
  (forall i, (i < k)%nat ->
     exists e, outcome (backend env (calls w + i) request) = Rejected e /\
               retryable e) ->
  outcome (backend env (calls w + k) request) = Resolved response ->
  exists result w',
    callClaude env systemPrompt userMessage traceId w = (Normal result, w') /\
    text result = content0_text response /\
    model result = res_model response /\
    tokens result = {| input := input_tokens response;
                       output := output_tokens response |} /\
    calls w' = S (calls w + k) /\
    slept w' = (slept w ++ waits k)%list.
Proof.
  intros request Hk Hfirst Hres.
  pose proof (callClaude_cases env systemPrompt userMessage traceId w) as H.
  cbv zeta in H. fold request in H.
  destruct (callClaude env systemPrompt userMessage traceId w) as [res w'].
  destruct H as (k' & Hk' & Hc & Hs & Hfirst' & Hres').
  assert (k' = k) as ->.
  { destruct (Nat.lt_trichotomy k' k) as [Hlt | [Heq | Hgt]]; [|exact Heq|].
    - destruct (Hfirst k' Hlt) as (e & He & Hr).
      destruct res as [r|ex].
      + destruct Hres' as (r' & Hr' & _). congruence.
      + destruct Hres' as (e' & He' & [-> | Hn] & _); [lia|]. congruence.
    - destruct (Hfirst' k Hgt) as (e & He & _). congruence. }
  destruct res as [r|ex].
  - destruct Hres' as (r' & Hr' & Htext & Hmodel & Htokens).
    assert (r' = response) as -> by congruence.
    exists r, w'. repeat split; assumption.
  - destruct Hres' as (e' & He' & _). congruence.
Qed.

Lemma callClaude_returns_first_success_witness :
  exists result w',
    callClaude Fixtures.failOnceThenSucceed "system" "user" "trace-retry"
      Fixtures.start = (Normal result, w') /\
    text result = content0_text Fixtures.CLAUDE_SUCCESS_RESPONSE /\
    calls w' = 2%nat /\
    slept w' = [1000].
Proof.
  destruct (callClaude_returns_first_success
              Fixtures.failOnceThenSucceed "system" "user" "trace-retry"
              Fixtures.start 1 Fixtures.CLAUDE_SUCCESS_RESPONSE)
    as (result & w' & H & Ht & _ & _ & Hc & Hs).
  - lia.
  - intros i Hi. assert (i = O) as -> by lia.
    exists Fixtures.rateLimitError. split; [reflexivity|].
    exists 429. split; [reflexivity|now left].
  - reflexivity.
  - exists result, w'. repeat split; assumption.
Defined.

(** X4.  [callClaude] fails with the last error.  When the first [k]
    attempts, [k] at most 2, are rejected with retryable errors and the
    next is rejected with an error that is not retryable, or is the third
    attempt, the call throws the [AgentError] whose cause is that last
    error, after [k + 1] invocations and the first [k] of the waits 1000,
    2000: three retryable failures exhaust the attempts, with no wait after
    the third. *)
Theorem callClaude_fails_with_last_error
    env systemPrompt userMessage traceId w (k : nat) error :
  let request := requestOf env systemPrompt userMessage in
  (k <= 2)%nat ->
  (forall i, (i < k)%nat ->
     exists e, outcome (backend env (calls w + i) request) = Rejected e /\
               retryable e) ->
  outcome (backend env (calls w + k) request) = Rejected error ->
  k = 2%nat \/ ~ retryable error ->
  exists w',
    callClaude env systemPrompt userMessage traceId w =
      (Throw (AgentErr (new_AgentError FAILED (Some error))), w') /\
    calls w' = S (calls w + k) /\
    slept w' = (slept w ++ waits k)%list.
Proof.
  intros request Hk Hfirst Hrej Hlast.
  pose proof (callClaude_cases env systemPrompt userMessage traceId w) as H.
  cbv zeta in H. fold request in H.
  destruct (callClaude env systemPrompt userMessage traceId w) as [res w'].
  destruct H as (k' & Hk' & Hc & Hs & Hfirst' & Hres').
  assert (k' = k) as ->.
  { destruct (Nat.lt_trichotomy k' k) as [Hlt | [Heq | Hgt]]; [|exact Heq|].
    - destruct (Hfirst k' Hlt) as (e & He & Hr).
      destruct res as [r|ex].
      + destruct Hres' as (r' & Hr' & _). congruence.
      + destruct Hres' as (e' & He' & [-> | Hn] & _); [lia|]. congruence.
    - destruct (Hfirst' k Hgt) as (e & He & Hr).
      destruct Hlast as [-> | Hn]; [lia|]. congruence. }
  destruct res as [r|ex].
  - destruct Hres' as (r' & Hr' & _). congruence.
  - destruct Hres' as (e' & He' & _ & ->).
    exists w'. repeat split; try assumption. congruence.
Qed.

Lemma callClaude_fails_with_last_error_witness :
  exists w',
    callClaude Scenarios.overloaded "system" "user" "trace-down" Fixtures.start =
      (Throw (AgentErr (new_AgentError FAILED (Some Scenarios.overloadedError))), w') /\
    calls w' = 3%nat /\
    slept w' = [1000; 2000].
Proof.
  destruct (callClaude_fails_with_last_error
              Scenarios.overloaded "system" "user" "trace-down"
              Fixtures.start 2 Scenarios.overloadedError)
    as (w' & H & Hc & Hs).
  - lia.
  - intros i Hi. exists Scenarios.overloadedError. split.
    + destruct i as [|[|i]]; [reflexivity|reflexivity|lia].
    + exists 529. split; [reflexivity|right; now left].
  - reflexivity.
  - now left.
  - exists w'. repeat split; assumption.
Defined.

End RetryFacts.

(** ** The knowledge base, file by file *)

Module CorpusFacts.
Import Js Knowledge Corpus JsFacts.

Lemma whiteSpace_not_hash (c : ascii) (s : string) :
  isWhiteSpace c = true -> String.prefix "## " (String c s) = false.
Proof.
  intros Hc. cbn [String.prefix]. destruct (ascii_dec "#" c) as [<-|]; [|reflexivity].
  discriminate Hc.
Qed.

Lemma splitSections_blank (s : string) :
  blank s = true ->
  forall atStart cur, splitSections 0 atStart cur s = [cur ++ s].
Proof.
  unfold blank. induction s as [|c s IH]; intros H atStart cur.
  - cbn. now rewrite append_nil_r.
  - cbn [chars list_ascii_of_string forallb] in H.
    apply andb_true_iff in H as [Hc Hs].
    cbn [splitSections]. rewrite (whiteSpace_not_hash c s Hc), andb_false_r.
    rewrite (IH Hs). now rewrite append_assoc.
Qed.

(** X5.  A document of white space only, the empty document included, has
    no chunk. *)
Theorem parseMarkdownChunks_blank_document (markdown filename : string) :
  blank markdown = true -> parseMarkdownChunks markdown filename = [].
Proof.
  intros H. unfold parseMarkdownChunks. rewrite (splitSections_blank _ H).
  cbn [hd tl flat_map]. change ("" ++ markdown) with markdown.
  unfold blank in H. now rewrite (trim_blank _ H).
Qed.

Lemma parseMarkdownChunks_blank_document_witness :
  blank Scenarios.blankDocument = true /\
  parseMarkdownChunks Scenarios.blankDocument "guide" = [].
Proof.
  assert (blank Scenarios.blankDocument = true) as H by reflexivity.
  split; [exact H|].
  exact (parseMarkdownChunks_blank_document _ "guide" H).
Defined.

Lemma slugChars_replace (s : string) :
  forall inRun, forallb slugChar (chars (replaceNonAlnumRuns inRun s)) = true.
Proof.
  induction s as [|c s IH]; intros inRun; [reflexivity|].
  cbn [replaceNonAlnumRuns]. destruct (isLowerAlnum c) eqn:Hc.
  - cbn [chars list_ascii_of_string forallb]. unfold slugChar at 1. rewrite Hc.
    apply IH.
  - destruct inRun; [apply IH|].
    cbn [chars list_ascii_of_string forallb]. apply IH.
Qed.

Lemma lowerAlnum_not_dash (c : ascii) : isLowerAlnum c = true -> isDash c = false.
Proof. destruct c as [[] [] [] [] [] [] [] []]; vm_compute; congruence. Qed.

Lemma noDoubleDash_replace (s : string) :
  forall inRun, noDoubleDash inRun (replaceNonAlnumRuns inRun s) = true.
Proof.
  induction s as [|c s IH]; intros inRun; [reflexivity|].
  cbn [replaceNonAlnumRuns]. destruct (isLowerAlnum c) eqn:Hc.
  - cbn [noDoubleDash]. rewrite (lowerAlnum_not_dash c Hc). apply IH.
  - destruct inRun; [apply IH|]. cbn [noDoubleDash].
    change (isDash "-") with true. cbn [negb andb]. apply IH.
Qed.

Lemma sectionChunk_wellFormed (filename section : string) :
  Forall (wellFormed filename) (sectionChunk filename section).
Proof.
  unfold sectionChunk. cbv zeta.
  set (body := trim (join LF (tl (split_newline section)))).
  set (heading := trim (hd "" (split_newline section))).
  destruct (truthy body) eqn:Hbody; constructor; [|constructor].
  split; [reflexivity|]. split; [cbn [content]; discriminate|]. split.
  - cbn [content]. unfold trim at 1.
    change (trimStart ("## " ++ ?x)) with ("## " ++ x).
    assert (body <> "") as Hne by (intros Heq; rewrite Heq in Hbody; discriminate).
    destruct (trimEnd_kept LF body (trimEnd_trim _) Hne) as [H1 N1].
    destruct (trimEnd_kept LF _ H1 N1) as [H2 N2].
    destruct (trimEnd_kept heading _ H2 N2) as [H3 N3].
    exact (proj1 (trimEnd_kept "## " _ H3 N3)).
  - eexists. split; [reflexivity|]. split.
    + apply slugChars_replace.
    + apply noDoubleDash_replace.
Qed.

Lemma parseMarkdownChunks_source (markdown filename : string) :
  Forall (fun c => source c = filename) (parseMarkdownChunks markdown filename).
Proof.
  unfold parseMarkdownChunks. cbv zeta. apply List.Forall_app. split.
  - destruct (truthy (trim _)); repeat constructor.
  - induction (tl _) as [|section rest IH]; [constructor|].
    cbn [flat_map]. apply List.Forall_app. split; [|exact IH].
    eapply List.Forall_impl; [|apply sectionChunk_wellFormed].
    intros c Hc. apply Hc.
Qed.

(** X6.  Every chunk [parseMarkdownChunks] makes of a document, whatever
    the document: its [source] is the file name; its [content] is not
    empty and has no white space around it; its [id] is the file name,
    [#], and a slug of the characters [a-z], [0-9] and [-] in which no [-]
    follows another. *)
Theorem parseMarkdownChunks_chunks_are_well_formed (markdown filename : string) :
  Forall
    (fun c =>
       source c = filename /\
       content c <> "" /\
       trim (content c) = content c /\
       exists slug,
         id c = filename ++ "#" ++ slug /\
         forallb slugChar (chars slug) = true /\
         noDoubleDash false slug = true)
    (parseMarkdownChunks markdown filename).
Proof.
  unfold parseMarkdownChunks. cbv zeta. apply List.Forall_app. split.
  - destruct (truthy (trim _)) eqn:Hintro; constructor; [|constructor].
    split; [reflexivity|]. split; [|split].
    + cbn [content]. intros Heq. rewrite Heq in Hintro. discriminate.
    + cbn [content]. apply trim_idem.
    + exists "intro". now repeat split.
  - induction (tl _) as [|section rest IH]; [constructor|].
    cbn [flat_map]. apply List.Forall_app. split; [|exact IH].
    apply sectionChunk_wellFormed.
Qed.

Lemma readFiles_readable (files : list DirEntry) :
  forall allChunks,
  find unreadable files = None ->
  readFiles files allChunks = Normal (allChunks ++ flat_map chunksOf files)%list.
Proof.
  induction files as [|f files IH]; intros allChunks H.
  - cbn. now rewrite app_nil_r.
  - cbn [find] in H. cbn [readFiles flat_map]. unfold unreadable, chunksOf in *.
    destruct (contents f); [|discriminate]. rewrite (IH _ H).
    now rewrite <- app_assoc.
Qed.

Lemma readFiles_unreadable (files : list DirEntry) (f : DirEntry) :
  forall allChunks,
  find unreadable files = Some f ->
  readFiles files allChunks = Throw (FsError (file f)).
Proof.
  induction files as [|g files IH]; intros allChunks H; [discriminate|].
  cbn [find] in H. cbn [readFiles]. unfold unreadable in H at 1.
  destruct (contents g); [now apply IH|]. now injection H as ->.
Qed.

(** X7.  With nothing cached, [loadKnowledge] reads the entries named
    [*.md], in directory order, and no other entry: when each of them can
    be read the result is the concatenation of their chunks, which is
    cached; otherwise the call throws at the first that cannot, and caches
    nothing. *)
Theorem loadKnowledge_reads_markdown_files env (w : World) entries :
  chunksCache w = None ->
  knowledgeDir env = Some entries ->
  loadKnowledge env w =
    match find unreadable (markdownFiles entries) with
    | None =>
        let chunks := flat_map chunksOf (markdownFiles entries) in
        (Normal chunks, snd (set_chunksCache (Some chunks) w))
    | Some f => (Throw (FsError (file f)), w)
    end.
Proof.
  intros Hcache Hdir. rewrite (KnowledgeFacts.loadKnowledge_uncached _ _ Hcache).
  unfold Objects.parsedCorpus. rewrite Hdir. fold (markdownFiles entries).
  destruct (find unreadable (markdownFiles entries)) as [f|] eqn:Hfind.
  - now rewrite (readFiles_unreadable _ _ [] Hfind).
  - now rewrite (readFiles_readable _ [] Hfind).
Qed.

Lemma mixedDirectory_loads :
  loadKnowledge Scenarios.mixedDirectory Fixtures.start =
    (Normal Fixtures.guideChunks, Fixtures.loaded).
Proof. vm_compute. reflexivity. Qed.

Lemma loadKnowledge_reads_markdown_files_witness :
  loadKnowledge Scenarios.mixedDirectory Fixtures.start =
    (Normal Fixtures.guideChunks, Fixtures.loaded).
Proof.
  rewrite (loadKnowledge_reads_markdown_files
             Scenarios.mixedDirectory Fixtures.start _ eq_refl eq_refl).
  vm_compute. reflexivity.
Defined.

Lemma basename_md_spec (name : string) :
  endsWith name ".md" = true -> basename_md name ++ ".md" = name.
Proof.
  unfold endsWith, basename_md. cbv zeta. cbn [String.length].
  intros H. apply andb_true_iff in H as [Hlen Heq].
  apply Nat.leb_le in Hlen. apply String.eqb_eq in Heq.
  rewrite <- Heq.
  pose proof (substring_split name (String.length name - 3)) as Hsplit.
  replace (String.length name - (String.length name - 3))%nat with 3%nat
    in Hsplit by lia.
  apply Hsplit. lia.
Qed.

(** X8.  Every chunk of a loaded knowledge base comes from a [*.md] entry
    of the directory that can be read: its [source] followed by [.md] is
    the name of that entry, and it is one of the chunks of that entry. *)
Theorem loaded_chunks_name_their_file env (w : World) entries chunks w1 :
  chunksCache w = None ->
  knowledgeDir env = Some entries ->
  loadKnowledge env w = (Normal chunks, w1) ->
  Forall (fun c =>
            exists f markdown,
              In f entries /\ contents f = Some markdown /\
              file f = source c ++ ".md" /\
              In c (parseMarkdownChunks markdown (source c)))
    chunks.
Proof.
  intros Hcache Hdir. rewrite (KnowledgeFacts.loadKnowledge_uncached _ _ Hcache).
  unfold Objects.parsedCorpus. rewrite Hdir. fold (markdownFiles entries).
  destruct (find unreadable (markdownFiles entries)) as [f|] eqn:Hfind.
  { rewrite (readFiles_unreadable _ _ [] Hfind). discriminate. }
  rewrite (readFiles_readable _ [] Hfind). cbn [app].
  intros H. injection H as <- _.
  apply List.Forall_forall. intros c Hc.
  apply in_flat_map in Hc as (f & Hf & Hc).
  apply filter_In in Hf as [Hf Hmd].
  unfold chunksOf in Hc. destruct (contents f) as [markdown|] eqn:Hcontents;
    [|destruct Hc].
  pose proof (parseMarkdownChunks_source markdown (basename_md (file f))) as Hsrc.
  rewrite List.Forall_forall in Hsrc. specialize (Hsrc c Hc).
  exists f, markdown. rewrite Hsrc.
  split; [exact Hf|]. split; [exact Hcontents|].
  split; [symmetry; now apply basename_md_spec|exact Hc].
Qed.

Lemma loaded_chunks_name_their_file_witness :
  Forall (fun c =>
            exists f markdown,
              In f [ {| file := "notes.txt"; contents := None |};
                     {| file := "guide.md"; contents := Some Fixtures.guide |} ] /\
              contents f = Some markdown /\
              file f = source c ++ ".md" /\
              In c (parseMarkdownChunks markdown (source c)))
    Fixtures.guideChunks.
Proof.
  exact (loaded_chunks_name_their_file
           Scenarios.mixedDirectory Fixtures.start _ Fixtures.guideChunks
           Fixtures.loaded eq_refl eq_refl mixedDirectory_loads).
Defined.

(** X9.  [loadKnowledge] memoizes: once a call has returned, the chunks it
    returned are the cache, and every later call returns them and changes
    nothing, whatever the directory then holds. *)
Theorem loadKnowledge_memoizes env (w : World) chunks w1 :
  loadKnowledge env w = (Normal chunks, w1) ->
  chunksCache w1 = Some chunks /\
  forall env', loadKnowledge env' w1 = (Normal chunks, w1).
Proof.
  intros H.
  assert (chunksCache w1 = Some chunks) as Hc.
  { destruct (chunksCache w) as [cached|] eqn:Hcache.
    - rewrite (KnowledgeFacts.loadKnowledge_cached _ _ _ Hcache) in H.
      now injection H as <- <-.
    - rewrite (KnowledgeFacts.loadKnowledge_uncached _ _ Hcache) in H.
      destruct (Objects.parsedCorpus env); [|discriminate].
      now injection H as <- <-. }
  split; [exact Hc|]. intros env'. now apply KnowledgeFacts.loadKnowledge_cached.
Qed.

Lemma loadKnowledge_memoizes_witness :
  chunksCache Fixtures.loaded = Some Fixtures.guideChunks /\
  loadKnowledge Scenarios.noDirectory Fixtures.loaded =
    (Normal Fixtures.guideChunks, Fixtures.loaded).
Proof.
  destruct (loadKnowledge_memoizes Scenarios.mixedDirectory
              Fixtures.start Fixtures.guideChunks Fixtures.loaded
              mixedDirectory_loads) as [Hc Hlater].
  split; [exact Hc|apply Hlater].
Defined.

(** X10.  [resetCache] undoes the memoization: [loadKnowledge] right after
    it reads the directory as it is now, whatever was cached, and caches
    that; when the reading throws, the cache is left empty. *)
Theorem resetCache_forces_reload env (w : World) :
  (resetCache ;;; loadKnowledge env)%js w =
    match Objects.parsedCorpus env with
    | Normal chunks => (Normal chunks, snd (set_chunksCache (Some chunks) w))
    | Throw e => (Throw e, snd (set_chunksCache None w))
    end.
Proof.
  unfold bind at 1. unfold resetCache at 1. cbn [set_chunksCache].
  rewrite KnowledgeFacts.loadKnowledge_uncached by reflexivity.
  destruct (Objects.parsedCorpus env); reflexivity.
Qed.

Lemma slice0_nil {A} (k : Z) : slice0 k (@nil A) = [].
Proof. unfold slice0. now destruct (Z.to_nat _). Qed.

(** X11.  When the knowledge directory does not exist, the knowledge base
    is empty and stays so: [findRelevantChunks] returns nothing for every
    query and [topK], throws for none, and goes on answering so once a
    directory is there, until [resetCache]. *)
Theorem findRelevantChunks_without_directory {engine : RegExpEngine}
    env (w : World) :
  chunksCache w = None ->
  knowledgeDir env = None ->
  let w1 := snd (set_chunksCache (Some []) w) in
  forall query topK,
    findRelevantChunks env query topK w = (Normal [], w1) /\
    forall env', findRelevantChunks env' query topK w1 = (Normal [], w1).
Proof.
  intros Hcache Hdir w1 query topK. split.
  - rewrite KnowledgeFacts.findRelevantChunks_unfold.
    rewrite (KnowledgeFacts.loadKnowledge_uncached _ _ Hcache).
    unfold Objects.parsedCorpus. rewrite Hdir. cbn [mapScored].
    unfold rank. cbn [List.filter sort]. now rewrite slice0_nil.
  - intros env'. rewrite KnowledgeFacts.findRelevantChunks_unfold.
    rewrite (KnowledgeFacts.loadKnowledge_cached env' w1 []) by reflexivity.
    cbn [mapScored]. unfold rank. cbn [List.filter sort]. now rewrite slice0_nil.
Qed.

Lemma findRelevantChunks_without_directory_witness :
  exists w1,
    findRelevantChunks (engine := RefEngine.engine) Scenarios.noDirectory
      "Is there a C++ client?" 3 Fixtures.start = (Normal [], w1) /\
    chunksCache w1 = Some [] /\
    findRelevantChunks (engine := RefEngine.engine) Scenarios.mixedDirectory
      "How do I authenticate?" 3 w1 = (Normal [], w1).
Proof.
  destruct (findRelevantChunks_without_directory
              (engine := RefEngine.engine) Scenarios.noDirectory Fixtures.start
              eq_refl eq_refl "Is there a C++ client?" 3) as [Hfirst _].
  destruct (findRelevantChunks_without_directory
              (engine := RefEngine.engine) Scenarios.noDirectory Fixtures.start
              eq_refl eq_refl "How do I authenticate?" 3) as [_ Hlater].
  eexists. split; [exact Hfirst|]. split; [reflexivity|apply Hlater].
Defined.

End CorpusFacts.

(** ** Queries *)

Module QueryFacts.
Import Js Knowledge Corpus JsFacts.

(** X12.  The terms [scoreChunk] counts are the words of the query, in
    lower case, that have more than two characters; a term holds no white
    space and no upper-case letter. *)
Theorem queryTerms_shape (query : string) :
  queryTerms query =
    List.filter (fun t => (2 <? String.length t)%nat)
      (map toLowerCase (split_whitespace query)) /\
  Forall (fun t => (2 < String.length t)%nat /\
                   forallb termChar (chars t) = true)
    (queryTerms query).
Proof.
  split.
  - unfold queryTerms. now rewrite split_whitespace_toLowerCase.
  - apply List.Forall_forall. intros t Ht. unfold queryTerms in Ht.
    apply filter_In in Ht as [Ht Hlen]. split; [now apply Nat.ltb_lt|].
    clear Hlen. revert t Ht. apply List.Forall_forall.
    apply splitWs_pieces; [|reflexivity].
    intros c Hc Hws. unfold termChar. rewrite Hws.
    now rewrite (toLowerCase_chars _ _ Hc).
Qed.

Section Ranking.
Context {engine : RegExpEngine}.

Lemma mapScored_no_terms (query : string) (chunks : list Chunk) :
  queryTerms query = [] ->
  mapScored query chunks = Normal (map (fun c => withScore c O) chunks).
Proof.
  intros H. induction chunks as [|c chunks IH]; [reflexivity|].
  cbn [mapScored map]. unfold scoreChunk. rewrite H. cbn [scoreTerms].
  now rewrite IH.
Qed.

Lemma short_words_no_terms (query : string) :
  Forall (fun t => (String.length t <= 2)%nat) (split_whitespace query) ->
  queryTerms query = [].
Proof.
  intros H. unfold queryTerms. rewrite split_whitespace_toLowerCase.
  induction H as [|t ts Ht _ IH]; [reflexivity|].
  cbn [map List.filter]. rewrite toLowerCase_length.
  assert ((2 <? String.length t)%nat = false) as -> by (apply Nat.ltb_ge; lia).
  exact IH.
Qed.

(** X13.  A query all of whose words have at most two characters (the
    empty query, a query of white space) has no term: every chunk scores
    0, no pattern is built, and [findRelevantChunks] returns nothing,
    whatever the engine and whatever [topK]. *)
Theorem short_words_find_nothing env query topK (w : World) chunks w1 :
  Forall (fun t => (String.length t <= 2)%nat) (split_whitespace query) ->
  loadKnowledge env w = (Normal chunks, w1) ->
  (forall chunk, scoreChunk query chunk = Normal O) /\
  findRelevantChunks env query topK w = (Normal [], w1).
Proof.
  intros Hshort Hload. pose proof (short_words_no_terms _ Hshort) as Hterms.
  split.
  - intros chunk. unfold scoreChunk. now rewrite Hterms.
  - rewrite KnowledgeFacts.findRelevantChunks_unfold, Hload.
    rewrite (mapScored_no_terms _ _ Hterms). unfold rank.
    rewrite KnowledgeFacts.filter_positive_nil.
    + cbn [sort]. now rewrite CorpusFacts.slice0_nil.
    + apply List.Forall_forall. intros sc Hsc.
      apply in_map_iff in Hsc as (c & <- & _). reflexivity.
Qed.

Lemma scoreTerms_lower_title (terms : list string) (chunkTitle chunkText : string) :
  forall acc,
  scoreTerms terms (toLowerCase chunkTitle) chunkText acc =
  scoreTerms terms chunkTitle chunkText acc.
Proof.
  induction terms as [|t terms IH]; intros acc; [reflexivity|].
  cbn [scoreTerms]. rewrite toLowerCase_idem.
  destruct (matchCount (toLowerCase chunkTitle) t); [|reflexivity].
  destruct (matchCount chunkText t); [|reflexivity]. apply IH.
Qed.

(** X14.  Scoring ignores letter case, of the query and of the chunk: the
    query in lower case scores every chunk as the query does and finds the
    same chunks, and a chunk scores as the chunk with its title and
    content in lower case. *)
Theorem scoreChunk_ignores_case (query : string) (chunk : Chunk) :
  scoreChunk (toLowerCase query) chunk = scoreChunk query chunk /\
  scoreChunk query (lowered chunk) = scoreChunk query chunk /\
  forall env topK w,
    findRelevantChunks env (toLowerCase query) topK w =
    findRelevantChunks env query topK w.
Proof.
  assert (forall c, scoreChunk (toLowerCase query) c = scoreChunk query c) as Hq.
  { intros c. unfold scoreChunk, queryTerms. now rewrite toLowerCase_idem. }
  split; [apply Hq|]. split.
  - unfold scoreChunk, lowered, chunkTextOf. cbn [title content].
    rewrite scoreTerms_lower_title.
    rewrite !RefEngineFacts.toLowerCase_app, !toLowerCase_idem. reflexivity.
  - intros env topK w. rewrite !KnowledgeFacts.findRelevantChunks_unfold.
    destruct (loadKnowledge env w) as [[chunks|e] w1]; [|reflexivity].
    assert (mapScored (toLowerCase query) chunks = mapScored query chunks) as ->;
      [|reflexivity].
    induction chunks as [|c chunks IH]; [reflexivity|].
    cbn [mapScored]. now rewrite Hq, IH.
Qed.

Lemma slice0_negative {A} (k : Z) (l : list A) :
  k < 0 ->
  slice0 k l = firstn (List.length l - Z.to_nat (- k)) l.
Proof.
  intros Hk. unfold slice0. assert ((k <? 0) = true) as -> by lia.
  f_equal. lia.
Qed.

(** X15.  A negative [topK] counts from the end, as [slice] does: the
    result is the ranking without its last [-topK] chunks, not the empty
    sequence. *)
Theorem findRelevantChunks_negative_topK env query topK (w : World) chunks w1 :
  topK < 0 ->
  loadKnowledge env w = (Normal chunks, w1) ->
  Forall compiles (queryTerms query) ->
  let scored := map (fun c => withScore c (totalScore (queryTerms query) c)) chunks in
  let ranked := sort byScoreDesc (List.filter (fun sc => (0 <? score sc)%nat) scored) in
  exists result dropped,
    findRelevantChunks env query topK w = (Normal result, w1) /\
    ranked = (result ++ dropped)%list /\
    List.length dropped = Nat.min (Z.to_nat (- topK)) (List.length ranked).
Proof.
  intros Hk Hload Hterms scored ranked.
  exists (firstn (List.length ranked - Z.to_nat (- topK)) ranked),
         (skipn (List.length ranked - Z.to_nat (- topK)) ranked).
  split; [|split].
  - rewrite KnowledgeFacts.findRelevantChunks_unfold, Hload.
    rewrite (KnowledgeFacts.mapScored_compiles _ _ Hterms). unfold rank.
    now rewrite slice0_negative.
  - now rewrite firstn_skipn.
  - rewrite length_skipn. lia.
Qed.

End Ranking.

Lemma short_words_find_nothing_witness :
  scoreChunk (engine := RefEngine.engine) "Is it ok to go ?"
    (nth 1 Fixtures.guideChunks Fixtures.noChunk) = Normal O /\
  findRelevantChunks (engine := RefEngine.engine) Fixtures.unauthorized
    "Is it ok to go ?" 3 Fixtures.start = (Normal [], Fixtures.loaded).
Proof.
  destruct (short_words_find_nothing (engine := RefEngine.engine)
              Fixtures.unauthorized "Is it ok to go ?" 3 Fixtures.start
              Fixtures.guideChunks Fixtures.loaded) as [Hscore Hfind].
  - vm_compute. repeat constructor.
  - exact KnowledgeFacts.guide_loads.
  - split; [apply Hscore|exact Hfind].
Defined.

Lemma findRelevantChunks_negative_topK_witness :
  exists result dropped,
    findRelevantChunks (engine := RefEngine.engine) Fixtures.unauthorized
      "authentication" (-1) Fixtures.start = (Normal result, Fixtures.loaded) /\
    map sc_id result = ["guide#authentication"] /\
    map sc_id dropped = ["guide#rate-limits"].
Proof.
  assert (Forall (compiles (engine := RefEngine.engine))
            (queryTerms "authentication")) as Hterms
    by (apply KnowledgeFacts.compiles_forallb; vm_compute; reflexivity).
  destruct (findRelevantChunks_negative_topK (engine := RefEngine.engine)
              Fixtures.unauthorized "authentication" (-1) Fixtures.start
              Fixtures.guideChunks Fixtures.loaded ltac:(lia)
              KnowledgeFacts.guide_loads Hterms)
    as (result & dropped & Hfind & Hranked & Hlen).
  exists result, dropped. split; [exact Hfind|].
  vm_compute in Hfind. injection Hfind as <-.
  vm_compute in Hranked. injection Hranked as <-.
  split; reflexivity.
Defined.

End QueryFacts.

(** ** Literal terms on the reference engine *)

Module LiteralFacts.
Import Js RefEngine Knowledge RefEngineFacts.

Lemma totalScore_positive {engine : RegExpEngine} (terms : list string) (chunk : Chunk) :
  (0 < totalScore terms chunk)%nat <->
  exists t, In t terms /\ (0 < termScore chunk t)%nat.
Proof.
  unfold totalScore. induction terms as [|t terms IH]; cbn [map fold_right].
  - split; [lia|]. intros (t & [] & _).
  - split.
    + intros H. destruct (Nat.eq_dec (termScore chunk t) 0%nat) as [Hz|Hnz].
      * rewrite Hz in H. apply IH in H as (t' & Hin & Hpos).
        exists t'. split; [now right|exact Hpos].
      * exists t. split; [now left|lia].
    + intros (t' & [<- | Hin] & Hpos); [lia|].
      assert (0 < fold_right Nat.add 0 (map (termScore chunk) terms))%nat
        by (apply IH; eauto). lia.
Qed.

Lemma termScore_literal (chunk : Chunk) (t : string) :
  literal t = true ->
  ((0 < termScore (engine := engine) chunk t)%nat <->
   includes (toLowerCase (title chunk ++ " " ++ content chunk)) t = true).
Proof.
  intros Hlit. unfold termScore.
  pose proof (occurrences_literal t (toLowerCase (title chunk)) Hlit) as Htitle.
  pose proof (occurrences_literal t
                (toLowerCase (title chunk ++ " " ++ content chunk)) Hlit) as Htext.
  destruct (includes (toLowerCase (title chunk ++ " " ++ content chunk)) t) eqn:Hin.
  - split; [reflexivity|]. intros _.
    destruct (occurrences t (toLowerCase (title chunk ++ " " ++ content chunk)));
      [|lia].
    destruct Htext as [Htext _]. now specialize (Htext eq_refl).
  - split; [|discriminate]. intros Hpos.
    destruct Htext as [_ Htext]. rewrite (Htext eq_refl) in Hpos.
    destruct (includes (toLowerCase (title chunk)) t) eqn:Hint.
    + rewrite toLowerCase_app in Hin. now rewrite (includes_app _ _ _ Hint) in Hin.
    + destruct Htitle as [_ Htitle]. rewrite (Htitle eq_refl) in Hpos. lia.
Qed.

(** X16.  On the reference engine, for a query whose terms are made of
    ordinary characters, a chunk scores above 0 exactly when one of the
    terms occurs, as text, in its lower-cased title and content. *)
Theorem literal_terms_score_where_they_occur (query : string) (chunk : Chunk) :
  Forall (fun t => literal t = true) (queryTerms query) ->
  exists s,
    scoreChunk (engine := engine) query chunk = Normal s /\
    ((0 < s)%nat <->
     exists t, In t (queryTerms query) /\
               includes (toLowerCase (title chunk ++ " " ++ content chunk)) t = true).
Proof.
  intros Hlit.
  assert (Forall (compiles (engine := engine)) (queryTerms query)) as Hterms.
  { eapply List.Forall_impl; [|exact Hlit]. intros t Ht. unfold compiles.
    cbn [RegExp_new engine]. now rewrite (compile_literal _ Ht). }
  exists (totalScore (queryTerms query) chunk).
  split; [now apply KnowledgeFacts.scoreChunk_compiles|].
  rewrite totalScore_positive. rewrite List.Forall_forall in Hlit.
  split; intros (t & Hin & H); exists t; (split; [exact Hin|]);
    now apply (termScore_literal chunk t (Hlit t Hin)).
Qed.

Lemma literal_terms_score_where_they_occur_witness :
  scoreChunk (engine := engine) "bearer tokens"
    (nth 1 Fixtures.guideChunks Fixtures.noChunk) = Normal 2%nat /\
  includes
    (toLowerCase (title (nth 1 Fixtures.guideChunks Fixtures.noChunk) ++ " " ++
                  content (nth 1 Fixtures.guideChunks Fixtures.noChunk)))
    "bearer" = true.
Proof.
  destruct (literal_terms_score_where_they_occur "bearer tokens"
              (nth 1 Fixtures.guideChunks Fixtures.noChunk))
    as (s & Hs & Hpos).
  - vm_compute. repeat constructor.
  - assert (Normal s = Normal 2%nat) as Heq
      by (rewrite <- Hs; vm_compute; reflexivity).
    injection Heq as ->. split; [exact Hs|]. vm_compute. reflexivity.
Defined.

End LiteralFacts.

(** ** The orchestrator, step by step *)

Module PipelineFacts.
Import Js Knowledge Agent JsFacts.

Section Pipeline.
Context {engine : RegExpEngine}.

(** Retrieval touches nothing but the cache. *)
Lemma loadKnowledge_frame env (w : World) res w' :
  loadKnowledge env w = (res, w') ->
  clock w' = clock w /\ calls w' = calls w /\ slept w' = slept w /\
  traces w' = traces w /\ uuids w' = uuids w.
Proof.
  unfold loadKnowledge, bind, get_chunksCache, set_chunksCache, lift, ret.
  destruct (chunksCache w) as [cached|].
  - intros H. now injection H as <- <-.
  - destruct (knowledgeDir env) as [entries|].
    + destruct (readFiles _ _); intros H; now injection H as <- <-.
    + intros H. now injection H as <- <-.
Qed.

Lemma findRelevantChunks_frame env query topK (w : World) res w' :
  findRelevantChunks env query topK w = (res, w') ->
  clock w' = clock w /\ calls w' = calls w /\ slept w' = slept w /\
  traces w' = traces w /\ uuids w' = uuids w.
Proof.
  rewrite KnowledgeFacts.findRelevantChunks_unfold.
  destruct (loadKnowledge env w) as [[chunks|e] w1] eqn:Hload;
    apply loadKnowledge_frame in Hload.
  - destruct (mapScored query chunks); intros H; injection H as <- <-; exact Hload.
  - intros H. injection H as <- <-. exact Hload.
Qed.

Lemma slice0_length {A} (k : Z) (l : list A) :
  0 <= k -> Z.of_nat (List.length (slice0 k l)) <= k.
Proof.
  intros Hk. rewrite KnowledgeFacts.slice0_nonneg by exact Hk.
  rewrite length_firstn. lia.
Qed.

Lemma findRelevantChunks_length env query topK (w : World) result w' :
  0 <= topK ->
  findRelevantChunks env query topK w = (Normal result, w') ->
  Z.of_nat (List.length result) <= topK.
Proof.
  intros Hk. rewrite KnowledgeFacts.findRelevantChunks_unfold.
  destruct (loadKnowledge env w) as [[chunks|e] w1]; [|discriminate].
  destruct (mapScored query chunks); [|discriminate].
  intros H. injection H as <- _. unfold rank. now apply slice0_length.
Qed.

(** X17.  What [ask] returns and what it records agree.  A call that
    returns has drawn one identifier, which is the result's [trace_id],
    and has recorded one trace, with that identifier, the question and
    session as given, and the answer, latency, cost and chunk ids of the
    result; the result cites at most three chunks, and [tokens_used] is
    the sum of the two token counts recorded.  A call that throws has
    drawn its identifier and recorded nothing. *)
Theorem ask_records_what_it_returns env question sessionId (w : World) :
  match ask env question sessionId w with
  | (Normal result, w') =>
      trace_id result = uuid env (uuids w) /\
      uuids w' = S (uuids w) /\
      (List.length (knowledge_chunks result) <= 3)%nat /\
      exists params,
        traces w' = (traces w ++ [params])%list /\
        tp_traceId params = trace_id result /\
        tp_input params = question /\
        tp_sessionId params = sessionId /\
        tp_output params = answer result /\
        tp_latency_ms params = ar_latency_ms result /\
        tp_cost_usd params = ar_cost_usd result /\
        tp_knowledgeChunks params = knowledge_chunks result /\
        tokens_used result =
          (input (tp_tokens params) + output (tp_tokens params))%float
  | (Throw _, w') => traces w' = traces w /\ uuids w' = S (uuids w)
  end.
Proof.
  rewrite AgentFacts.ask_unfold. cbv zeta.
  destruct (findRelevantChunks env question 3 _) as [[chunks|e] w1] eqn:Hfind.
  - pose proof (findRelevantChunks_length _ _ 3 _ _ _ ltac:(lia) Hfind) as Hlen.
    apply findRelevantChunks_frame in Hfind as (_ & _ & _ & Ht1 & Hu1).
    cbn [snd uuidv4 traces uuids] in Ht1, Hu1.
    destruct (Claude.callClaude env _ question _ w1) as [[r|e] w2] eqn:Hcall;
      apply ClaudeFacts.callClaude_spec in Hcall as (Ht2 & _ & Hu2 & _).
    + cbn [trace_id knowledge_chunks recordTrace snd traces uuids].
      split; [reflexivity|]. split; [congruence|].
      split; [rewrite length_map; lia|].
      eexists. split; [rewrite Ht2, Ht1; reflexivity|]. cbn. repeat split.
    + split; congruence.
  - apply findRelevantChunks_frame in Hfind as (_ & _ & _ & Ht1 & Hu1).
    cbn [snd uuidv4 traces uuids] in Ht1, Hu1. now split.
Qed.

Lemma findRelevantChunks_refused_pattern env query topK (w : World) chunks w1 :
  loadKnowledge env w = (Normal chunks, w1) ->
  chunks <> [] ->
  Exists (fun t => RegExp_new t = None) (queryTerms query) ->
  exists t,
    In t (queryTerms query) /\ RegExp_new t = None /\
    findRelevantChunks env query topK w = (Throw (SyntaxError t), w1).
Proof.
  intros Hload Hne Hex.
  destruct (KnowledgeFacts.mapScored_throws query chunks Hne Hex)
    as (t & Hin & Hnew & Hthrow).
  exists t. split; [exact Hin|]. split; [exact Hnew|].
  now rewrite KnowledgeFacts.findRelevantChunks_unfold, Hload, Hthrow.
Qed.

(** X18.  A question with a term the [RegExp] constructor refuses makes
    [ask] throw that [SyntaxError], which is no [AgentError], as soon as
    the knowledge base has a chunk: the model is not called, no wait is
    made and nothing is recorded. *)
Theorem ask_throws_SyntaxError_before_the_model
    env question sessionId (w : World) chunks w1 :
  loadKnowledge env (snd (uuidv4 env w)) = (Normal chunks, w1) ->
  chunks <> [] ->
  Exists (fun t => RegExp_new t = None) (queryTerms question) ->
  exists t,
    In t (queryTerms question) /\ RegExp_new t = None /\
    ask env question sessionId w = (Throw (SyntaxError t), w1) /\
    calls w1 = calls w /\ slept w1 = slept w /\ traces w1 = traces w.
Proof.
  intros Hload Hne Hex.
  destruct (findRelevantChunks_refused_pattern env question 3 _ chunks w1
              Hload Hne Hex) as (t & Hin & Hnew & Hfind).
  exists t. split; [exact Hin|]. split; [exact Hnew|]. split.
  - rewrite AgentFacts.ask_unfold. cbv zeta. now rewrite Hfind.
  - apply loadKnowledge_frame in Hload as (_ & Hc & Hs & Ht & _).
    cbn [snd uuidv4 calls slept traces] in Hc, Hs, Ht. now repeat split.
Qed.

End Pipeline.

Lemma ask_throws_SyntaxError_before_the_model_witness :
  exists w1,
    ask (engine := RefEngine.engine) Fixtures.unauthorized
      "Is there a C++ client?" None Fixtures.start =
      (Throw (SyntaxError "c++"), w1) /\
    calls w1 = O /\ traces w1 = [].
Proof.
  destruct (ask_throws_SyntaxError_before_the_model
              (engine := RefEngine.engine) Fixtures.unauthorized
              "Is there a C++ client?" None Fixtures.start Fixtures.guideChunks
              (snd (uuidv4 Fixtures.unauthorized Fixtures.loaded)))
    as (t & Hin & Hnew & Hask & Hcalls & _ & Htraces).
  - vm_compute. reflexivity.
  - discriminate.
  - apply List.Exists_exists. exists "c++". split; vm_compute; auto.
  - eexists. split; [|split; [exact Hcalls|exact Htraces]].
    rewrite Hask. f_equal. f_equal.
    vm_compute in Hin. destruct Hin as [<- | [<- | [<- | []]]];
      try reflexivity; vm_compute in Hnew; discriminate Hnew.
Defined.

(** X19.  The system prompt quotes every chunk it is given: the content of
    each retrieved chunk occurs in it, as it is. *)
Theorem system_prompt_quotes_every_chunk (contextChunks : list ScoredChunk) :
  Forall (fun c => includes (SYSTEM_PROMPT_TEMPLATE contextChunks) (sc_content c) = true)
    contextChunks.
Proof.
  apply List.Forall_forall. intros c Hc. unfold SYSTEM_PROMPT_TEMPLATE.
  apply includes_after, RefEngineFacts.includes_app, join_includes.
  now apply in_map.
Qed.

End PipelineFacts.

(** ** The cached array *)

Module AliasingFacts.
Import Objects ObjectsFacts.

(** X20.  [loadKnowledge] hands out the cached array itself, not a copy:
    the array a call returns is the one [chunksCache] refers to, and every
    later call returns that same array, so what a caller does to it is
    done to the cache. *)
Theorem loadKnowledge_returns_the_cached_array env (st : Store) (arr : loc) st' :
  loadKnowledge env st = (Normal arr, st') ->
  chunksCache st' = Some arr /\
  forall env', loadKnowledge env' st' = (Normal arr, st').
Proof.
  intros H.
  assert (chunksCache st' = Some arr) as Hc.
  { destruct (chunksCache st) as [cached|] eqn:Hcache.
    - rewrite (loadKnowledge_returns_cache _ _ _ Hcache) in H.
      injection H as <- <-. exact Hcache.
    - pose proof (loadKnowledge_spec env st Hcache) as Hspec.
      destruct (parsedCorpus env).
      + destruct Hspec as (arr0 & st0 & Hload & _ & Hc0 & _).
        rewrite Hload in H. injection H as <- <-. exact Hc0.
      + destruct Hspec as (st0 & Hload & _). rewrite Hload in H. discriminate. }
  split; [exact Hc|]. intros env'. now apply loadKnowledge_returns_cache.
Qed.

Lemma loadKnowledge_returns_the_cached_array_witness :
  exists arr st',
    loadKnowledge Fixtures.unauthorized initial = (Normal arr, st') /\
    chunksCache st' = Some arr /\
    loadKnowledge Scenarios.noDirectory st' = (Normal arr, st').
Proof.
  destruct (loadKnowledge Fixtures.unauthorized initial)
    as [[arr|e] st'] eqn:Hload; [|vm_compute in Hload; discriminate Hload].
  destruct (loadKnowledge_returns_the_cached_array
              Fixtures.unauthorized initial arr st' Hload) as [Hc Hlater].
  exists arr, st'. split; [reflexivity|]. split; [exact Hc|apply Hlater].
Defined.

End AliasingFacts.

(** ** The middlewares *)

Module MiddlewareFacts.
Import Js Middleware JsFacts.

Lemma typeof_string (v : JsValue) :
  String.eqb (typeof v) "string" = true -> exists q, v = JString q.
Proof. destruct v; try discriminate. eauto. Qed.

Lemma validateAskInput_inv (req req' : HttpRequest) :
  validateAskInput req = Next req' ->
  exists b q,
    body req = Some b /\ question b = JString q /\
    trim q <> "" /\ (String.length q <= 2000)%nat /\
    req' = {| x_api_key := x_api_key req;
              body := Some {| question := JString (trim q);
                              session_id := session_id b |} |}.
Proof.
  unfold validateAskInput. cbv zeta.
  destruct (body req) as [b|]; [|discriminate].
  destruct (negb (truthyValue (question b)) ||
            negb (String.eqb (typeof (question b)) "string") ||
            (String.length (trim (asString (question b))) =? 0)%nat) eqn:Hbad;
    [discriminate|].
  apply orb_false_iff in Hbad as [Hbad Hblank].
  apply orb_false_iff in Hbad as [Htruthy Htype].
  apply negb_false_iff in Htruthy, Htype.
  destruct (typeof_string _ Htype) as (q & Hq). rewrite Hq in *.
  cbn [asString] in *.
  destruct (2000 <? String.length q)%nat eqn:Hlen; [discriminate|].
  intros H. injection H as <-. exists b, q.
  split; [reflexivity|]. split; [exact Hq|].
  split; [intros Heq; rewrite Heq in Hblank; discriminate|].
  split; [now apply Nat.ltb_ge in Hlen|reflexivity].
Qed.

Lemma validateAskInput_accepts (req : HttpRequest) (b : Body) (q : string) :
  body req = Some b -> question b = JString q ->
  trim q <> "" -> (String.length q <= 2000)%nat ->
  validateAskInput req =
    Next {| x_api_key := x_api_key req;
            body := Some {| question := JString (trim q);
                            session_id := session_id b |} |}.
Proof.
  intros Hb Hq Htrim Hlen. unfold validateAskInput. cbv zeta.
  rewrite Hb, Hq. cbn [truthyValue typeof asString String.eqb Ascii.eqb Bool.eqb].
  assert (truthy q = true) as ->.
  { destruct q; [|reflexivity]. now destruct Htrim. }
  assert ((String.length (trim q) =? 0)%nat = false) as ->.
  { apply Nat.eqb_neq. destruct (trim q); [now destruct Htrim|discriminate]. }
  assert ((2000 <? String.length q)%nat = false) as -> by (apply Nat.ltb_ge; lia).
  reflexivity.
Qed.

Lemma validateAskInput_status (req : HttpRequest) (res : HttpResponse) :
  validateAskInput req = Sent res ->
  http_status res = 400 /\ exists m, json res = ErrorJson "INVALID_REQUEST" m.
Proof.
  unfold validateAskInput. cbv zeta.
  repeat match goal with
         | |- context [if ?c then _ else _] => destruct c
         end; intros H; try discriminate; injection H as <-; cbn; eauto.
Qed.

(** X21.  What [validateAskInput] lets through, and only that: a request
    whose [question] is a string that is not blank and has at most 2000
    characters, counted before trimming.  The question that goes on is
    that string trimmed: not empty, no white space around it, at most 2000
    characters; the header and [session_id] go on as they came.  Any other
    request is answered 400 [INVALID_REQUEST]. *)
Theorem validateAskInput_passes_iff (req : HttpRequest) :
  (forall req',
     validateAskInput req = Next req' <->
     exists b q,
       body req = Some b /\ question b = JString q /\
       trim q <> "" /\ (String.length q <= 2000)%nat /\
       req' = {| x_api_key := x_api_key req;
                 body := Some {| question := JString (trim q);
                                 session_id := session_id b |} |}) /\
  match validateAskInput req with
  | Next req' =>
      exists b' q',
        body req' = Some b' /\ question b' = JString q' /\
        q' <> "" /\ trim q' = q' /\ (String.length q' <= 2000)%nat
  | Sent res =>
      http_status res = 400 /\ exists m, json res = ErrorJson "INVALID_REQUEST" m
  end.
Proof.
  split.
  - intros req'. split; [exact (validateAskInput_inv req req')|].
    intros (b & q & Hb & Hq & Ht & Hl & ->).
    now apply validateAskInput_accepts.
  - destruct (validateAskInput req) as [req'|res] eqn:H.
    + apply validateAskInput_inv in H as (b & q & Hb & Hq & Ht & Hl & ->).
      eexists _, (trim q). cbn [body question].
      split; [reflexivity|]. split; [reflexivity|]. split; [exact Ht|].
      split; [apply trim_idem|]. pose proof (trim_length q). lia.
    + exact (validateAskInput_status req res H).
Qed.

(** X22.  [validateAskInput] is idempotent: what it has let through it
    lets through again, unchanged. *)
Theorem validateAskInput_idempotent (req req' : HttpRequest) :
  validateAskInput req = Next req' -> validateAskInput req' = Next req'.
Proof.
  intros H. apply validateAskInput_inv in H as (b & q & Hb & Hq & Ht & Hl & ->).
  erewrite (validateAskInput_accepts _ _ (trim q)); [| reflexivity | reflexivity | |].
  - cbn [x_api_key session_id]. now rewrite trim_idem.
  - now rewrite trim_idem.
  - pose proof (trim_length q). lia.
Qed.

Lemma validateAskInput_idempotent_witness :
  validateAskInput (Scenarios.asks "How do I authenticate?") =
    Next (Scenarios.asks "How do I authenticate?").
Proof.
  apply (validateAskInput_idempotent (Scenarios.asks "  How do I authenticate?  ")).
  vm_compute. reflexivity.
Defined.

Lemma strictNe_false (a b : option string) : strictNe a b = false <-> a = b.
Proof.
  destruct a as [x|], b as [y|]; cbn; split; try congruence.
  - intros H. apply negb_false_iff, String.eqb_eq in H. now subst.
  - intros H. injection H as ->. now rewrite String.eqb_refl.
Qed.

(** X23.  [apiKeyMiddleware] lets a request through, unchanged, exactly
    when [API_KEY_REQUIRED] is not the string [true], or the request
    carries a non-empty [X-API-Key] equal to [API_KEY]; otherwise it
    answers 401 [UNAUTHORIZED].  So when the key is required and [API_KEY]
    is not set, or is empty, no request gets through. *)
Theorem apiKeyMiddleware_passes_iff (env : ProcessEnv) (req : HttpRequest) :
  let required := API_KEY_REQUIRED env = Some "true" in
  let authorized :=
    exists key, x_api_key req = Some key /\ key <> "" /\ API_KEY env = Some key in
  (apiKeyMiddleware env req = Next req <-> ~ required \/ authorized) /\
  (apiKeyMiddleware env req = Next req \/
   apiKeyMiddleware env req =
     Sent {| http_status := 401;
             json := ErrorJson "UNAUTHORIZED" "Missing or invalid X-API-Key header" |}) /\
  (required -> (API_KEY env = None \/ API_KEY env = Some "") ->
   apiKeyMiddleware env req <> Next req).
Proof.
  intros required authorized.
  assert (apiKeyMiddleware env req = Next req <-> ~ required \/ authorized) as Hiff.
  { unfold apiKeyMiddleware, required, authorized. cbv zeta.
    destruct (strictNe (API_KEY_REQUIRED env) (Some "true")) eqn:Hreq.
    - split; [|reflexivity]. intros _. left. intros Heq.
      apply strictNe_false in Heq. congruence.
    - apply strictNe_false in Hreq.
      destruct (negb (truthyOption (x_api_key req)) ||
                strictNe (x_api_key req) (API_KEY env)) eqn:Hbad.
      + split; [discriminate|]. intros [Hn | (key & Hk & Hne & He)]; [now destruct Hn|].
        rewrite Hk, He in Hbad. cbn [truthyOption strictNe] in Hbad.
        rewrite String.eqb_refl in Hbad. destruct key; [now destruct Hne|discriminate].
      + split; [|reflexivity]. intros _. right.
        apply orb_false_iff in Hbad as [Ht Hs]. apply negb_false_iff in Ht.
        apply strictNe_false in Hs.
        destruct (x_api_key req) as [key|]; [|discriminate].
        exists key. repeat split; [|now symmetry]. intros ->. discriminate. }
  split; [exact Hiff|]. split.
  - unfold apiKeyMiddleware. cbv zeta.
    destruct (strictNe _ _); [now left|]. destruct (_ || _); [now right|now left].
  - intros Hreq Hkey Hpass. apply Hiff in Hpass as [Hn | (key & Hk & Hne & He)];
      [now apply Hn|].
    destruct Hkey as [Hkey | Hkey]; rewrite Hkey in He; [discriminate|].
    injection He as <-. now apply Hne.
Qed.

Lemma filter_truthy_trim (l : list string) :
  Forall (fun o => o <> "" /\ trim o = o) (List.filter truthy (map trim l)).
Proof.
  apply List.Forall_forall. intros o Ho. apply filter_In in Ho as [Hin Ht].
  apply in_map_iff in Hin as (x & <- & _). split.
  - intros Heq. rewrite Heq in Ht. discriminate.
  - apply trim_idem.
Qed.

(** X24.  The origins [createCors] allows hold no empty entry and no white
    space around an entry, whatever [CORS_ORIGINS] is; when it is not set,
    or is empty, the only origin is [http://localhost:3000]. *)
Theorem createCors_origins (env : ProcessEnv) :
  Forall (fun o => o <> "" /\ trim o = o) (origin (createCors env)) /\
  (CORS_ORIGINS env = None \/ CORS_ORIGINS env = Some "" ->
   origin (createCors env) = ["http://localhost:3000"]).
Proof.
  split.
  - unfold createCors. cbv zeta. cbn [origin]. apply filter_truthy_trim.
  - unfold createCors. cbv zeta. cbn [origin].
    intros [-> | ->]; vm_compute; reflexivity.
Qed.

End MiddlewareFacts.

(** ** The route *)

Module RoutesFacts.
Import Js Knowledge Agent Middleware Routes JsFacts MiddlewareFacts.

Section Route.
Context {engine : RegExpEngine}.

Lemma apiKeyMiddleware_cases (penv : ProcessEnv) (req : HttpRequest) :
  apiKeyMiddleware penv req = Next req \/
  exists res, apiKeyMiddleware penv req = Sent res /\ http_status res = 401.
Proof.
  unfold apiKeyMiddleware. cbv zeta.
  destruct (strictNe _ _); [now left|]. destruct (_ || _); [|now left].
  right. eexists. split; reflexivity.
Qed.

Lemma validateAskInput_cases (req : HttpRequest) :
  (exists b q, body req = Some b /\ question b = JString q /\
     trim q <> "" /\ (String.length q <= 2000)%nat /\
     validateAskInput req =
       Next {| x_api_key := x_api_key req;
               body := Some {| question := JString (trim q);
                               session_id := session_id b |} |}) \/
  exists res, validateAskInput req = Sent res /\ http_status res = 400.
Proof.
  destruct (validateAskInput req) as [req'|res] eqn:Hv.
  - left. apply validateAskInput_inv in Hv as (b & q & Hb & Hq & Ht & Hl & ->).
    exists b, q. repeat split; assumption.
  - right. exists res. split; [reflexivity|]. now apply validateAskInput_status in Hv.
Qed.

(** The handler on a validated question. *)
Lemma askHandler_cases env (key : option string) (q : string) (sid : option string)
    (s : Server) :
  let req := {| x_api_key := key;
                body := Some {| question := JString q; session_id := sid |} |} in
  let counted := requests_total (metrics s) + 1 in
  askHandler env req s =
    match ask env q sid (world s) with
    | (Normal result, w) =>
        Some ({| http_status := 200;
                 json := AnswerJson (answer result) (trace_id result)
                           (ar_latency_ms result) (tokens_used result) |},
              {| metrics :=
                   {| requests_total := counted;
                      errors_total := errors_total (metrics s);
                      total_latency_ms :=
                        total_latency_ms (metrics s) + ar_latency_ms result |};
                 world := w |})
    | (Throw error, w) =>
        Some (match error with
              | AgentErr _ => AGENT_UNAVAILABLE
              | _ => INTERNAL_ERROR
              end,
              {| metrics :=
                   {| requests_total := counted;
                      errors_total := errors_total (metrics s) + 1;
                      total_latency_ms := total_latency_ms (metrics s) |};
                 world := w |})
    end.
Proof.
  cbv zeta. unfold askHandler. cbn [body].
  destruct (ask env q sid (world s)) as [[result|error] w]; reflexivity.
Qed.

(** What one request does, by the status of its response. *)
Lemma postAsk_cases (penv : ProcessEnv) env (req : HttpRequest) (s : Server) :
  exists res s',
    postAsk penv env req s = Some (res, s') /\
    ((http_status res = 401 \/ http_status res = 400) /\ s' = s \/
     (http_status res = 200 /\
      requests_total (metrics s') = requests_total (metrics s) + 1 /\
      errors_total (metrics s') = errors_total (metrics s)) \/
     ((http_status res = 500 \/ http_status res = 503) /\
      requests_total (metrics s') = requests_total (metrics s) + 1 /\
      errors_total (metrics s') = errors_total (metrics s) + 1 /\
      total_latency_ms (metrics s') = total_latency_ms (metrics s))).
Proof.
  unfold postAsk.
  destruct (apiKeyMiddleware_cases penv req) as [-> | (res & -> & Hres)].
  2:{ exists res, s. split; [reflexivity|]. left. split; [now left|reflexivity]. }
  destruct (validateAskInput_cases req)
    as [(b & q & Hb & Hq & Ht & Hl & ->) | (res & -> & Hres)].
  2:{ exists res, s. split; [reflexivity|]. left. split; [now right|reflexivity]. }
  pose proof (askHandler_cases env (x_api_key req) (trim q) (session_id b) s) as H.
  cbv zeta in H. rewrite H.
  destruct (ask env (trim q) (session_id b) (world s)) as [[result|error] w].
  - eexists _, _. split; [reflexivity|]. right. left. cbn. now repeat split.
  - eexists _, _. split; [reflexivity|]. right. right.
    cbn [metrics requests_total errors_total total_latency_ms].
    split; [|now repeat split]. destruct error; cbn; tauto.
Qed.

(** X25.  The route [POST /api/ask] always answers, with status 200, 400,
    401, 500 or 503, and its handler never meets a request it cannot read.
    A request turned away by a middleware (401, 400) leaves the server as
    it was: no counter moves, no identifier is drawn, the model is not
    called. *)
Theorem postAsk_always_answers (penv : ProcessEnv) env (req : HttpRequest)
    (s : Server) :
  exists res s',
    postAsk penv env req s = Some (res, s') /\
    In (http_status res) [200; 400; 401; 500; 503] /\
    (http_status res = 400 \/ http_status res = 401 -> s' = s).
Proof.
  destruct (postAsk_cases penv env req s) as (res & s' & H & Hcases).
  exists res, s'. split; [exact H|].
  destruct Hcases as [([Hs | Hs] & ->) | [(Hs & _) | ([Hs | Hs] & _)]];
    rewrite Hs; (split; [cbn; tauto | intros [?|?]; try reflexivity; discriminate]).
Qed.

Lemma countIf_cons {A} (p : A -> bool) (x : A) (l : list A) :
  countIf p (x :: l) = (if p x then 1 else 0) + countIf p l.
Proof.
  unfold countIf. cbn [List.filter]. destruct (p x); cbn [List.length]; lia.
Qed.

(** X26.  The counters count what the handler has answered.  Over any
    requests served one after the other, [requests_total] grows by the
    number of responses 200, 500 and 503, and [errors_total] by the number
    of responses 500 and 503: requests answered 400 or 401 are not counted,
    and [errors_total] grows no more than [requests_total]. *)
Theorem metrics_count_handled_requests (penv : ProcessEnv) env
    (reqs : list HttpRequest) (s : Server) :
  exists ress s',
    serve penv env reqs s = Some (ress, s') /\
    List.length ress = List.length reqs /\
    requests_total (metrics s') = requests_total (metrics s) + countIf handled ress /\
    errors_total (metrics s') = errors_total (metrics s) + countIf failed ress /\
    countIf failed ress <= countIf handled ress.
Proof.
  revert s. induction reqs as [|req reqs IH]; intros s.
  - exists [], s. unfold countIf. cbn. repeat split; lia.
  - destruct (postAsk_cases penv env req s) as (res & s1 & H & Hcases).
    destruct (IH s1) as (ress & s2 & Hserve & Hlen & Hreq & Herr & Hle).
    exists (res :: ress), s2. cbn [serve]. rewrite H, Hserve.
    split; [reflexivity|]. split; [cbn; lia|].
    rewrite !countIf_cons. unfold handled at 1 3, failed at 1 3.
    destruct Hcases as [([Hs | Hs] & ->) | [(Hs & Hr & He) | ([Hs | Hs] & Hr & He & _)]];
      rewrite Hs; cbn [Z.eqb Pos.eqb orb]; repeat split; lia.
Qed.

(** X27.  White space around the question never shows: a request whose
    question has at most 2000 characters gets the response, and leaves the
    server, that the same request with the question trimmed does. *)
Theorem postAsk_ignores_surrounding_white_space (penv : ProcessEnv) env
    (req : HttpRequest) (b : Body) (q : string) (s : Server) :
  body req = Some b ->
  question b = JString q ->
  (String.length q <= 2000)%nat ->
  postAsk penv env req s =
  postAsk penv env
    {| x_api_key := x_api_key req;
       body := Some {| question := JString (trim q); session_id := session_id b |} |}
    s.
Proof.
  intros Hb Hq Hlen.
  set (req' := {| x_api_key := x_api_key req; body := _ |}).
  unfold postAsk.
  assert (match apiKeyMiddleware penv req, apiKeyMiddleware penv req' with
          | Next r, Next r' => r = req /\ r' = req'
          | Sent res, Sent res' => res = res'
          | _, _ => False
          end) as Hkey.
  { unfold apiKeyMiddleware. cbv zeta. cbn [x_api_key req'].
    destruct (strictNe _ _); [now split|]. destruct (_ || _); [reflexivity|now split]. }
  destruct (apiKeyMiddleware penv req) as [r|res],
           (apiKeyMiddleware penv req') as [r'|res'];
    try contradiction; [|now subst].
  destruct Hkey as [-> ->].
  destruct (string_dec (trim q) "") as [Hblank | Hne].
  - assert (forall r c, body r = Some c -> question c = JString q ->
              validateAskInput r =
                INVALID_REQUEST "question is required and must be a non-empty string")
      as Hreject.
    { intros r c Hr Hc. unfold validateAskInput. cbv zeta. rewrite Hr, Hc.
      cbn [asString]. rewrite Hblank. cbn [String.length Nat.eqb].
      now rewrite orb_true_r. }
    rewrite (Hreject req b Hb Hq).
    assert (validateAskInput req' =
              INVALID_REQUEST "question is required and must be a non-empty string")
      as ->; [|reflexivity].
    unfold validateAskInput, req'. cbv zeta. cbn [body question]. now rewrite Hblank.
  - rewrite (validateAskInput_accepts req b q Hb Hq Hne Hlen).
    erewrite (validateAskInput_accepts req' _ (trim q));
      [| reflexivity | reflexivity | now rewrite trim_idem |
       pose proof (trim_length q); lia].
    cbn [x_api_key session_id req']. now rewrite trim_idem.
Qed.

(** X28.  A question with a term the [RegExp] constructor refuses is
    answered 500 [INTERNAL_ERROR], as soon as the knowledge base has a
    chunk: the request passes both middlewares, is counted as a request
    and as an error, and the model is not called. *)
Theorem refused_pattern_is_answered_500 (penv : ProcessEnv) env
    (req : HttpRequest) (b : Body) (q : string) (s : Server) chunks w1 :
  apiKeyMiddleware penv req = Next req ->
  body req = Some b ->
  question b = JString q ->
  (String.length q <= 2000)%nat ->
  loadKnowledge env (snd (uuidv4 env (world s))) = (Normal chunks, w1) ->
  chunks <> [] ->
  Exists (fun t => RegExp_new t = None) (queryTerms (trim q)) ->
  exists s',
    postAsk penv env req s = Some (INTERNAL_ERROR, s') /\
    world s' = w1 /\
    calls (world s') = calls (world s) /\
    requests_total (metrics s') = requests_total (metrics s) + 1 /\
    errors_total (metrics s') = errors_total (metrics s) + 1.
Proof.
  intros Hkey Hb Hq Hlen Hload Hne Hex.
  assert (trim q <> "") as Htrim.
  { intros Heq. rewrite Heq in Hex. inversion Hex. }
  destruct (PipelineFacts.findRelevantChunks_refused_pattern
              env (trim q) 3 _ chunks w1 Hload Hne Hex)
    as (t & _ & _ & Hfind).
  apply PipelineFacts.loadKnowledge_frame in Hload as (_ & Hcalls & _).
  cbn [snd uuidv4 calls] in Hcalls.
  unfold postAsk. rewrite Hkey.
  rewrite (validateAskInput_accepts req b q Hb Hq Htrim Hlen).
  pose proof (askHandler_cases env (x_api_key req) (trim q) (session_id b) s) as H.
  cbv zeta in H. rewrite H, AgentFacts.ask_unfold. cbv zeta. rewrite Hfind.
  eexists. split; [reflexivity|]. cbn. now repeat split.
Qed.

End Route.

Lemma postAsk_ignores_surrounding_white_space_witness :
  postAsk (engine := RefEngine.engine) Scenarios.unset Fixtures.unauthorized
    (Scenarios.asks "  test?  ") Scenarios.idle =
  postAsk (engine := RefEngine.engine) Scenarios.unset Fixtures.unauthorized
    (Scenarios.asks "test?") Scenarios.idle.
Proof.
  apply (postAsk_ignores_surrounding_white_space
           (engine := RefEngine.engine) Scenarios.unset Fixtures.unauthorized
           (Scenarios.asks "  test?  ") _ "  test?  " Scenarios.idle
           eq_refl eq_refl).
  vm_compute. lia.
Defined.

Lemma refused_pattern_is_answered_500_witness :
  exists s',
    postAsk (engine := RefEngine.engine) Scenarios.unset Fixtures.unauthorized
      (Scenarios.asks "Is there a C++ client?") Scenarios.idle =
      Some (INTERNAL_ERROR, s') /\
    calls (world s') = O /\
    requests_total (metrics s') = 1 /\
    errors_total (metrics s') = 1.
Proof.
  destruct (refused_pattern_is_answered_500
              (engine := RefEngine.engine) Scenarios.unset Fixtures.unauthorized
              (Scenarios.asks "Is there a C++ client?") _ "Is there a C++ client?"
              Scenarios.idle Fixtures.guideChunks
              (snd (uuidv4 Fixtures.unauthorized Fixtures.loaded))
              eq_refl eq_refl eq_refl)
    as (s' & Hpost & _ & Hcalls & Hreq & Herr).
  - vm_compute. lia.
  - vm_compute. reflexivity.
  - discriminate.
  - apply List.Exists_exists. exists "c++". split; vm_compute; auto.
  - exists s'. repeat split; assumption.
Defined.

End RoutesFacts.

(** ** What a status stands for *)

Module StatusFacts.
Import Js Knowledge Agent Middleware Routes JsFacts MiddlewareFacts RoutesFacts.

Section Statuses.
Context {engine : RegExpEngine}.

Lemma readFiles_throws (files : list DirEntry) :
  forall allChunks e, readFiles files allChunks = Throw e -> exists f, e = FsError f.
Proof.
  induction files as [|f files IH]; intros allChunks e H; [discriminate|].
  cbn [readFiles] in H. destruct (contents f); [now apply IH in H|].
  injection H as <-. eauto.
Qed.

Lemma scoreTerms_throws_SyntaxError (terms : list string) (chunkTitle chunkText : string) :
  forall acc e, scoreTerms terms chunkTitle chunkText acc = Throw e ->
  exists t, e = SyntaxError t.
Proof.
  induction terms as [|t terms IH]; intros acc e H; [discriminate|].
  cbn [scoreTerms] in H. unfold matchCount in H.
  destruct (RegExp_new t); [now apply IH in H|]. injection H as <-. eauto.
Qed.

Lemma mapScored_throws_SyntaxError (query : string) (chunks : list Chunk) :
  forall e, mapScored query chunks = Throw e -> exists t, e = SyntaxError t.
Proof.
  induction chunks as [|c chunks IH]; intros e H; [discriminate|].
  cbn [mapScored] in H. destruct (scoreChunk query c) eqn:Hs.
  - destruct (mapScored query chunks); [discriminate|].
    injection H as <-. now apply IH.
  - injection H as <-. unfold scoreChunk in Hs.
    now apply scoreTerms_throws_SyntaxError in Hs.
Qed.

(** Retrieval throws a [SyntaxError] or a file-system error, nothing else. *)
Lemma findRelevantChunks_throws env query topK (w : World) e w' :
  findRelevantChunks env query topK w = (Throw e, w') ->
  (exists t, e = SyntaxError t) \/ (exists f, e = FsError f).
Proof.
  rewrite KnowledgeFacts.findRelevantChunks_unfold.
  destruct (loadKnowledge env w) as [[chunks|e0] w1] eqn:Hload.
  - destruct (mapScored query chunks) eqn:Hmap; [discriminate|].
    intros H. injection H as <- _. left. now apply mapScored_throws_SyntaxError in Hmap.
  - intros H. injection H as <- _. right.
    destruct (chunksCache w) as [cached|] eqn:Hcache.
    + rewrite (KnowledgeFacts.loadKnowledge_cached _ _ _ Hcache) in Hload. discriminate.
    + rewrite (KnowledgeFacts.loadKnowledge_uncached _ _ Hcache) in Hload.
      unfold Objects.parsedCorpus in Hload.
      destruct (knowledgeDir env); [|discriminate].
      destruct (readFiles _ []) eqn:Hread; [discriminate|].
      injection Hload as <- _. now apply readFiles_throws in Hread.
Qed.

(** What a call of [ask] has run, by how it ends. *)
Lemma ask_cases env question sessionId (w : World) :
  match ask env question sessionId w with
  | (Normal _, w') =>
      (calls w < calls w' <= calls w + 3)%nat /\
      exists params, traces w' = (traces w ++ [params])%list
  | (Throw (AgentErr _), w') =>
      (calls w < calls w' <= calls w + 3)%nat /\ traces w' = traces w
  | (Throw _, w') =>
      calls w' = calls w /\ slept w' = slept w /\ traces w' = traces w
  end.
Proof.
  rewrite AgentFacts.ask_unfold. cbv zeta.
  destruct (findRelevantChunks env question 3 _) as [[chunks|e] w1] eqn:Hfind.
  - apply PipelineFacts.findRelevantChunks_frame in Hfind as (_ & Hc1 & _ & Ht1 & _).
    cbn [snd uuidv4 calls traces] in Hc1, Ht1.
    pose proof (RetryFacts.callClaude_cases env (SYSTEM_PROMPT_TEMPLATE chunks)
                  question (uuid env (uuids w)) w1) as Hcases.
    cbv zeta in Hcases.
    destruct (Claude.callClaude env _ question _ w1) as [[r|e] w2] eqn:Hcall;
      apply ClaudeFacts.callClaude_spec in Hcall as (Ht2 & _);
      destruct Hcases as (k & Hk & Hc2 & _ & _ & Hres).
    + cbn [recordTrace snd calls traces]. split; [lia|].
      eexists. now rewrite Ht2, Ht1.
    + destruct Hres as (e0 & _ & _ & ->). split; [lia|congruence].
  - pose proof (findRelevantChunks_throws _ _ _ _ _ _ Hfind) as Hkind.
    apply PipelineFacts.findRelevantChunks_frame in Hfind as (_ & Hc1 & Hs1 & Ht1 & _).
    cbn [snd uuidv4 calls slept traces] in Hc1, Hs1, Ht1.
    destruct Hkind as [(t & ->) | (f & ->)]; now repeat split.
Qed.

(** X29.  Every failure of the gateway is answered 503
    [AGENT_UNAVAILABLE]: when the request passes the middlewares, the
    retrieval returns and [callClaude] throws, the response is the fixed
    503 body, which says nothing of the cause; the request is counted as a
    request and as an error, and no trace is recorded. *)
Theorem gateway_failure_is_answered_503 (penv : ProcessEnv) env
    (req : HttpRequest) (b : Body) (q : string) (s : Server) relevant w1 ex w2 :
  apiKeyMiddleware penv req = Next req ->
  body req = Some b ->
  question b = JString q ->
  trim q <> "" ->
  (String.length q <= 2000)%nat ->
  findRelevantChunks env (trim q) 3 (snd (uuidv4 env (world s))) =
    (Normal relevant, w1) ->
  Claude.callClaude env (SYSTEM_PROMPT_TEMPLATE relevant) (trim q)
    (uuid env (uuids (world s))) w1 = (Throw ex, w2) ->
  postAsk penv env req s =
    Some (AGENT_UNAVAILABLE,
          {| metrics :=
               {| requests_total := requests_total (metrics s) + 1;
                  errors_total := errors_total (metrics s) + 1;
                  total_latency_ms := total_latency_ms (metrics s) |};
             world := w2 |}) /\
  traces w2 = traces (world s).
Proof.
  intros Hkey Hb Hq Htrim Hlen Hfind Hcall.
  unfold postAsk. rewrite Hkey.
  rewrite (validateAskInput_accepts req b q Hb Hq Htrim Hlen).
  pose proof (askHandler_cases env (x_api_key req) (trim q) (session_id b) s) as H.
  cbv zeta in H. rewrite H.
  rewrite AgentFacts.ask_unfold. cbv zeta. rewrite Hfind, Hcall.
  apply PipelineFacts.findRelevantChunks_frame in Hfind as (_ & _ & _ & Ht1 & _).
  cbn [snd uuidv4 traces] in Ht1.
  apply ClaudeFacts.callClaude_spec in Hcall
    as (Ht2 & _ & _ & k & ds & _ & _ & _ & e & _ & ->).
  split; [reflexivity|congruence].
Qed.

(** X30.  The status of the response tells what has run.  Behind a 200 the
    model was called one to three times and one trace was recorded; behind
    a 503, one to three times and no trace; behind a 500 the model was not
    called at all, no wait was made and no trace recorded: the failure was
    in the retrieval. *)
Theorem postAsk_status_tells_what_ran (penv : ProcessEnv) env
    (req : HttpRequest) (s : Server) :
  exists res s',
    postAsk penv env req s = Some (res, s') /\
    let called := (calls (world s') - calls (world s))%nat in
    (http_status res = 200 ->
       (1 <= called <= 3)%nat /\
       exists params, traces (world s') = (traces (world s) ++ [params])%list) /\
    (http_status res = 503 ->
       (1 <= called <= 3)%nat /\ traces (world s') = traces (world s)) /\
    (http_status res = 500 ->
       calls (world s') = calls (world s) /\
       slept (world s') = slept (world s) /\
       traces (world s') = traces (world s)).
Proof.
  unfold postAsk.
  destruct (apiKeyMiddleware_cases penv req) as [-> | (res & -> & Hres)].
  2:{ exists res, s. split; [reflexivity|]. cbv zeta. rewrite Hres.
      repeat split; discriminate. }
  destruct (validateAskInput_cases req)
    as [(b & q & Hb & Hq & Ht & Hl & ->) | (res & -> & Hres)].
  2:{ exists res, s. split; [reflexivity|]. cbv zeta. rewrite Hres.
      repeat split; discriminate. }
  pose proof (askHandler_cases env (x_api_key req) (trim q) (session_id b) s) as H.
  cbv zeta in H. rewrite H.
  pose proof (ask_cases env (trim q) (session_id b) (world s)) as Hask.
  destruct (ask env (trim q) (session_id b) (world s)) as [[result|error] w].
  - eexists _, _. split; [reflexivity|]. cbv zeta. cbn [http_status world].
    destruct Hask as [Hc Ht']. split; [intros _; split; [lia|exact Ht']|].
    split; discriminate.
  - eexists _, _. split; [reflexivity|]. cbv zeta. cbn [world].
    destruct error; cbn [http_status INTERNAL_ERROR AGENT_UNAVAILABLE];
      (split; [discriminate|]); split; try discriminate; intros _;
      try exact Hask.
    destruct Hask as [Hc Ht']. split; [lia|exact Ht'].
Qed.

End Statuses.

Lemma gateway_failure_is_answered_503_witness :
  exists s',
    postAsk (engine := RefEngine.engine) Scenarios.unset Fixtures.unauthorized
      (Scenarios.asks "test?") Scenarios.idle = Some (AGENT_UNAVAILABLE, s') /\
    requests_total (metrics s') = 1 /\
    errors_total (metrics s') = 1 /\
    traces (world s') = [].
Proof.
  destruct (Claude.callClaude Fixtures.unauthorized (SYSTEM_PROMPT_TEMPLATE [])
              "test?" "trace-0"
              (snd (uuidv4 Fixtures.unauthorized Fixtures.loaded)))
    as [res w2] eqn:Hcall.
  assert (exists ex, res = Throw ex) as (ex & ->).
  { vm_compute in Hcall. injection Hcall as <- _. eauto. }
  destruct (gateway_failure_is_answered_503
              (engine := RefEngine.engine) Scenarios.unset Fixtures.unauthorized
              (Scenarios.asks "test?") _ "test?" Scenarios.idle []
              (snd (uuidv4 Fixtures.unauthorized Fixtures.loaded)) ex w2
              eq_refl eq_refl eq_refl)
    as (Hpost & Htraces).
  - discriminate.
  - vm_compute. lia.
  - vm_compute. reflexivity.
  - exact Hcall.
  - eexists. split; [exact Hpost|]. cbn. repeat split. exact Htraces.
Defined.

End StatusFacts.
